(** * tensorfn.vision.autoaugment: policy table and executor

    A shallow embedding of [tensorfn/vision/autoaugment.py]: the two
    rescaling functions, the transform classes with their [sample] and
    [_apply_img] methods, the registry and literal table of
    [autoaugment_policy], and the two entry points of [AutoAugment].

    Python values are modelled as they are at run time: integers are
    unbounded ([Z]), floats are IEEE 754 binary64 ([spec_float] with
    precision 53 and maximal exponent 1024, round to nearest even),
    instances carry a [__dict__] ([gmap string value]) and live in a store
    that every method threads, exceptions are results of an error monad, and
    the global random generator is a stream of draws with a cursor. A list
    is a value of the store, not an object with an identity; the one
    operation of the module that would change a list in place, [val *= -1]
    on a list given as magnitude, is where the embedding stops. *)

From Stdlib Require Import ZArith Bool String List Lia.
From Stdlib Require Import SpecFloat.
From stdpp Require Import base gmap strings list.

Open Scope Z_scope.

(** ** Exceptions and results *)

(** Python's exceptions, the errors of PIL, and [Unsupported]: not an
    exception of Python but the mark of an operation that lies outside this
    embedding; a run that reaches one stops there, rather than go on with a
    store that Python would have changed. *)
Inductive exn :=
  | NameError (name : string)
  | KeyError (key : string)
  | AttributeError (name : string)
  | IndexError
  | TypeError
  | ValueError
  | OverflowError
  | ZeroDivisionError
  | InvalidParameter
  | PilError (code : nat)
  | Unsupported (operation : string).

Inductive res (A : Type) :=
  | Ok (a : A)
  | Err (e : exn).
Arguments Ok {A} a.
Arguments Err {A} e.

#[global] Instance res_ret : MRet res := λ A a, Ok a.
#[global] Instance res_bind : MBind res := λ A B f m,
  match m with
  | Ok a => f a
  | Err e => Err e
  end.
#[global] Instance res_fmap : FMap res := λ A B f m,
  match m with
  | Ok a => Ok (f a)
  | Err e => Err e
  end.

Definition is_ok {A} (r : res A) : bool :=
  match r with Ok _ => true | Err _ => false end.

(** ** Python numbers *)

Module Py.

Definition prec : Z := 53.
Definition emax : Z := 1024.

Abbreviation float := spec_float.

Definition fmul : float → float → float := SFmul prec emax.
Definition fdiv : float → float → float := SFdiv prec emax.
Definition fadd : float → float → float := SFadd prec emax.
Definition fsub : float → float → float := SFsub prec emax.

(** The double nearest to an integer (ties to even); out of range it is
    an infinity. *)
Definition Z2SF (z : Z) : float := binary_normalize prec emax z 0 false.

(** The double nearest to the decimal fraction [n/d], the value of a
    float literal such as [0.3] (both [n] and [d] are small). *)
Definition decimal (n d : Z) : float := fdiv (Z2SF n) (Z2SF d).

Inductive num :=
  | Int (z : Z)
  | Float (f : float).

Definition is_float (x : num) : bool :=
  match x with Float _ => true | Int _ => false end.

(** [float(z)] for an integer: OverflowError beyond the largest double. *)
Definition float_of_int (z : Z) : res float :=
  match Z2SF z with
  | S754_infinity _ => Err OverflowError
  | f => Ok f
  end.

(** The float operand of a mixed operation. *)
Definition as_float (x : num) : res float :=
  match x with
  | Int z => float_of_int z
  | Float f => Ok f
  end.

(** [float(x)] *)
Definition float_ (x : num) : res num := Float <$> as_float x.

Definition is_zero (f : float) : bool :=
  match f with S754_zero _ => true | _ => false end.

(** [a / b] on integers: the correctly rounded quotient. *)
Definition int_truediv (a b : Z) : res float :=
  if b =? 0 then Err ZeroDivisionError
  else if a =? 0 then Ok (S754_zero (b <? 0))
  else
    match fdiv (S754_finite (a <? 0) (Z.to_pos (Z.abs a)) 0)
               (S754_finite (b <? 0) (Z.to_pos (Z.abs b)) 0) with
    | S754_infinity _ => Err OverflowError
    | f => Ok f
    end.

Definition mul (x y : num) : res num :=
  match x, y with
  | Int a, Int b => Ok (Int (a * b))
  | _, _ => fx ← as_float x; fy ← as_float y; Ok (Float (fmul fx fy))
  end.

Definition add (x y : num) : res num :=
  match x, y with
  | Int a, Int b => Ok (Int (a + b))
  | _, _ => fx ← as_float x; fy ← as_float y; Ok (Float (fadd fx fy))
  end.

Definition sub (x y : num) : res num :=
  match x, y with
  | Int a, Int b => Ok (Int (a - b))
  | _, _ => fx ← as_float x; fy ← as_float y; Ok (Float (fsub fx fy))
  end.

Definition truediv (x y : num) : res num :=
  match x, y with
  | Int a, Int b => Float <$> int_truediv a b
  | _, _ =>
      fx ← as_float x; fy ← as_float y;
      if is_zero fy then Err ZeroDivisionError else Ok (Float (fdiv fx fy))
  end.

(** [int(x)]: truncation toward zero. *)
Definition trunc (f : float) : res Z :=
  match f with
  | S754_nan => Err ValueError
  | S754_infinity _ => Err OverflowError
  | S754_zero _ => Ok 0
  | S754_finite s m e => Ok (cond_Zopp s (Z.shiftl (Zpos m) e))
  end.

Definition int_ (x : num) : res num :=
  match x with
  | Int z => Ok (Int z)
  | Float f => Int <$> trunc f
  end.

(** [math.floor(x)]: rounding toward minus infinity. *)
Definition floor_float (f : float) : res Z :=
  match f with
  | S754_nan => Err ValueError
  | S754_infinity _ => Err OverflowError
  | S754_zero _ => Ok 0
  | S754_finite s m e => Ok (Z.shiftl (cond_Zopp s (Zpos m)) e)
  end.

Definition floor (x : num) : res num :=
  match x with
  | Int z => Ok (Int z)
  | Float f => Int <$> floor_float f
  end.

(** Comparison; an integer and a float are compared by value, without
    rounding the integer. *)
Definition compare_float_int (f : float) (z : Z) : option comparison :=
  match f with
  | S754_nan => None
  | S754_infinity s => Some (if s then Lt else Gt)
  | S754_zero _ => Some (0 ?= z)
  | S754_finite s m e =>
      let v := cond_Zopp s (Zpos m) in
      if 0 <=? e then Some (Z.shiftl v e ?= z) else Some (v ?= Z.shiftl z (- e))
  end.

Definition compare (x y : num) : option comparison :=
  match x, y with
  | Int a, Int b => Some (a ?= b)
  | Float f, Float g => SFcompare f g
  | Float f, Int b => compare_float_int f b
  | Int a, Float g => CompOpp <$> compare_float_int g a
  end.

Definition ltb (x y : num) : bool :=
  match compare x y with Some Lt => true | _ => false end.

Definition leb (x y : num) : bool :=
  match compare x y with Some (Lt | Eq) => true | _ => false end.

(** [x == y] *)
Definition eqb (x y : num) : bool :=
  match compare x y with Some Eq => true | _ => false end.

(** The float literals of the module. *)
Definition f0_0 : float := S754_zero false.
Definition f0_1 : float := Eval vm_compute in decimal 1 10.
Definition f0_2 : float := Eval vm_compute in decimal 2 10.
Definition f0_3 : float := Eval vm_compute in decimal 3 10.
Definition f0_4 : float := Eval vm_compute in decimal 4 10.
Definition f0_5 : float := Eval vm_compute in decimal 5 10.
Definition f0_6 : float := Eval vm_compute in decimal 6 10.
Definition f0_8 : float := Eval vm_compute in decimal 8 10.
Definition f1_0 : float := Eval vm_compute in Z2SF 1.
Definition f1_8 : float := Eval vm_compute in decimal 18 10.

End Py.

Abbreviation pynum := Py.num.
Abbreviation PyInt := Py.Int.
Abbreviation PyFloat := Py.Float.

(** ** The rescaling functions *)

Definition param_max_default : pynum := PyInt 10.

(** [float(level) * max_val / param_max] *)
Definition rescale_float (level max_val param_max : pynum) : res pynum :=
  l ← Py.float_ level;
  t ← Py.mul l max_val;
  Py.truediv t param_max.

(** [int(level * max_val / param_max)] *)
Definition rescale_int (level max_val param_max : pynum) : res pynum :=
  t ← Py.mul level max_val;
  q ← Py.truediv t param_max;
  Py.int_ q.

(** ** Values, instances and the store *)

Inductive pyclass :=
  | ShearX | ShearY | TranslateX | TranslateY | Rotate
  | Posterize | Solarize | Saturation | Contrast | Brightness | Sharpness
  | Invert | AutoContrast | Equalize
  | AutoAugment.

#[global] Instance pyclass_eq_dec : EqDecision pyclass.
Proof. solve_decision. Defined.

(** The resampling filters of [PIL.Image] (the integers 0, 2 and 3); the
    module names [NEAREST] only. *)
Inductive pil_filter := NEAREST | BILINEAR | BICUBIC.

Definition loc := nat.

#[warnings="-register-all"]
Inductive value :=
  | VNone
  | VBool (b : bool)
  | VNum (n : pynum)
  | VFilter (f : pil_filter)
  | VGlobal (name : string)
  | VRef (l : loc)
  | VList (items : list value).

(** An instance: its class and its [__dict__]. *)
Record instance := Instance { cls : pyclass; dict : gmap string value }.

(** The global generator of [random]: the draws it will deliver and how
    many were taken. *)
Record generator := Generator { draws : nat → N; cursor : nat }.

Record world := World { heap : list instance; rng : generator }.

Definition with_heap (h : list instance) (w : world) : world :=
  {| heap := h; rng := rng w |}.

Definition advance (w : world) : world :=
  {| heap := heap w;
     rng := {| draws := draws (rng w); cursor := S (cursor (rng w)) |} |}.

Definition next_draw (w : world) : N := draws (rng w) (cursor (rng w)).

(** Computations: a result (or an exception) and the world they leave. *)
Definition M (A : Type) : Type := world → res A * world.

Definition ret {A} (a : A) : M A := λ w, (Ok a, w).
Definition bind {A B} (m : M A) (f : A → M B) : M B := λ w,
  match m w with
  | (Ok a, w') => f a w'
  | (Err e, w') => (Err e, w')
  end.

Notation "'let*' x := m 'in' k" := (bind m (λ x, k))
  (at level 10, x pattern, m at level 100, k at level 200,
   format "'[v' 'let*'  x  :=  m  'in' '/' k ']'").

Definition raise {A} (e : exn) : M A := λ w, (Err e, w).
Definition lift {A} (r : res A) : M A := λ w, (r, w).

(** [for x in xs: s = body(x, s)] *)
Fixpoint for_each {A S} (xs : list A) (s : S) (body : A → S → M S) : M S :=
  match xs with
  | [] => ret s
  | x :: rest => let* s' := body x s in for_each rest s' body
  end.

(** The truth value of an object. *)
Definition truthy (v : value) : bool :=
  match v with
  | VNone => false
  | VBool b => b
  | VNum (PyInt z) => negb (z =? 0)
  | VNum (PyFloat f) => negb (Py.is_zero f)
  | VList items => negb (Nat.eqb (length items) 0)
  | VFilter f => match f with NEAREST => false | _ => true end
  | VGlobal _ | VRef _ => true
  end.

Definition as_num (v : value) : M pynum :=
  match v with
  | VNum n => ret n
  | VBool b => ret (PyInt (if b then 1 else 0))
  | _ => raise TypeError
  end.

Definition class_of (self : value) : M pyclass := λ w,
  match self with
  | VRef l =>
      match heap w !! l with
      | Some o => (Ok (cls o), w)
      | None => (Err TypeError, w)
      end
  | _ => (Err TypeError, w)
  end.

(** [self.name] *)
Definition getattr (self : value) (name : string) : M value := λ w,
  match self with
  | VRef l =>
      match heap w !! l with
      | Some o =>
          match dict o !! name with
          | Some v => (Ok v, w)
          | None => (Err (AttributeError name), w)
          end
      | None => (Err (AttributeError name), w)
      end
  | _ => (Err (AttributeError name), w)
  end.

(** [self.name = v] *)
Definition setattr (self : loc) (name : string) (v : value) : M unit := λ w,
  match heap w !! self with
  | Some o =>
      (Ok (), with_heap (<[self := {| cls := cls o; dict := <[name := v]> (dict o) |}]> (heap w)) w)
  | None => (Err (AttributeError name), w)
  end.

(** A fresh instance of class [c] with an empty [__dict__]. *)
Definition new (c : pyclass) : M loc := λ w,
  (Ok (length (heap w)), with_heap (heap w ++ [{| cls := c; dict := ∅ |}]) w).

(** ** The random source *)

(** [random.random()]: one draw, a multiple of [2^-53] in [[0, 1)]. *)
Definition random_random : M pynum := λ w,
  let k := (next_draw w mod 2 ^ 53)%N in
  (Ok (PyFloat (binary_normalize Py.prec Py.emax (Z.of_N k) (-53) false)), advance w).

(** The index selected among [n]: the next draw reduced modulo [n]. *)
Definition choice_index (n : nat) (w : world) : nat :=
  N.to_nat (next_draw w mod N.of_nat n)%N.

(** [random.choice(seq)]: IndexError on an empty sequence, otherwise one
    draw selects an index below the length. *)
Definition random_choice (seq : value) : M value :=
  match seq with
  | VList items => λ w,
      match items with
      | [] => (Err IndexError, w)
      | _ :: _ =>
          match items !! choice_index (length items) w with
          | Some v => (Ok v, advance w)
          | None => (Err IndexError, advance w)
          end
      end
  | _ => raise TypeError
  end.

(** Modelled from the spec: [check_prob] of [tensorfn.vision.transforms]
    is not among the sources. It is the event of probability [p]: a fresh
    uniform draw falls below [p] (so [p = 1.0] always holds and [p = 0.0]
    never does). *)
Definition check_prob (p : pynum) : M bool :=
  let* u := random_random in ret (Py.ltb u p).

(** ** The transform classes *)

Abbreviation params := (gmap string value).

(** Names bound at module level: the imports, the functions and the
    classes of [autoaugment.py]. *)
Definition module_names : list string :=
  ["random"; "Image"; "ImageOps"; "ImageEnhance"; "transforms";
   "check_prob"; "PIL_INTER_MAP"; "RandomTransform";
   "rescale_float"; "rescale_int"; "AutoAugmentAffine";
   "ShearX"; "ShearY"; "TranslateX"; "TranslateY"; "Rotate";
   "Posterize"; "Solarize"; "Saturation"; "Contrast"; "Brightness";
   "Sharpness"; "autoaugment_policy"; "AutoAugment"]%string.

(** Loading a name inside a method: the frame's locals first, then the
    module's names; a name bound in neither (and no builtin has any of the
    names loaded below) raises NameError. *)
Definition load_name (locals : params) (name : string) : M value :=
  match locals !! name with
  | Some v => ret v
  | None =>
      if bool_decide (name ∈ module_names) then ret (VGlobal name)
      else raise (NameError name)
  end.

(** Modelled from the spec: [RandomTransform.__init__] of
    [tensorfn.vision.transforms] is not among the sources. A probability
    outside [[0, 1]] is the invalid-parameter error, raised at construction;
    otherwise the probability is stored. *)
Definition RandomTransform_init (self : loc) (p : pynum) : M unit :=
  if Py.leb (PyInt 0) p && Py.leb p (PyInt 1)
  then setattr self "p" (VNum p)
  else raise InvalidParameter.

Definition AutoAugmentAffine_init (self : loc) (mirror : bool)
    (resample : pil_filter) (p : pynum) : M unit :=
  let* _ := RandomTransform_init self p in
  let* _ := setattr self "mirror" (VBool mirror) in
  setattr self "resample" (VFilter resample).

(** [val *= -1]. A number (or a boolean) is immutable: the local [val] is
    rebound to the product. [None], an instance and a module-level object
    have no product with an integer: TypeError. A list is emptied in place,
    and with it the list that the instance stores, since [val] is that very
    object; the store of this embedding holds lists by value and cannot
    follow that, so the embedding stops there. It stops as well at a PIL
    filter constant, an integer of PIL's. *)
Definition negate (val : value) : M value :=
  match val with
  | VList _ => raise (Unsupported "list.__imul__")
  | VFilter _ => raise (Unsupported "filter * -1")
  | _ => let* n := as_num val in let* r := lift (Py.mul n (PyInt (-1))) in ret (VNum r)
  end.

Definition AutoAugmentAffine_mirror (self : value) (val : value) : M value :=
  let* mirror := getattr self "mirror" in
  if truthy mirror then
    let* heads := check_prob (PyFloat Py.f0_5) in
    if heads then negate val else ret val
  else ret val.

(** The body shared by the five affine [sample] methods: read the field,
    mirror it into the local [bound], and return the record whose entry
    [key] is the value of the name [loaded]. *)
Definition affine_sample (field bound key loaded : string) (self : value) : M params :=
  let* v := getattr self field in
  let* r := AutoAugmentAffine_mirror self v in
  let locals : params := <[bound := r]> {["self" := self]} in
  let* out := load_name locals loaded in
  ret {[key := out]}.

Definition ShearX_init (self : loc) (shear_x : value) (mirror : bool)
    (resample : pil_filter) (p : pynum) : M unit :=
  let* _ := AutoAugmentAffine_init self mirror resample p in
  setattr self "shear_x" shear_x.

Definition ShearX_sample : value → M params :=
  affine_sample "shear_x" "shear_x" "shear_x" "shear_x".

Definition ShearY_init (self : loc) (shear_y : value) (mirror : bool)
    (resample : pil_filter) (p : pynum) : M unit :=
  let* _ := AutoAugmentAffine_init self mirror resample p in
  setattr self "shear_y" shear_y.

Definition ShearY_sample : value → M params :=
  affine_sample "shear_y" "shear_y" "shear_y" "shear_y".

Definition TranslateX_init (self : loc) (translate_x : value) (mirror : bool)
    (resample : pil_filter) (p : pynum) : M unit :=
  let* _ := AutoAugmentAffine_init self mirror resample p in
  setattr self "translate_x" translate_x.

Definition TranslateX_sample : value → M params :=
  affine_sample "translate_x" "trans_x" "translate_x" "trans_x".

Definition TranslateY_init (self : loc) (translate_y : value) (mirror : bool)
    (resample : pil_filter) (p : pynum) : M unit :=
  let* _ := AutoAugmentAffine_init self mirror resample p in
  setattr self "translate_y" translate_y.

(** [trans_y = self._mirror(self.translate_y)] then
    [return {"translate_y": trans_x}] *)
Definition TranslateY_sample : value → M params :=
  affine_sample "translate_y" "trans_y" "translate_y" "trans_x".

Definition Rotate_init (self : loc) (rotate : value) (mirror : bool)
    (resample : pil_filter) (p : pynum) : M unit :=
  let* _ := AutoAugmentAffine_init self mirror resample p in
  setattr self "rotate" rotate.

Definition Rotate_sample : value → M params :=
  affine_sample "rotate" "rotate" "rotate" "rotate".

(** The six classes that derive from [RandomTransform] directly store one
    field and return it unchanged. *)
Definition plain_init (field : string) (self : loc) (v : value) (p : pynum) : M unit :=
  let* _ := RandomTransform_init self p in
  setattr self field v.

Definition plain_sample (field : string) (self : value) : M params :=
  let* v := getattr self field in ret {[field := v]}.

Definition Posterize_init := plain_init "bits".
Definition Posterize_sample := plain_sample "bits".
Definition Solarize_init := plain_init "threshold".
Definition Solarize_sample := plain_sample "threshold".
Definition Saturation_init := plain_init "saturation".
Definition Saturation_sample := plain_sample "saturation".
Definition Contrast_init := plain_init "contrast".
Definition Contrast_sample := plain_sample "contrast".
Definition Brightness_init := plain_init "brightness".
Definition Brightness_sample := plain_sample "brightness".
Definition Sharpness_init := plain_init "sharpness".
Definition Sharpness_sample := plain_sample "sharpness".

(** Modelled from the spec: [transforms.Invert], [transforms.AutoContrast]
    and [transforms.Equalize] are not among the sources. They take no
    magnitude: they are constructed from the probability alone and sample
    the empty parameter record. *)
Definition nullary_init (self : loc) (p : pynum) : M unit :=
  RandomTransform_init self p.

Definition nullary_sample (self : value) : M params := ret ∅.

(** [pol.sample()], dispatched on the class of [pol]. *)
Definition sample (pol : value) : M params :=
  let* c := class_of pol in
  match c with
  | ShearX => ShearX_sample pol
  | ShearY => ShearY_sample pol
  | TranslateX => TranslateX_sample pol
  | TranslateY => TranslateY_sample pol
  | Rotate => Rotate_sample pol
  | Posterize => Posterize_sample pol
  | Solarize => Solarize_sample pol
  | Saturation => Saturation_sample pol
  | Contrast => Contrast_sample pol
  | Brightness => Brightness_sample pol
  | Sharpness => Sharpness_sample pol
  | Invert | AutoContrast | Equalize => nullary_sample pol
  | AutoAugment => raise (AttributeError "sample")
  end.

Definition default_mirror : bool := true.
Definition default_resample : pil_filter := NEAREST.

(** [augment_fn(magnitude, p=prob)] and [augment_fn(p=prob)]: allocate the
    instance and run the class's [__init__] with the remaining defaults. *)
Definition construct (c : pyclass) (magnitude : option value) (p : pynum) : M value :=
  match c, magnitude with
  | ShearX, Some v =>
      let* self := new c in let* _ := ShearX_init self v default_mirror default_resample p in ret (VRef self)
  | ShearY, Some v =>
      let* self := new c in let* _ := ShearY_init self v default_mirror default_resample p in ret (VRef self)
  | TranslateX, Some v =>
      let* self := new c in let* _ := TranslateX_init self v default_mirror default_resample p in ret (VRef self)
  | TranslateY, Some v =>
      let* self := new c in let* _ := TranslateY_init self v default_mirror default_resample p in ret (VRef self)
  | Rotate, Some v =>
      let* self := new c in let* _ := Rotate_init self v default_mirror default_resample p in ret (VRef self)
  | Posterize, Some v => let* self := new c in let* _ := Posterize_init self v p in ret (VRef self)
  | Solarize, Some v => let* self := new c in let* _ := Solarize_init self v p in ret (VRef self)
  | Saturation, Some v => let* self := new c in let* _ := Saturation_init self v p in ret (VRef self)
  | Contrast, Some v => let* self := new c in let* _ := Contrast_init self v p in ret (VRef self)
  | Brightness, Some v => let* self := new c in let* _ := Brightness_init self v p in ret (VRef self)
  | Sharpness, Some v => let* self := new c in let* _ := Sharpness_init self v p in ret (VRef self)
  | (Invert | AutoContrast | Equalize), None =>
      let* self := new c in let* _ := nullary_init self p in ret (VRef self)
  | _, _ => raise TypeError
  end.

(** ** Applying a transform *)

(** The calls into PIL, with their arguments as the methods pass them. *)
Inductive pil_call :=
  | Image_transform_affine (data : value * value * value * value * value * value)
      (resample : value)
  | Image_rotate (angle : value) (resample : value)
  | ImageOps_posterize (bits : value)
  | ImageOps_solarize (threshold : value)
  | ImageEnhance_Color (factor : value)
  | ImageEnhance_Contrast (factor : value)
  | ImageEnhance_Brightness (factor : value)
  | ImageEnhance_Sharpness (factor : value)
  | Transforms_invert
  | Transforms_autocontrast
  | Transforms_equalize.

(** [method(img, **kw)] for a method with the one keyword parameter
    [name]: a missing or unexpected keyword is a TypeError. *)
Definition keyword1 (name : string) (kw : params) : M value :=
  match kw !! name with
  | Some v => if Nat.eqb (size kw) 1 then ret v else raise TypeError
  | None => raise TypeError
  end.

Definition keyword0 (kw : params) : M unit :=
  if Nat.eqb (size kw) 0 then ret () else raise TypeError.

Definition iterate (v : value) : M (list value) :=
  match v with
  | VList items => ret items
  | _ => raise TypeError
  end.

Section Executor.

(** Images and the pixel operations are PIL's; an operation returns a new
    image or raises. *)
Context {image : Type} (pil : pil_call → image → res image).

(** The diagnostic of a step, as the diagnostic path records it. *)
Context {diagnostic : Type} (not_applied : diagnostic)
        (describe : pyclass → params → image → image → diagnostic).

Definition AutoAugmentAffine_apply_img_fn (self : value) (img : image)
    (translate shear : value * value) : M image :=
  let '(trans_x, trans_y) := translate in
  let '(shear_x, shear_y) := shear in
  let* resample := getattr self "resample" in
  lift (pil (Image_transform_affine
               (VNum (PyInt 1), shear_x, trans_x, shear_y, VNum (PyInt 1), trans_y)
               resample) img).

Definition zero : value := VNum (PyInt 0).

Definition ShearX_apply_img (self : value) (img : image) (kw : params) : M image :=
  let* shear_x := keyword1 "shear_x" kw in
  AutoAugmentAffine_apply_img_fn self img (zero, zero) (shear_x, zero).

Definition ShearY_apply_img (self : value) (img : image) (kw : params) : M image :=
  let* shear_y := keyword1 "shear_y" kw in
  AutoAugmentAffine_apply_img_fn self img (zero, zero) (zero, shear_y).

Definition TranslateX_apply_img (self : value) (img : image) (kw : params) : M image :=
  let* translate_x := keyword1 "translate_x" kw in
  AutoAugmentAffine_apply_img_fn self img (translate_x, zero) (zero, zero).

Definition TranslateY_apply_img (self : value) (img : image) (kw : params) : M image :=
  let* translate_y := keyword1 "translate_y" kw in
  AutoAugmentAffine_apply_img_fn self img (zero, translate_y) (zero, zero).

Definition Rotate_apply_img (self : value) (img : image) (kw : params) : M image :=
  let* rotate := keyword1 "rotate" kw in
  let* resample := getattr self "resample" in
  lift (pil (Image_rotate rotate resample) img).

Definition Posterize_apply_img (self : value) (img : image) (kw : params) : M image :=
  let* bits := keyword1 "bits" kw in lift (pil (ImageOps_posterize bits) img).

Definition Solarize_apply_img (self : value) (img : image) (kw : params) : M image :=
  let* threshold := keyword1 "threshold" kw in lift (pil (ImageOps_solarize threshold) img).

Definition Saturation_apply_img (self : value) (img : image) (kw : params) : M image :=
  let* saturation := keyword1 "saturation" kw in lift (pil (ImageEnhance_Color saturation) img).

Definition Contrast_apply_img (self : value) (img : image) (kw : params) : M image :=
  let* contrast := keyword1 "contrast" kw in lift (pil (ImageEnhance_Contrast contrast) img).

Definition Brightness_apply_img (self : value) (img : image) (kw : params) : M image :=
  let* brightness := keyword1 "brightness" kw in
  lift (pil (ImageEnhance_Brightness brightness) img).

Definition Sharpness_apply_img (self : value) (img : image) (kw : params) : M image :=
  let* sharpness := keyword1 "sharpness" kw in
  lift (pil (ImageEnhance_Sharpness sharpness) img).

(** Modelled from the spec: the [_apply_img] of [transforms.Invert],
    [transforms.AutoContrast] and [transforms.Equalize], which are not
    among the sources: the opaque pixel operation, without parameters. *)
Definition nullary_apply_img (op : pil_call) (self : value) (img : image)
    (kw : params) : M image :=
  let* _ := keyword0 kw in lift (pil op img).

(** [self._apply_img(img, **kw)], dispatched on the class of [self]. *)
Definition _apply_img (self : value) (img : image) (kw : params) : M image :=
  let* c := class_of self in
  match c with
  | ShearX => ShearX_apply_img self img kw
  | ShearY => ShearY_apply_img self img kw
  | TranslateX => TranslateX_apply_img self img kw
  | TranslateY => TranslateY_apply_img self img kw
  | Rotate => Rotate_apply_img self img kw
  | Posterize => Posterize_apply_img self img kw
  | Solarize => Solarize_apply_img self img kw
  | Saturation => Saturation_apply_img self img kw
  | Contrast => Contrast_apply_img self img kw
  | Brightness => Brightness_apply_img self img kw
  | Sharpness => Sharpness_apply_img self img kw
  | Invert => nullary_apply_img Transforms_invert self img kw
  | AutoContrast => nullary_apply_img Transforms_autocontrast self img kw
  | Equalize => nullary_apply_img Transforms_equalize self img kw
  | AutoAugment => raise (AttributeError "_apply_img")
  end.

(** The fire/skip gate of a step: one fresh draw against [self.p]. *)
Definition gate (self : value) : M bool :=
  let* p := getattr self "p" in
  let* p := as_num p in
  check_prob p.

(** Modelled from the spec: [RandomTransform.apply_img] is not among the
    sources. Each time the step is reached a fresh uniform draw decides
    whether the operation runs at all; if it does not, the image passes
    through unchanged. *)
Definition apply_img (self : value) (img : image) (kw : params) : M image :=
  let* fire := gate self in
  if fire then _apply_img self img kw else ret img.

(** Modelled from the spec: [RandomTransform.apply_img_check] is not
    among the sources. The same as [apply_img], behind the same single
    gate, and it also returns the description of what the operation did. *)
Definition apply_img_check (self : value) (img : image) (kw : params)
    : M (image * diagnostic) :=
  let* fire := gate self in
  if fire then
    let* c := class_of self in
    let* out := _apply_img self img kw in
    ret (out, describe c kw img out)
  else ret (img, not_applied).

(** ** AutoAugment *)

Definition AutoAugment_init (self : loc) (policy : value) : M unit :=
  setattr self "policy" policy.

Definition AutoAugment_call (self : value) (img : image) : M image :=
  let* policy := getattr self "policy" in
  let* selected_policy := random_choice policy in
  let* steps := iterate selected_policy in
  for_each steps img (λ pol img,
    let* sample_ := sample pol in
    apply_img pol img sample_).

Definition trace : Type := list (value * params * diagnostic).

Definition AutoAugment_check (self : value) (img : image) : M (image * trace) :=
  let log : trace := [] in
  let* policy := getattr self "policy" in
  let* selected_policy := random_choice policy in
  let* steps := iterate selected_policy in
  for_each steps (img, log) (λ pol '(img, log),
    let* sample_ := sample pol in
    let* (img, check) := apply_img_check pol img sample_ in
    ret (img, log ++ [(pol, sample_, check)])).

(** *** The executor as the specification words it

    One step: sample the parameters, draw the gate, and either pass the
    image through or replace it by the applied result; an exception of any
    of the three ends the step. *)
Inductive spec_step (pol : value) (img : image) (w : world)
    : res (bool * image) → world → Prop :=
  | step_skip kw w1 w2 :
      sample pol w = (Ok kw, w1) →
      gate pol w1 = (Ok false, w2) →
      spec_step pol img w (Ok (false, img)) w2
  | step_fire kw w1 w2 out w3 :
      sample pol w = (Ok kw, w1) →
      gate pol w1 = (Ok true, w2) →
      _apply_img pol img kw w2 = (Ok out, w3) →
      spec_step pol img w (Ok (true, out)) w3
  | step_sample_raises e w1 :
      sample pol w = (Err e, w1) →
      spec_step pol img w (Err e) w1
  | step_gate_raises kw w1 e w2 :
      sample pol w = (Ok kw, w1) →
      gate pol w1 = (Err e, w2) →
      spec_step pol img w (Err e) w2
  | step_apply_raises kw w1 w2 e w3 :
      sample pol w = (Ok kw, w1) →
      gate pol w1 = (Ok true, w2) →
      _apply_img pol img kw w2 = (Err e, w3) →
      spec_step pol img w (Err e) w3.

(** The steps of a sub-policy, in list order; [fired] records the gate of
    every step that completed. *)
Inductive spec_steps : list value → image → world → list bool → res image → world → Prop :=
  | steps_done img w :
      spec_steps [] img w [] (Ok img) w
  | steps_next pol rest img w b img1 w1 fired r w2 :
      spec_step pol img w (Ok (b, img1)) w1 →
      spec_steps rest img1 w1 fired r w2 →
      spec_steps (pol :: rest) img w (b :: fired) r w2
  | steps_raise pol rest img w e w1 :
      spec_step pol img w (Err e) w1 →
      spec_steps (pol :: rest) img w [] (Err e) w1.

(** The body of the loop of [__call__]. *)
Definition call_body (pol : value) (img : image) : M image :=
  let* sample_ := sample pol in apply_img pol img sample_.

(** The body of the loop of [check]. *)
Definition check_body (pol : value) (st : image * trace) : M (image * trace) :=
  let '(img, log) := st in
  let* sample_ := sample pol in
  let* (img, check) := apply_img_check pol img sample_ in
  ret (img, log ++ [(pol, sample_, check)]).

(** The trace the specification asks of the diagnostic path: one entry per
    step, in order, holding the step's instance, the record its [sample]
    returned, and the description of what was done: [not_applied] when the
    gate failed, the operation's description of input and output when it
    fired. *)
Inductive spec_trace : list value → image → world → trace → image → world → Prop :=
  | trace_done img w :
      spec_trace [] img w [] img w
  | trace_skip pol rest img w kw w1 w2 log out w3 :
      sample pol w = (Ok kw, w1) →
      gate pol w1 = (Ok false, w2) →
      spec_trace rest img w2 log out w3 →
      spec_trace (pol :: rest) img w ((pol, kw, not_applied) :: log) out w3
  | trace_fire pol rest img w kw w1 w2 c img1 w3 log out w4 :
      sample pol w = (Ok kw, w1) →
      gate pol w1 = (Ok true, w2) →
      class_of pol w2 = (Ok c, w2) →
      _apply_img pol img kw w2 = (Ok img1, w3) →
      spec_trace rest img1 w3 log out w4 →
      spec_trace (pol :: rest) img w ((pol, kw, describe c kw img img1) :: log) out w4.

End Executor.

(** [AutoAugment(policy)] *)
Definition AutoAugment_new (policy : value) : M value :=
  let* self := new AutoAugment in
  let* _ := AutoAugment_init self policy in
  ret (VRef self).

(** ** The registry and the policy table *)

Abbreviation rule := (pynum → res pynum).

Definition shear_rule : rule :=
  λ level, rescale_float level (PyFloat Py.f0_3) param_max_default.
Definition translate_rule : rule :=
  λ level, rescale_int level (PyInt 10) param_max_default.
Definition rotate_rule : rule :=
  λ level, rescale_int level (PyInt 30) param_max_default.
Definition solarize_rule : rule :=
  λ level, r ← rescale_int level (PyInt 256) param_max_default; Py.sub (PyInt 256) r.
Definition posterize_rule : rule :=
  λ level, r ← rescale_int level (PyInt 4) param_max_default; Py.sub (PyInt 4) r.
Definition enhance_rule : rule :=
  λ level, r ← rescale_float level (PyFloat Py.f1_8) param_max_default;
           Py.add r (PyFloat Py.f0_1).

Definition autoaugment_map : gmap string (pyclass * option rule) :=
  list_to_map
    [ ("ShearX", (ShearX, Some shear_rule));
      ("ShearY", (ShearY, Some shear_rule));
      ("TranslateX", (TranslateX, Some translate_rule));
      ("TranslateY", (TranslateY, Some translate_rule));
      ("Rotate", (Rotate, Some rotate_rule));
      ("Solarize", (Solarize, Some solarize_rule));
      ("Posterize", (Posterize, Some posterize_rule));
      ("Contrast", (Contrast, Some enhance_rule));
      ("Color", (Saturation, Some enhance_rule));
      ("Brightness", (Brightness, Some enhance_rule));
      ("Sharpness", (Sharpness, Some enhance_rule));
      ("Invert", (Invert, None));
      ("AutoContrast", (AutoContrast, None));
      ("Equalize", (Equalize, None)) ]%string.

Arguments autoaugment_map : simpl never.

(** A triple of the literal table: operation name, probability, level. *)
Abbreviation triple := (string * pynum * pynum)%type.

Definition p0_0 : pynum := PyFloat Py.f0_0.
Definition p0_2 : pynum := PyFloat Py.f0_2.
Definition p0_4 : pynum := PyFloat Py.f0_4.
Definition p0_6 : pynum := PyFloat Py.f0_6.
Definition p0_8 : pynum := PyFloat Py.f0_8.
Definition p1_0 : pynum := PyFloat Py.f1_0.

Definition policy_list : list (list triple) :=
  [ [("Posterize", p0_4, PyInt 8); ("Rotate", p0_6, PyInt 9)];
    [("Solarize", p0_6, PyInt 5); ("AutoContrast", p0_6, PyInt 5)];
    [("Equalize", p0_8, PyInt 8); ("Equalize", p0_6, PyInt 3)];
    [("Posterize", p0_6, PyInt 7); ("Posterize", p0_6, PyInt 6)];
    [("Equalize", p0_4, PyInt 7); ("Solarize", p0_2, PyInt 4)];
    [("Equalize", p0_4, PyInt 4); ("Rotate", p0_8, PyInt 8)];
    [("Solarize", p0_6, PyInt 3); ("Equalize", p0_6, PyInt 7)];
    [("Posterize", p0_8, PyInt 5); ("Equalize", p1_0, PyInt 2)];
    [("Rotate", p0_2, PyInt 3); ("Solarize", p0_6, PyInt 8)];
    [("Equalize", p0_6, PyInt 8); ("Posterize", p0_4, PyInt 6)];
    [("Rotate", p0_8, PyInt 8); ("Color", p0_4, PyInt 0)];
    [("Rotate", p0_4, PyInt 9); ("Equalize", p0_6, PyInt 2)];
    [("Equalize", p0_0, PyInt 7); ("Equalize", p0_8, PyInt 8)];
    [("Invert", p0_6, PyInt 4); ("Equalize", p1_0, PyInt 8)];
    [("Color", p0_6, PyInt 4); ("Contrast", p1_0, PyInt 8)];
    [("Rotate", p0_8, PyInt 8); ("Color", p1_0, PyInt 0)];
    [("Color", p0_8, PyInt 8); ("Solarize", p0_8, PyInt 7)];
    [("Sharpness", p0_4, PyInt 7); ("Invert", p0_6, PyInt 8)];
    [("ShearX", p0_6, PyInt 5); ("Equalize", p1_0, PyInt 9)];
    [("Color", p0_4, PyInt 0); ("Equalize", p0_6, PyInt 3)];
    [("Equalize", p0_4, PyInt 7); ("Solarize", p0_2, PyInt 4)];
    [("Solarize", p0_6, PyInt 5); ("AutoContrast", p0_6, PyInt 5)];
    [("Invert", p0_6, PyInt 4); ("Equalize", p1_0, PyInt 8)];
    [("Color", p0_6, PyInt 4); ("Contrast", p1_0, PyInt 8)];
    [("Equalize", p0_8, PyInt 8); ("Equalize", p0_6, PyInt 3)] ]%string.

(** One iteration of the inner loop: resolve the triple [pol] and append
    the instance to [sub_pol]. *)
Definition build_step (pol : triple) (sub_pol : list value) : M (list value) :=
  let '(augment, prob, magnitude) := pol in
  match autoaugment_map !! augment with
  | None => raise (KeyError augment)
  | Some (augment_fn, reparam_fn) =>
      match reparam_fn with
      | Some reparam =>
          let* magnitude := lift (reparam magnitude) in
          let* inst := construct augment_fn (Some (VNum magnitude)) prob in
          ret (sub_pol ++ [inst])
      | None =>
          let* inst := construct augment_fn None prob in
          ret (sub_pol ++ [inst])
      end
  end.

(** The two loops of [autoaugment_policy], over any literal table. *)
Definition build_policy (table : list (list triple)) : M value :=
  let* reparam_policy :=
    for_each table [] (λ policy reparam_policy,
      let* sub_pol := for_each policy [] build_step in
      ret (reparam_policy ++ [VList sub_pol])) in
  ret (VList reparam_policy).

Definition autoaugment_policy : M value := build_policy policy_list.

(** * Vocabulary of the properties *)

(** ** Effects *)

(** [reads m]: whatever [m] returns or raises, the store is as before. *)
Definition reads {A} (m : M A) : Prop := ∀ w, heap (m w).2 = heap w.

(** [silent m]: whatever [m] returns or raises, store and generator are as
    before. *)
Definition silent {A} (m : M A) : Prop := ∀ w, (m w).2 = w.

(** [supported m]: [m] never stops at an operation outside the embedding. *)
Definition supported {A} (m : M A) : Prop :=
  ∀ w operation w', m w ≠ (Err (Unsupported operation), w').

(** The world after [n] draws. *)
Fixpoint advance_n (n : nat) (w : world) : world :=
  match n with
  | O => w
  | S n' => advance (advance_n n' w)
  end.

(** ** The executor *)

(** [self] is an instance whose [policy] attribute is the list [subs]. *)
Definition has_policy (w : world) (self : value) (subs : list value) : Prop :=
  ∃ l o, self = VRef l ∧ heap w !! l = Some o ∧ dict o !! "policy" = Some (VList subs).

(** The five classes that derive from [AutoAugmentAffine]. *)
Definition affine (c : pyclass) : bool :=
  match c with
  | ShearX | ShearY | TranslateX | TranslateY | Rotate => true
  | _ => false
  end.

(** The draws a successful [sample] of [pol] takes: one for the sign, when
    [pol] is affine and its mirror flag is set. *)
Definition mirror_draws (h : list instance) (pol : value) : nat :=
  match pol with
  | VRef l =>
      match h !! l with
      | Some o =>
          if affine (cls o) then
            match dict o !! "mirror" with
            | Some m => if truthy m then 1%nat else 0%nat
            | None => 0%nat
            end
          else 0%nat
      | None => 0%nat
      end
  | _ => 0%nat
  end.

(** The draws of a completed run over [steps]: for each step its sign
    draw, if it has one, and one gate draw. *)
Definition step_draws (h : list instance) (steps : list value) : nat :=
  sum_list ((λ pol, mirror_draws h pol + 1)%nat <$> steps).

(** ** Construction *)

(** The probabilities the base constructor accepts. *)
Definition valid_prob (p : pynum) : bool :=
  Py.leb (PyInt 0) p && Py.leb p (PyInt 1).

(** The field in which a class stores its magnitude, if it takes one. *)
Definition field_of (c : pyclass) : option string :=
  match c with
  | ShearX => Some "shear_x"
  | ShearY => Some "shear_y"
  | TranslateX => Some "translate_x"
  | TranslateY => Some "translate_y"
  | Rotate => Some "rotate"
  | Posterize => Some "bits"
  | Solarize => Some "threshold"
  | Saturation => Some "saturation"
  | Contrast => Some "contrast"
  | Brightness => Some "brightness"
  | Sharpness => Some "sharpness"
  | Invert | AutoContrast | Equalize | AutoAugment => None
  end%string.

(** The data model's invariant on a stored transform: the magnitude of an
    affine transform, the one value that [_mirror] multiplies by -1, is a
    number. *)
Definition number_magnitude (o : instance) : bool :=
  if affine (cls o) then
    match field_of (cls o) with
    | Some field =>
        match dict o !! field with
        | Some (VNum _) => true
        | _ => false
        end
    | None => true
    end
  else true.

(** Every transform of the store keeps it. *)
Definition number_magnitudes (w : world) : Prop :=
  Forall (λ o, number_magnitude o = true) (heap w).

(** A call [c(magnitude, p=...)] or [c(p=...)] that matches the signature
    of the transform class [c]. *)
Definition well_called (c : pyclass) (magnitude : option value) : bool :=
  match c with
  | AutoAugment => false
  | _ => bool_decide (is_Some (field_of c) ↔ is_Some magnitude)
  end.

(** The instance a successful construction leaves in the store. *)
Definition instance_of (c : pyclass) (magnitude : option value) (p : pynum) : instance :=
  let base : params := {["p" := VNum p]} in
  let base : params :=
    if affine c
    then <["resample" := VFilter default_resample]> (<["mirror" := VBool default_mirror]> base)
    else base in
  {| cls := c;
     dict := match field_of c, magnitude with
             | Some field, Some v => <[field := v]> base
             | _, _ => base
             end |}.

(** ** The builder *)

(** The magnitude argument a registry entry makes the builder pass. *)
Definition argument (r : option rule) (v : value) : option value :=
  match r with Some _ => Some v | None => None end.

(** The instance a triple stands for: its registered class, its
    probability, and its level put through the class's rule, if there is
    one. [None] when the name is not registered, the rule raises or the
    probability is not admissible. *)
Definition resolved (t : triple) : option instance :=
  let '(name, prob, level) := t in
  match autoaugment_map !! name with
  | Some (c, Some reparam) =>
      match reparam level with
      | Ok m => if valid_prob prob then Some (instance_of c (Some (VNum m)) prob) else None
      | Err _ => None
      end
  | Some (c, None) => if valid_prob prob then Some (instance_of c None prob) else None
  | None => None
  end.

(** References to [k] instances allocated in a row from address [n]. *)
Definition refs (n k : nat) : list value := VRef <$> seq n k.

(** The table of references the builder returns when it starts allocating
    at address [n]. *)
Fixpoint ref_rows (n : nat) (table : list (list triple)) : list value :=
  match table with
  | [] => []
  | row :: rest => VList (refs n (length row)) :: ref_rows (n + length row) rest
  end.

(** The body of the outer loop of the builder. *)
Definition build_row (policy : list triple) (reparam_policy : list value) : M (list value) :=
  let* sub_pol := for_each policy [] build_step in
  ret (reparam_policy ++ [VList sub_pol]).

(** An instance built from a triple as the builder is meant to: the class
    registered under the triple's name, the triple's probability, and the
    level after the class's rule, or no magnitude for a class without rule. *)
Definition built_from (t : triple) (o : instance) : Prop :=
  let '(name, prob, level) := t in
  ∃ c r, autoaugment_map !! name = Some (c, r)
         ∧ match r with
           | Some reparam =>
               ∃ m, reparam level = Ok m ∧ o = instance_of c (Some (VNum m)) prob
           | None => o = instance_of c None prob
           end.

(** The operation name of a triple. *)
Definition name_of (t : triple) : string := t.1.1.

(** The triple names an operation of the registry. *)
Definition registered (t : triple) : Prop := is_Some (autoaugment_map !! name_of t).

(** The data model's invariants on a triple: a probability in [[0, 1]] and
    an integer level in the range [[0, 10]] of the rescaling functions. *)
Definition valid_level (level : pynum) : bool :=
  match level with
  | PyInt z => (0 <=? z) && (z <=? 10)
  | PyFloat _ => false
  end.

Definition well_formed (t : triple) : bool :=
  valid_prob t.1.2 && valid_level t.2.

(** ** The registry *)

(** The registry maps [name] to the class [c] and to a rule that computes
    what [g] computes. *)
Definition has_rule (name : string) (c : pyclass) (g : rule) : Prop :=
  ∃ f, autoaugment_map !! name = Some (c, Some f) ∧ ∀ level, f level = g level.

(** The registry maps [name] to the class [c] and to no rule. *)
Definition no_rule (name : string) (c : pyclass) : Prop :=
  autoaugment_map !! name = Some (c, None).

(** The operation names of the registry. *)
Definition registered_names : list string :=
  ["ShearX"; "ShearY"; "TranslateX"; "TranslateY"; "Rotate"; "Solarize";
   "Posterize"; "Contrast"; "Color"; "Brightness"; "Sharpness"; "Invert";
   "AutoContrast"; "Equalize"]%string.

(** ** Rescaling *)

(** The Python expression [L * M / 10]. *)
Definition product_over_ten (L M : pynum) : res pynum :=
  t ← Py.mul L M; Py.truediv t (PyInt 10).

(** A float that is not below zero: no negative finite number and not
    minus infinity (either zero and NaN count). *)
Definition not_negative (f : Py.float) : bool :=
  match f with
  | S754_finite true _ _ | S754_infinity true => false
  | _ => true
  end.

(** The double of a non-zero integer below [2^53] in magnitude: its sign,
    its magnitude shifted up to 53 digits, and the matching exponent. *)
Definition normal_of (z : Z) (f : Py.float) : Prop :=
  ∃ M, f = S754_finite (z <? 0) M (Zdigits2 z - 53)
       ∧ Z.pos (digits2_pos M) = 53
       ∧ Z.pos M = Z.abs z * 2 ^ (53 - Zdigits2 z).

(** The double 10.0. *)
Definition ten : Py.float := S754_finite false 5629499534213120 (-49).

(** ** Numbers *)

(** A divisor that is zero: the integer 0 or a float zero of either sign. *)
Definition zero_divisor (x : pynum) : bool :=
  match x with
  | PyInt z => z =? 0
  | PyFloat f => Py.is_zero f
  end.

(** The number with the opposite sign: [-z] for an integer, the sign bit
    flipped for a float. *)
Definition opposite (n : pynum) : pynum :=
  match n with
  | PyInt z => PyInt (- z)
  | PyFloat f => PyFloat (SFopp f)
  end.

(** A number as Python holds it: any integer, or a float that is a double
    (a canonical mantissa and an exponent in range). *)
Definition is_double (n : pynum) : bool :=
  match n with
  | PyInt _ => true
  | PyFloat f => valid_binary Py.prec Py.emax f
  end.

(** [g] is the double that follows the positive double [f]: the same
    exponent and the mantissa one higher, both mantissas of 53 digits, so
    that no double lies between them. *)
Definition follows (f g : Py.float) : Prop :=
  ∃ m e, f = S754_finite false m e
         ∧ g = S754_finite false (m + 1) e
         ∧ Z.pos (digits2_pos m) = 53
         ∧ Z.pos (digits2_pos (m + 1)) = 53.

(** ** Steps *)

Definition one : value := VNum (PyInt 1).

(** The PIL call a class makes for the sampled value [v]: the six
    coefficients of the affine map, the angle, or the argument of the pixel
    operation; the affine classes pass the instance's [resample] along. *)
Definition pil_call_of (c : pyclass) (v resample : value) : option pil_call :=
  match c with
  | ShearX => Some (Image_transform_affine (one, v, zero, zero, one, zero) resample)
  | ShearY => Some (Image_transform_affine (one, zero, zero, v, one, zero) resample)
  | TranslateX => Some (Image_transform_affine (one, zero, v, zero, one, zero) resample)
  | TranslateY => Some (Image_transform_affine (one, zero, zero, zero, one, v) resample)
  | Rotate => Some (Image_rotate v resample)
  | Posterize => Some (ImageOps_posterize v)
  | Solarize => Some (ImageOps_solarize v)
  | Saturation => Some (ImageEnhance_Color v)
  | Contrast => Some (ImageEnhance_Contrast v)
  | Brightness => Some (ImageEnhance_Brightness v)
  | Sharpness => Some (ImageEnhance_Sharpness v)
  | Invert => Some Transforms_invert
  | AutoContrast => Some Transforms_autocontrast
  | Equalize => Some Transforms_equalize
  | AutoAugment => None
  end.

(** The parameter record of a class for the value [v]: one entry under
    the name of the class's own field, or no entry for a class without
    magnitude. *)
Definition record_of (c : pyclass) (v : value) : params :=
  match field_of c with
  | Some field => {[field := v]}
  | None => ∅
  end.

Definition is_number (v : option value) : bool :=
  match v with Some (VNum _) => true | _ => false end.

Definition is_flag (v : option value) : bool :=
  match v with Some (VBool _) => true | _ => false end.

(** An instance that a step can run: a transform other than TranslateY
    whose probability and magnitude are numbers and, for an affine class,
    whose mirror flag is a boolean and whose resample filter is set. *)
Definition runnable (o : instance) : bool :=
  match cls o with TranslateY | AutoAugment => false | _ => true end
  && is_number (dict o !! "p")
  && match field_of (cls o) with
     | Some field => is_number (dict o !! field)
     | None => true
     end
  && (if affine (cls o)
      then is_flag (dict o !! "mirror") && bool_decide (is_Some (dict o !! "resample"))
      else true).

(** A triple the builder turns into a runnable step: well formed, with a
    registered name other than TranslateY. *)
Definition runnable_triple (t : triple) : Prop :=
  well_formed t = true ∧ registered t ∧ name_of t ≠ "TranslateY"%string.

(** A result, or an exception that a PIL operation raised. *)
Definition pil_outcome {image A : Type} (pil : pil_call → image → res image)
    (r : res A) : Prop :=
  match r with
  | Ok _ => True
  | Err e => ∃ call img, pil call img = Err e
  end.

(** The AutoAugment object that [AutoAugment(policy)] leaves in the store. *)
Definition AutoAugment_object (policy : value) : instance :=
  {| cls := AutoAugment; dict := {["policy" := policy]} |}.

(** The steps of a policy table read row by row. *)
Definition steps_of (subs : list value) : list value :=
  concat ((λ sub, match sub with VList steps => steps | _ => [] end) <$> subs).

(** ** Allocation *)

(** [allocates k m]: whatever [m] returns or raises, it takes no draw and
    leaves the instances of the store as they are, appending at most [k]
    new ones, and exactly [k] when it returns. *)
Definition allocates {A} (k : nat) (m : M A) : Prop :=
  ∀ w, rng (m w).2 = rng w
       ∧ ∃ ext, heap (m w).2 = heap w ++ ext
                ∧ (length ext ≤ k)%nat
                ∧ (is_ok (m w).1 = true → length ext = k).

(** ** Concrete inputs *)

(** An empty store and a generator whose [n]-th draw is [7n + 3]. *)
Definition world0 : world :=
  {| heap := []; rng := {| draws := λ n, (7 * N.of_nat n + 3)%N; cursor := 0 |} |}.

(** The world after [TranslateY(3, p=1.0)]. *)
Definition world_translate_y : world :=
  (construct TranslateY (Some (VNum (PyInt 3))) p1_0 world0).2.

(** The probability 1.5. *)
Definition p1_5 : pynum := PyFloat (Py.decimal 15 10).

(** A literal table whose fourth triple names an operation the registry
    does not have. *)
Definition bogus_table : list (list triple) :=
  [ [("Posterize", p0_4, PyInt 8); ("Rotate", p0_6, PyInt 9)];
    [("Solarize", p0_6, PyInt 5); ("Cutout", p0_6, PyInt 5)];
    [("Equalize", p0_8, PyInt 8); ("Equalize", p0_6, PyInt 3)] ]%string.

(** A symbolic image: the PIL calls applied so far, none of which fails. *)
Definition sym_image : Type := list pil_call.
Definition sym_pil (c : pil_call) (img : sym_image) : res sym_image := Ok (img ++ [c]).

(** The world after [AutoAugment(autoaugment_policy())]: the fifty
    transforms at addresses 0 to 49 and the AutoAugment object at 50. *)
Definition world_auto : world := (bind autoaugment_policy AutoAugment_new world0).2.

(** The world after [AutoAugment([])]. *)
Definition world_empty : world := (AutoAugment_new (VList []) world0).2.

(** A table with an empty row and a row that names TranslateY. *)
Definition translate_table : list (list triple) :=
  [ []; [("TranslateY"%string, p1_0, PyInt 3)] ].

(** The world after [AutoAugment] on the policy built from it: the
    TranslateY instance at address 0, the AutoAugment object at 1. *)
Definition world_translate_policy : world :=
  (bind (build_policy translate_table) AutoAugment_new world0).2.

(** The world after [ShearX(0.3, p=1.0)]. *)
Definition world_shear_x : world :=
  (construct ShearX (Some (VNum (PyFloat Py.f0_3))) p1_0 world0).2.

(** The instance that [TranslateY(3, p=1.0)] leaves in the store. *)
Definition translate_y_3 : instance :=
  instance_of TranslateY (Some (VNum (PyInt 3))) p1_0.

(** * Properties *)

(** ** Running a computation *)

Lemma bind_ok {A B} (m : M A) (f : A → M B) w a w1 :
  m w = (Ok a, w1) → bind m f w = f a w1.
Proof. intros E. unfold bind. now rewrite E. Qed.

Lemma bind_err {A B} (m : M A) (f : A → M B) w e w1 :
  m w = (Err e, w1) → bind m f w = (Err e, w1).
Proof. intros E. unfold bind. now rewrite E. Qed.

Lemma bind_inv_ok {A B} (m : M A) (f : A → M B) w b w2 :
  bind m f w = (Ok b, w2) → ∃ a w1, m w = (Ok a, w1) ∧ f a w1 = (Ok b, w2).
Proof.
  unfold bind. destruct (m w) as [[a|e] w1]; intros E; [eauto | discriminate].
Qed.

(** ** Computations that only read the store *)

Lemma reads_ret {A} (a : A) : reads (ret a).
Proof. now intros w. Qed.

Lemma reads_raise {A} e : reads (@raise A e).
Proof. now intros w. Qed.

Lemma reads_lift {A} (r : res A) : reads (lift r).
Proof. now intros w. Qed.

Lemma reads_bind {A B} (m : M A) (f : A → M B) :
  reads m → (∀ a, reads (f a)) → reads (bind m f).
Proof.
  intros Hm Hf w. unfold bind. specialize (Hm w).
  destruct (m w) as [[a|e] w1]; simpl in *; [| exact Hm].
  now rewrite Hf.
Qed.

Lemma reads_for_each {A S} (xs : list A) (body : A → S → M S) :
  (∀ x s, reads (body x s)) → ∀ s, reads (for_each xs s body).
Proof.
  intros Hb. induction xs as [|x xs IH]; intros s; simpl.
  - apply reads_ret.
  - apply reads_bind; [apply Hb | exact IH].
Qed.

Lemma reads_getattr self name : reads (getattr self name).
Proof.
  intros w. unfold getattr. destruct self; try reflexivity.
  destruct (heap w !! l) as [o|]; [| reflexivity].
  now destruct (dict o !! name).
Qed.

Lemma reads_class_of self : reads (class_of self).
Proof.
  intros w. unfold class_of. destruct self; try reflexivity.
  now destruct (heap w !! l).
Qed.

Lemma reads_as_num v : reads (as_num v).
Proof. destruct v; simpl; first [apply reads_ret | apply reads_raise]. Qed.

Lemma reads_random_random : reads random_random.
Proof. now intros w. Qed.

Lemma reads_random_choice seq : reads (random_choice seq).
Proof.
  intros w. destruct seq; try reflexivity. simpl.
  destruct items as [|v items]; [reflexivity |].
  now destruct (_ !! _).
Qed.

Lemma reads_iterate v : reads (iterate v).
Proof. destruct v; simpl; first [apply reads_ret | apply reads_raise]. Qed.

Lemma reads_keyword1 name kw : reads (keyword1 name kw).
Proof.
  unfold keyword1. destruct (kw !! name); [| apply reads_raise].
  destruct (Nat.eqb _ _); [apply reads_ret | apply reads_raise].
Qed.

Lemma reads_keyword0 kw : reads (keyword0 kw).
Proof.
  unfold keyword0. destruct (Nat.eqb _ _); [apply reads_ret | apply reads_raise].
Qed.

Lemma reads_load_name locals name : reads (load_name locals name).
Proof.
  unfold load_name. destruct (locals !! name); [apply reads_ret |].
  destruct (bool_decide _); [apply reads_ret | apply reads_raise].
Qed.

Create HintDb reads discriminated.
#[global] Hint Resolve reads_ret reads_raise reads_lift reads_getattr
  reads_class_of reads_as_num reads_random_random reads_random_choice
  reads_iterate reads_keyword1 reads_keyword0 reads_load_name : reads.

(** Break a computation down along its binds and case distinctions. *)
Ltac reads_step :=
  match goal with
  | |- reads (bind _ _) => apply reads_bind; [| intros ?]
  | |- reads (for_each _ _ _) => apply reads_for_each; intros ? ?
  | |- reads (if ?b then _ else _) => destruct b
  | |- reads (match ?x with _ => _ end) => destruct x
  | |- reads _ => solve [auto with reads]
  end.
Ltac reads_tac := repeat reads_step.

Lemma reads_check_prob p : reads (check_prob p).
Proof. unfold check_prob. reads_tac. Qed.
#[global] Hint Resolve reads_check_prob : reads.

Lemma reads_negate v : reads (negate v).
Proof. unfold negate. destruct v; reads_tac. Qed.
#[global] Hint Resolve reads_negate : reads.

Lemma reads_mirror self val : reads (AutoAugmentAffine_mirror self val).
Proof. unfold AutoAugmentAffine_mirror. reads_tac. Qed.
#[global] Hint Resolve reads_mirror : reads.

Lemma reads_affine_sample field bound key loaded self :
  reads (affine_sample field bound key loaded self).
Proof. unfold affine_sample. reads_tac. Qed.

Lemma reads_plain_sample field self : reads (plain_sample field self).
Proof. unfold plain_sample. reads_tac. Qed.
#[global] Hint Resolve reads_affine_sample reads_plain_sample : reads.

Lemma reads_sample pol : reads (sample pol).
Proof.
  unfold sample. apply reads_bind; [auto with reads |].
  intros []; first [apply reads_affine_sample | apply reads_plain_sample
                   | apply reads_ret | apply reads_raise].
Qed.
#[global] Hint Resolve reads_sample : reads.

(** ** Selection *)

Lemma choice_index_lt n w : (0 < n)%nat → (choice_index n w < n)%nat.
Proof.
  intros Hn. unfold choice_index.
  assert (next_draw w mod N.of_nat n < N.of_nat n)%N by (apply N.mod_lt; lia).
  lia.
Qed.

(** Every index of a non-empty table is selected by some draw, and by the
    same number of draws out of any [n] consecutive values. *)
Lemma choice_index_onto n k h c :
  (k < n)%nat → ∃ g, choice_index n {| heap := h; rng := {| draws := g; cursor := c |} |} = k.
Proof.
  intros Hk. exists (λ _, N.of_nat k). unfold choice_index, next_draw. simpl.
  rewrite N.mod_small by lia. lia.
Qed.

Lemma random_choice_ok items w :
  items ≠ [] →
  ∃ v, items !! choice_index (length items) w = Some v
       ∧ random_choice (VList items) w = (Ok v, advance w).
Proof.
  intros Hne. destruct items as [|x xs]; [done |].
  destruct (lookup_lt_is_Some_2 (x :: xs) (choice_index (length (x :: xs)) w)) as [v Hv].
  { apply choice_index_lt. simpl. lia. }
  exists v. split; [exact Hv |]. simpl in *. now rewrite Hv.
Qed.

(** The index that [random.choice] takes is the next draw reduced modulo
    the length of the sequence. *)
Lemma random_choice_draw items w :
  items ≠ [] →
  ∃ sel, items !! N.to_nat (next_draw w mod N.of_nat (length items)) = Some sel
         ∧ random_choice (VList items) w = (Ok sel, advance w).
Proof. intros Hne. exact (random_choice_ok items w Hne). Qed.

(** Of [n] consecutive draw values, from [q * n] on, the one that selects
    the index [j] is [q * n + j], and no other. *)
Lemma draw_share (n j : nat) (q d : N) :
  (j < n)%nat →
  (q * N.of_nat n ≤ d < q * N.of_nat n + N.of_nat n)%N →
  N.to_nat (d mod N.of_nat n) = j ↔ d = (q * N.of_nat n + N.of_nat j)%N.
Proof.
  intros Hj Hd. set (m := N.of_nat n) in *.
  assert (Hm : (0 < m)%N) by (subst m; lia).
  assert (Hq : (d / m = q)%N).
  { symmetry. apply (N.div_unique d m q (d - q * m)); lia. }
  pose proof (N.div_mod d m ltac:(lia)) as Hdm. rewrite Hq in Hdm.
  split.
  - intros E. lia.
  - intros ->. lia.
Qed.

Lemma has_policy_getattr w self subs :
  has_policy w self subs ↔ getattr self "policy" w = (Ok (VList subs), w).
Proof.
  split.
  - intros (l & o & -> & Ho & Hp). unfold getattr. now rewrite Ho, Hp.
  - unfold getattr. destruct self; try discriminate.
    destruct (heap w !! l) as [o|] eqn:Ho; [| discriminate].
    destruct (dict o !! "policy") as [v|] eqn:Hp; [| discriminate].
    intros [= ->]. now exists l, o.
Qed.

(** ** Computations that leave the whole world as it is *)

Lemma silent_ret {A} (a : A) : silent (ret a).
Proof. now intros w. Qed.

Lemma silent_raise {A} e : silent (@raise A e).
Proof. now intros w. Qed.

Lemma silent_lift {A} (r : res A) : silent (lift r).
Proof. now intros w. Qed.

Lemma silent_bind {A B} (m : M A) (f : A → M B) :
  silent m → (∀ a, silent (f a)) → silent (bind m f).
Proof.
  intros Hm Hf w. unfold bind. specialize (Hm w).
  destruct (m w) as [[a|e] w1]; simpl in *; subst; [apply Hf | reflexivity].
Qed.

Lemma silent_getattr self name : silent (getattr self name).
Proof.
  intros w. unfold getattr. destruct self; try reflexivity.
  destruct (heap w !! l) as [o|]; [| reflexivity].
  now destruct (dict o !! name).
Qed.

Lemma silent_class_of self : silent (class_of self).
Proof.
  intros w. unfold class_of. destruct self; try reflexivity.
  now destruct (heap w !! l).
Qed.

Lemma silent_as_num v : silent (as_num v).
Proof. destruct v; simpl; first [apply silent_ret | apply silent_raise]. Qed.

Lemma silent_keyword1 name kw : silent (keyword1 name kw).
Proof.
  unfold keyword1. destruct (kw !! name); [| apply silent_raise].
  destruct (Nat.eqb _ _); [apply silent_ret | apply silent_raise].
Qed.

Lemma silent_keyword0 kw : silent (keyword0 kw).
Proof.
  unfold keyword0. destruct (Nat.eqb _ _); [apply silent_ret | apply silent_raise].
Qed.

Lemma silent_load_name locals name : silent (load_name locals name).
Proof.
  unfold load_name. destruct (locals !! name); [apply silent_ret |].
  destruct (bool_decide _); [apply silent_ret | apply silent_raise].
Qed.

Create HintDb silent discriminated.
#[global] Hint Resolve silent_ret silent_raise silent_lift silent_getattr
  silent_class_of silent_as_num silent_keyword1 silent_keyword0
  silent_load_name : silent.

Ltac silent_step :=
  match goal with
  | |- silent (bind _ _) => apply silent_bind; [| intros ?]
  | |- silent (if ?b then _ else _) => destruct b
  | |- silent (match ?x with _ => _ end) => destruct x
  | |- silent _ => solve [auto with silent]
  end.
Ltac silent_tac := repeat silent_step.

Lemma silent_negate v : silent (negate v).
Proof. unfold negate. destruct v; silent_tac. Qed.
#[global] Hint Resolve silent_negate : silent.

Lemma silent_plain_sample field self : silent (plain_sample field self).
Proof. unfold plain_sample. silent_tac. Qed.
#[global] Hint Resolve silent_plain_sample : silent.

Lemma silent_inv {A} (m : M A) w r w' : silent m → m w = (r, w') → w' = w.
Proof. intros Hm E. specialize (Hm w). now rewrite E in Hm. Qed.

(** ** Counting draws *)

Lemma heap_advance_n n w : heap (advance_n n w) = heap w.
Proof. induction n; simpl; auto. Qed.

Lemma cursor_advance_n n w :
  cursor (rng (advance_n n w)) = (n + cursor (rng w))%nat.
Proof. induction n; simpl; auto. Qed.

Lemma advance_n_add n m w : advance_n n (advance_n m w) = advance_n (n + m) w.
Proof. induction n; simpl; congruence. Qed.

Lemma check_prob_draws p w : (check_prob p w).2 = advance w.
Proof. reflexivity. Qed.

Lemma getattr_inv self name w v w' :
  getattr self name w = (Ok v, w') →
  w' = w ∧ ∃ l o, self = VRef l ∧ heap w !! l = Some o ∧ dict o !! name = Some v.
Proof.
  unfold getattr. destruct self; try discriminate.
  destruct (heap w !! l) as [o|] eqn:Ho; [| discriminate].
  destruct (dict o !! name) as [x|] eqn:Hx; [| discriminate].
  intros [= -> ->]. split; [reflexivity |]. now exists l, o.
Qed.

Lemma class_of_inv self w c w' :
  class_of self w = (Ok c, w') →
  w' = w ∧ ∃ l o, self = VRef l ∧ heap w !! l = Some o ∧ cls o = c.
Proof.
  unfold class_of. destruct self; try discriminate.
  destruct (heap w !! l) as [o|] eqn:Ho; [| discriminate].
  intros [= <- <-]. split; [reflexivity |]. now exists l, o.
Qed.

Lemma mirror_ok_draws self val w r w' :
  AutoAugmentAffine_mirror self val w = (Ok r, w') →
  ∃ m, getattr self "mirror" w = (Ok m, w)
       ∧ w' = advance_n (if truthy m then 1 else 0) w.
Proof.
  unfold AutoAugmentAffine_mirror. intros E.
  apply bind_inv_ok in E as (m & w1 & Em & E).
  destruct (getattr_inv _ _ _ _ _ Em) as [-> _].
  exists m. split; [exact Em |].
  destruct (truthy m).
  - apply bind_inv_ok in E as (heads & w2 & Eh & E).
    pose proof (check_prob_draws (PyFloat Py.f0_5) w) as Hd. rewrite Eh in Hd.
    simpl in Hd. subst w2.
    assert (silent (if heads then negate val else ret val)) as Hs by (destruct heads; auto with silent).
    now rewrite (silent_inv _ _ _ _ Hs E).
  - now injection E as _ <-.
Qed.

Lemma affine_sample_ok_draws field bound key loaded self w kw w' :
  affine_sample field bound key loaded self w = (Ok kw, w') →
  ∃ m, getattr self "mirror" w = (Ok m, w)
       ∧ w' = advance_n (if truthy m then 1 else 0) w.
Proof.
  unfold affine_sample. intros E.
  apply bind_inv_ok in E as (v & w1 & Ev & E).
  destruct (getattr_inv _ _ _ _ _ Ev) as [-> _].
  apply bind_inv_ok in E as (r & w2 & Er & E).
  apply mirror_ok_draws in Er as (m & Em & ->).
  exists m. split; [exact Em |].
  apply bind_inv_ok in E as (out & w3 & Eo & E).
  rewrite (silent_inv _ _ _ _ (silent_load_name _ _) Eo) in E.
  now injection E as _ <-.
Qed.

Lemma sample_ok_draws pol w kw w' :
  sample pol w = (Ok kw, w') → w' = advance_n (mirror_draws (heap w) pol) w.
Proof.
  unfold sample. intros E.
  apply bind_inv_ok in E as (c & w1 & Ec & E).
  destruct (class_of_inv _ _ _ _ Ec) as (-> & l & o & -> & Ho & Hc).
  unfold mirror_draws. rewrite Ho, Hc.
  destruct c; simpl; try discriminate.
  all: try (apply affine_sample_ok_draws in E as (m & Em & ->);
            apply getattr_inv in Em as (_ & l' & o' & [= <-] & Ho' & Hm);
            rewrite Ho in Ho'; injection Ho' as <-; now rewrite Hm).
  all: try (now apply (silent_inv _ _ _ _ (silent_plain_sample _ _)) in E).
  all: now injection E as _ <-.
Qed.

(** ** Runs that stay inside the embedding *)

Lemma supported_ret {A} (a : A) : supported (ret a).
Proof. intros w operation w'. discriminate. Qed.

Lemma supported_bind {A B} (m : M A) (f : A → M B) :
  supported m → (∀ a, supported (f a)) → supported (bind m f).
Proof.
  intros Hm Hf w operation w'. unfold bind.
  destruct (m w) as [[a|e] w1] eqn:E.
  - apply Hf.
  - intros [= -> ->]. exact (Hm _ _ _ E).
Qed.

Lemma supported_getattr self name : supported (getattr self name).
Proof.
  intros w operation w'. unfold getattr.
  destruct self; try discriminate.
  destruct (heap w !! l) as [o|]; [| discriminate].
  destruct (dict o !! name); discriminate.
Qed.

Lemma supported_class_of self : supported (class_of self).
Proof.
  intros w operation w'. unfold class_of.
  destruct self; try discriminate.
  destruct (heap w !! l); discriminate.
Qed.

Lemma supported_load_name locals name : supported (load_name locals name).
Proof.
  intros w operation w'. unfold load_name.
  destruct (locals !! name); [discriminate |].
  destruct (bool_decide _); discriminate.
Qed.

Lemma supported_check_prob p : supported (check_prob p).
Proof. intros w operation w'. discriminate. Qed.

(** The product of a number with -1 is always defined. *)
Lemma supported_negate_number n : supported (negate (VNum n)).
Proof.
  intros w operation w'. unfold negate, bind, as_num, ret, lift.
  destruct n as [z|f]; discriminate.
Qed.

Lemma supported_mirror_number self n :
  supported (AutoAugmentAffine_mirror self (VNum n)).
Proof.
  unfold AutoAugmentAffine_mirror.
  apply supported_bind; [apply supported_getattr |]. intros m.
  destruct (truthy m); [| apply supported_ret].
  apply supported_bind; [apply supported_check_prob |]. intros heads.
  destruct heads; [apply supported_negate_number | apply supported_ret].
Qed.

Lemma supported_plain_sample field self : supported (plain_sample field self).
Proof.
  unfold plain_sample. apply supported_bind; [apply supported_getattr |].
  intros v. apply supported_ret.
Qed.

Lemma affine_sample_supported field bound key loaded l o w :
  heap w !! l = Some o →
  (∀ v, dict o !! field = Some v → ∃ n, v = VNum n) →
  ∀ operation w', affine_sample field bound key loaded (VRef l) w
                  ≠ (Err (Unsupported operation), w').
Proof.
  intros Ho Hnum operation w'. unfold affine_sample. unfold bind at 1.
  destruct (getattr (VRef l) field w) as [[v|e] w1] eqn:Eg.
  - apply getattr_inv in Eg as (-> & l' & o' & [= <-] & Ho' & Hv).
    rewrite Ho in Ho'. injection Ho' as <-.
    destruct (Hnum v Hv) as [n ->].
    apply (supported_bind (AutoAugmentAffine_mirror (VRef l) (VNum n)));
      [apply supported_mirror_number |].
    intros r. apply supported_bind; [apply supported_load_name |].
    intros out. apply supported_ret.
  - intros [= -> ->]. exact (supported_getattr _ _ _ _ _ Eg).
Qed.

Lemma number_magnitude_inv o field :
  number_magnitude o = true → affine (cls o) = true → field_of (cls o) = Some field →
  ∀ v, dict o !! field = Some v → ∃ n, v = VNum n.
Proof.
  unfold number_magnitude. intros H Ha Hf v Hv. rewrite Ha, Hf, Hv in H.
  destruct v; try discriminate. eauto.
Qed.

(** With number magnitudes no [sample] leaves the embedding. *)
Lemma sample_supported pol w :
  number_magnitudes w →
  ∀ operation w', sample pol w ≠ (Err (Unsupported operation), w').
Proof.
  intros Hnum operation w'. unfold sample. unfold bind at 1.
  destruct (class_of pol w) as [[c|e] w1] eqn:Ec.
  - apply class_of_inv in Ec as (-> & l & o & -> & Ho & <-).
    assert (Hn : number_magnitude o = true).
    { unfold number_magnitudes in Hnum. rewrite Forall_forall in Hnum.
      apply Hnum. eapply list_elem_of_lookup_2; eauto. }
    pose proof (number_magnitude_inv o) as Hinv.
    destruct (cls o) eqn:Hc;
      first [ apply (affine_sample_supported _ _ _ _ l o w Ho);
              apply (Hinv _ Hn eq_refl eq_refl)
            | apply supported_plain_sample
            | apply supported_ret
            | discriminate ].
  - intros [= -> ->]. exact (supported_class_of _ _ _ _ Ec).
Qed.

Section ExecutorFacts.

Context {image : Type} (pil : pil_call → image → res image).
Context {diagnostic : Type} (not_applied : diagnostic)
        (describe : pyclass → params → image → image → diagnostic).

Lemma reads_apply_img_fn self (img : image) translate shear :
  reads (AutoAugmentAffine_apply_img_fn pil self img translate shear).
Proof.
  unfold AutoAugmentAffine_apply_img_fn. destruct translate, shear. reads_tac.
Qed.
Hint Resolve reads_apply_img_fn : reads.

Lemma reads__apply_img self (img : image) kw : reads (_apply_img pil self img kw).
Proof.
  unfold _apply_img. apply reads_bind; [auto with reads |].
  intros []; first [apply reads_raise | idtac];
    unfold ShearX_apply_img, ShearY_apply_img, TranslateX_apply_img,
      TranslateY_apply_img, Rotate_apply_img, Posterize_apply_img,
      Solarize_apply_img, Saturation_apply_img, Contrast_apply_img,
      Brightness_apply_img, Sharpness_apply_img, nullary_apply_img;
    reads_tac.
Qed.
Hint Resolve reads__apply_img : reads.

Lemma reads_gate self : reads (gate self).
Proof. unfold gate. reads_tac. Qed.
Hint Resolve reads_gate : reads.

Lemma reads_apply_img self (img : image) kw : reads (apply_img pil self img kw).
Proof. unfold apply_img. reads_tac. Qed.

Lemma reads_apply_img_check self (img : image) kw :
  reads (apply_img_check pil not_applied describe self img kw).
Proof. unfold apply_img_check. reads_tac. Qed.
Hint Resolve reads_apply_img reads_apply_img_check : reads.

Lemma reads_call self (img : image) : reads (AutoAugment_call pil self img).
Proof. unfold AutoAugment_call. reads_tac. Qed.

Lemma reads_check self (img : image) :
  reads (AutoAugment_check pil not_applied describe self img).
Proof. unfold AutoAugment_check. reads_tac. Qed.

(** C9. Neither entry point writes to the store. In a store that keeps
    the data model's invariant on magnitudes (an affine transform holds a
    number, which [val *= -1] in [_mirror] can only rebind, not change in
    place), whatever [__call__] or [check] returns or raises, every instance
    of the store (the AutoAugment object with its policy list, and every
    transform with its probability, magnitude, mirror flag and resample
    filter) is as it was before the call; the sampled parameter records and
    the trace are results only. In such a store no [sample] reaches an
    operation outside the embedding, whatever the generator delivers. *)
Theorem apply_paths_leave_store_unchanged (self : value) (img : image) (w : world) :
  number_magnitudes w →
  heap (AutoAugment_call pil self img w).2 = heap w
  ∧ heap (AutoAugment_check pil not_applied describe self img w).2 = heap w
  ∧ ∀ pol g operation w',
      sample pol {| heap := heap w; rng := g |} ≠ (Err (Unsupported operation), w').
Proof.
  intros Hnum. split; [apply reads_call |]. split; [apply reads_check |].
  intros pol g. now apply sample_supported.
Qed.

Lemma call_body_step pol img w :
  match call_body pil pol img w with
  | (Ok out, w') => ∃ b, spec_step pil pol img w (Ok (b, out)) w'
  | (Err e, w') => spec_step pil pol img w (Err e) w'
  end.
Proof.
  unfold call_body, apply_img, bind.
  destruct (sample pol w) as [[kw|e] w1] eqn:Es; [| now constructor].
  destruct (gate pol w1) as [[[|]|e] w2] eqn:Eg.
  - destruct (_apply_img pil pol img kw w2) as [[out|e] w3] eqn:Ea.
    + exists true. eapply step_fire; eauto.
    + eapply step_apply_raises; eauto.
  - exists false. eapply step_skip; eauto.
  - eapply step_gate_raises; eauto.
Qed.

Lemma spec_step_fun pol img w r w' :
  spec_step pil pol img w r w' →
  call_body pil pol img w = (snd <$> r, w').
Proof.
  unfold call_body, apply_img.
  intros H; destruct H;
    repeat match goal with
           | E : ?m ?w = (Ok _, _) |- context [bind ?m _ ?w] => rewrite (bind_ok _ _ _ _ _ E)
           | E : ?m ?w = (Err _, _) |- context [bind ?m _ ?w] => rewrite (bind_err _ _ _ _ _ E)
           end; simpl; auto.
Qed.

Lemma for_each_steps steps : ∀ img w,
  ∃ fired, spec_steps pil steps img w fired (for_each steps img (call_body pil) w).1
                      (for_each steps img (call_body pil) w).2.
Proof.
  induction steps as [|pol rest IH]; intros img w; simpl.
  - exists []. constructor.
  - pose proof (call_body_step pol img w) as Hs. unfold bind.
    destruct (call_body pil pol img w) as [[out|e] w1].
    + destruct Hs as [b Hs]. destruct (IH out w1) as [fired Hr].
      exists (b :: fired). econstructor; eauto.
    + exists []. now constructor.
Qed.

Lemma spec_steps_fun steps img w fired r w' :
  spec_steps pil steps img w fired r w' →
  for_each steps img (call_body pil) w = (r, w').
Proof.
  induction 1 as [| pol rest img w b img1 w1 fired r w2 Hs _ IH | pol rest img w e w1 Hs]; simpl.
  - reflexivity.
  - apply spec_step_fun in Hs. simpl in Hs. now rewrite (bind_ok _ _ _ _ _ Hs).
  - apply spec_step_fun in Hs. simpl in Hs. now rewrite (bind_err _ _ _ _ _ Hs).
Qed.

Lemma spec_steps_all steps img w fired out w' :
  spec_steps pil steps img w fired (Ok out) w' → length fired = length steps.
Proof.
  remember (Ok out) as r eqn:Er. intros H. revert Er.
  induction H; intros Er; simpl; try congruence. f_equal. auto.
Qed.

(** C7. With a non-empty policy table of [n] sub-policies, [__call__]
    takes one draw to select: whatever the state of the generator, the
    sub-policy taken is the one at the index that is the next draw reduced
    modulo [n], which depends on nothing but that draw; so of any [n]
    consecutive draw values each index is selected by exactly one, the index
    [j] by the draw [q * n + j], and every index has the same share. The
    call then runs exactly the specification's stepping on the selected
    sub-policy: the steps in list order, each sampled, gated, and either
    passed through unchanged or replaced by the applied result, the image
    after the last step being returned. A completed run has gated every step
    of the sub-policy once. In a store that keeps the data model's invariant
    on magnitudes nothing but the generator's cursor carries over to the
    next call. *)
Theorem call_runs_selected_steps_in_order (self : value) (img : image)
    (w : world) (subs : list value) :
  has_policy w self subs →
  subs ≠ [] →
  let n := length subs in
  let k := N.to_nat (next_draw w mod N.of_nat n) in
  (k < n)%nat
  ∧ (∀ w0, ∃ sel, subs !! N.to_nat (next_draw w0 mod N.of_nat n) = Some sel
                  ∧ random_choice (VList subs) w0 = (Ok sel, advance w0))
  ∧ (∀ j q w0, (j < n)%nat →
       (q * N.of_nat n ≤ next_draw w0 < q * N.of_nat n + N.of_nat n)%N →
       N.to_nat (next_draw w0 mod N.of_nat n) = j
       ↔ next_draw w0 = (q * N.of_nat n + N.of_nat j)%N)
  ∧ (∀ steps, subs !! k = Some (VList steps) →
      (∀ r w', AutoAugment_call pil self img w = (r, w')
               ↔ ∃ fired, spec_steps pil steps img (advance w) fired r w')
      ∧ (∀ fired out w', spec_steps pil steps img (advance w) fired (Ok out) w' →
                         length fired = length steps))
  ∧ (number_magnitudes w → heap (AutoAugment_call pil self img w).2 = heap w).
Proof.
  intros Hp Hne n k. split.
  { apply (choice_index_lt n w). subst n. destruct subs; [done | simpl; lia]. }
  split; [intros w0; now apply random_choice_draw |].
  split; [intros j q w0 Hj Hd; now apply draw_share |].
  split; [| intros _; apply reads_call].
  intros steps Hk.
  assert (Hcall : AutoAugment_call pil self img w
                  = for_each steps img (call_body pil) (advance w)).
  { unfold AutoAugment_call. apply has_policy_getattr in Hp.
    rewrite (bind_ok _ _ _ _ _ Hp).
    destruct (random_choice_draw subs w Hne) as (v & Hv & Hc).
    fold n in Hv. fold k in Hv. rewrite Hk in Hv. injection Hv as <-.
    rewrite (bind_ok _ _ _ _ _ Hc). reflexivity. }
  split.
  - intros r w'. rewrite Hcall. split.
    + intros E. destruct (for_each_steps steps img (advance w)) as [fired Hf].
      rewrite E in Hf. eauto.
    + intros [fired Hf]. now apply spec_steps_fun in Hf.
  - intros fired out w'. apply spec_steps_all.
Qed.

(** *** The diagnostic path against the plain path *)

Lemma gate_ok_draws self w b w' : gate self w = (Ok b, w') → w' = advance w.
Proof.
  unfold gate. intros E.
  apply bind_inv_ok in E as (p & w1 & Ep & E).
  rewrite (silent_inv _ _ _ _ (silent_getattr _ _) Ep) in E.
  apply bind_inv_ok in E as (n & w2 & En & E).
  rewrite (silent_inv _ _ _ _ (silent_as_num _) En) in E.
  pose proof (check_prob_draws n w) as Hd. now rewrite E in Hd.
Qed.

Lemma gate_ok_class self w b w' :
  gate self w = (Ok b, w') → ∃ c, class_of self w' = (Ok c, w').
Proof.
  intros E. pose proof (gate_ok_draws _ _ _ _ E) as ->.
  unfold gate in E. apply bind_inv_ok in E as (p & w1 & Ep & _).
  apply getattr_inv in Ep as (_ & l & o & -> & Ho & _).
  exists (cls o). unfold class_of. simpl. now rewrite Ho.
Qed.

Lemma silent_apply_img_fn self (img : image) translate shear :
  silent (AutoAugmentAffine_apply_img_fn pil self img translate shear).
Proof.
  unfold AutoAugmentAffine_apply_img_fn. destruct translate, shear. silent_tac.
Qed.
Hint Resolve silent_apply_img_fn : silent.

Lemma silent__apply_img self (img : image) kw : silent (_apply_img pil self img kw).
Proof.
  unfold _apply_img. apply silent_bind; [auto with silent |].
  intros []; first [apply silent_raise | idtac];
    unfold ShearX_apply_img, ShearY_apply_img, TranslateX_apply_img,
      TranslateY_apply_img, Rotate_apply_img, Posterize_apply_img,
      Solarize_apply_img, Saturation_apply_img, Contrast_apply_img,
      Brightness_apply_img, Sharpness_apply_img, nullary_apply_img;
    silent_tac.
Qed.

Lemma check_body_vs_call pol img (log : trace) w :
  match call_body pil pol img w with
  | (Ok out, w') =>
      ∃ kw d, check_body pil not_applied describe pol (img, log) w = (Ok (out, log ++ [(pol, kw, d)]), w')
              ∧ w' = advance_n (mirror_draws (heap w) pol + 1) w
  | (Err e, w') => check_body pil not_applied describe pol (img, log) w = (Err e, w')
  end.
Proof.
  unfold call_body, check_body, apply_img, apply_img_check, bind.
  destruct (sample pol w) as [[kw|e] w1] eqn:Es; [| reflexivity].
  apply sample_ok_draws in Es as ->.
  set (w1 := advance_n (mirror_draws (heap w) pol) w).
  destruct (gate pol w1) as [[[|]|e] w2] eqn:Eg; [| | reflexivity].
  - destruct (gate_ok_class _ _ _ _ Eg) as [c Ec]. rewrite Ec.
    pose proof (gate_ok_draws _ _ _ _ Eg) as ->.
    destruct (_apply_img pil pol img kw (advance w1)) as [[out|e] w3] eqn:Ea;
      pose proof (silent_inv _ _ _ _ (silent__apply_img _ _ _) Ea) as ->;
      [| reflexivity].
    exists kw, (describe c kw img out). split; [reflexivity |].
    subst w1. now rewrite Nat.add_comm.
  - pose proof (gate_ok_draws _ _ _ _ Eg) as ->.
    exists kw, not_applied. split; [reflexivity |].
    subst w1. now rewrite Nat.add_comm.
Qed.

Lemma check_loop steps : ∀ img (log : trace) w,
  match for_each steps img (call_body pil) w with
  | (Ok out, w') =>
      ∃ log', for_each steps (img, log) (check_body pil not_applied describe) w = (Ok (out, log ++ log'), w')
              ∧ (λ e, e.1.1) <$> log' = steps
              ∧ w' = advance_n (step_draws (heap w) steps) w
  | (Err e, w') => for_each steps (img, log) (check_body pil not_applied describe) w = (Err e, w')
  end.
Proof.
  induction steps as [|pol rest IH]; intros img log w; simpl.
  - exists []. now rewrite app_nil_r.
  - pose proof (check_body_vs_call pol img log w) as Hs.
    destruct (call_body pil pol img w) as [[out|e] w1] eqn:Ecall.
    + rewrite (bind_ok _ _ _ _ _ Ecall).
      destruct Hs as (kw & d & Hcheck & ->).
      rewrite (bind_ok _ _ _ _ _ Hcheck). cbv beta.
      set (w1 := advance_n _ w).
      specialize (IH out (log ++ [(pol, kw, d)]) w1).
      destruct (for_each rest out (call_body pil) w1) as [[out'|e] w2].
      * destruct IH as (log' & IHc & Hm & ->).
        exists ((pol, kw, d) :: log').
        replace (log ++ (pol, kw, d) :: log') with ((log ++ [(pol, kw, d)]) ++ log')
          by now rewrite <- app_assoc.
        split; [exact IHc |].
        split; [rewrite fmap_cons; simpl; f_equal; exact Hm |].
        subst w1. rewrite heap_advance_n, advance_n_add.
        unfold step_draws. simpl. f_equal. apply Nat.add_comm.
      * exact IH.
    + rewrite (bind_err _ _ _ _ _ Ecall). now rewrite (bind_err _ _ _ _ _ Hs).
Qed.

Lemma check_body_ok pol img (log : trace) w out log1 w1 :
  check_body pil not_applied describe pol (img, log) w = (Ok (out, log1), w1) →
  ∃ kw d, log1 = log ++ [(pol, kw, d)]
          ∧ ∃ wa wb, sample pol w = (Ok kw, wa)
              ∧ ((gate pol wa = (Ok false, wb) ∧ out = img ∧ d = not_applied ∧ w1 = wb)
                 ∨ (gate pol wa = (Ok true, wb)
                    ∧ ∃ c, class_of pol wb = (Ok c, wb)
                           ∧ _apply_img pil pol img kw wb = (Ok out, w1)
                           ∧ d = describe c kw img out)).
Proof.
  unfold check_body. intros E.
  apply bind_inv_ok in E as (kw & wa & Es & E).
  apply bind_inv_ok in E as ([img1 d] & w2 & Ea & E).
  injection E as <- <- <-.
  exists kw, d. split; [reflexivity |]. exists wa.
  unfold apply_img_check in Ea.
  apply bind_inv_ok in Ea as (fire & wb & Eg & Ea). exists wb.
  split; [exact Es |]. destruct fire.
  - right. split; [exact Eg |].
    apply bind_inv_ok in Ea as (c & wc & Ec & Ea).
    pose proof (silent_inv _ _ _ _ (silent_class_of _) Ec) as ->.
    apply bind_inv_ok in Ea as (o & wd & Eo & Ea).
    injection Ea as <- <- <-. exists c. auto.
  - left. injection Ea as <- <- <-. auto.
Qed.

Lemma check_loop_trace steps : ∀ img (log : trace) w out log_all w',
  for_each steps (img, log) (check_body pil not_applied describe) w
  = (Ok (out, log_all), w') →
  ∃ log', log_all = log ++ log'
          ∧ spec_trace pil not_applied describe steps img w log' out w'.
Proof.
  induction steps as [|pol rest IH]; intros img log w out log_all w' E; simpl in E.
  - injection E as <- <- <-. exists []. split; [now rewrite app_nil_r | constructor].
  - apply bind_inv_ok in E as ([img1 log1] & w1 & Eb & E).
    apply check_body_ok in Eb as (kw & d & -> & wa & wb & Es & Hcase).
    apply IH in E as (log' & -> & Ht).
    exists ((pol, kw, d) :: log'). split; [now rewrite <- app_assoc |].
    destruct Hcase as [(Eg & -> & -> & ->)|(Eg & c & Ec & Ea & ->)].
    + eapply trace_skip; eauto.
    + eapply trace_fire; eauto.
Qed.

(** C8. [check] selects and steps exactly as [__call__] does on the same
    world: it raises when and what the plain path raises, and otherwise it
    returns the plain path's image and leaves the generator where the plain
    path leaves it, together with a trace that has one entry per step of the
    selected sub-policy, in order, each holding the step's transform
    instance, the record its [sample] returned and its diagnostic. The
    draws of a completed run are the one that selects, and per step the sign
    draw of its [sample] (if it has one) and a single gate draw. *)
Theorem check_is_call_with_trace (self : value) (img : image) (w : world) :
  match AutoAugment_call pil self img w with
  | (Ok out, w') =>
      ∃ (log : trace) subs steps,
        AutoAugment_check pil not_applied describe self img w = (Ok (out, log), w')
        ∧ has_policy w self subs
        ∧ subs !! choice_index (length subs) w = Some (VList steps)
        ∧ length log = length steps
        ∧ (λ e, e.1.1) <$> log = steps
        ∧ spec_trace pil not_applied describe steps img (advance w) log out w'
        ∧ w' = advance_n (step_draws (heap w) steps) (advance w)
  | (Err e, w') =>
      AutoAugment_check pil not_applied describe self img w = (Err e, w')
  end.
Proof.
  unfold AutoAugment_call, AutoAugment_check.
  destruct (getattr self "policy" w) as [[policy|e] w1] eqn:Ep;
    [| now rewrite !(bind_err _ _ _ _ _ Ep)].
  pose proof (silent_inv _ _ _ _ (silent_getattr _ _) Ep) as ->.
  rewrite !(bind_ok _ _ _ _ _ Ep).
  destruct (random_choice policy w) as [[sel|e] w1] eqn:Ec;
    [| now rewrite !(bind_err _ _ _ _ _ Ec)].
  rewrite !(bind_ok _ _ _ _ _ Ec).
  destruct (iterate sel w1) as [[steps|e] w2] eqn:Ei;
    [| now rewrite !(bind_err _ _ _ _ _ Ei)].
  rewrite !(bind_ok _ _ _ _ _ Ei).
  destruct sel as [| | | | | |items]; try discriminate. injection Ei as <- <-.
  destruct policy as [| | | | | |subs]; try discriminate.
  simpl in Ec. destruct subs as [|s0 subs']; [discriminate |].
  destruct ((s0 :: subs') !! _) as [v|] eqn:Hv; [| discriminate].
  injection Ec as -> <-.
  pose proof (check_loop items img [] (advance w)) as Hl.
  change (for_each items img _ (advance w))
    with (for_each items img (call_body pil) (advance w)).
  destruct (for_each items img (call_body pil) (advance w)) as [[out|e] w2].
  - destruct Hl as (log & Hc & Hm & ->). simpl in Hc.
    exists log, (s0 :: subs'), items.
    split; [exact Hc |]. split; [now apply has_policy_getattr |].
    split; [exact Hv |]. split; [rewrite <- Hm; now rewrite length_fmap |].
    split; [exact Hm |]. split; [| reflexivity].
    apply check_loop_trace in Hc as (log' & Hl' & Ht). simpl in Hl'. now subst log'.
  - exact Hl.
Qed.

(** C10. Both entry points need a non-empty policy table: on an empty one
    the selection raises IndexError before anything else happens, in
    [__call__] and in [check] alike, so the input image is not returned;
    on a non-empty one the selection succeeds with an element of the table,
    at the cost of one draw. *)
Theorem empty_policy_raises_nonempty_selects (self : value) (img : image)
    (w : world) (subs : list value) :
  has_policy w self subs →
  (subs = [] →
     AutoAugment_call pil self img w = (Err IndexError, w)
     ∧ AutoAugment_check pil not_applied describe self img w = (Err IndexError, w))
  ∧ (subs ≠ [] →
     ∃ sel, random_choice (VList subs) w = (Ok sel, advance w) ∧ sel ∈ subs).
Proof.
  intros Hp. apply has_policy_getattr in Hp. split.
  - intros ->. unfold AutoAugment_call, AutoAugment_check.
    now rewrite !(bind_ok _ _ _ _ _ Hp).
  - intros Hne. destruct (random_choice_ok subs w Hne) as (v & Hv & Hc).
    exists v. split; [exact Hc |]. eapply list_elem_of_lookup_2; eauto.
Qed.

End ExecutorFacts.

(** ** The affine [sample] methods *)

Lemma load_bound bound r self w :
  load_name (<[bound := r]> {["self" := self]}) bound w = (Ok r, w).
Proof. unfold load_name. now rewrite lookup_insert_eq. Qed.

Lemma load_trans_x r self w :
  load_name (<["trans_y" := r]> {["self" := self]}) "trans_x" w
  = (Err (NameError "trans_x"), w).
Proof.
  unfold load_name.
  rewrite lookup_insert_ne by discriminate.
  rewrite lookup_singleton_ne by discriminate.
  reflexivity.
Qed.

(** What [_mirror] returns for a number: the number or its product with -1. *)
Lemma mirror_number l o n b w :
  heap w !! l = Some o →
  dict o !! "mirror" = Some (VBool b) →
  ∃ v w', AutoAugmentAffine_mirror (VRef l) (VNum n) w = (Ok (VNum v), w')
          ∧ heap w' = heap w
          ∧ (v = n ∨ (b = true ∧ Py.mul n (PyInt (-1)) = Ok v)).
Proof.
  intros Ho Hm.
  assert (Em : getattr (VRef l) "mirror" w = (Ok (VBool b), w))
    by (unfold getattr; now rewrite Ho, Hm).
  unfold AutoAugmentAffine_mirror. rewrite (bind_ok _ _ _ _ _ Em). simpl.
  destruct b; [| exists n, w; auto].
  unfold bind, check_prob, bind, random_random, ret.
  destruct (Py.ltb _ _).
  - unfold negate, bind, as_num, ret, lift.
    destruct n as [z|f]; simpl.
    + eexists _, _. split; [reflexivity |]. split; [reflexivity |]. right. auto.
    + eexists _, _. split; [reflexivity |]. split; [reflexivity |]. right. auto.
  - exists n, (advance w). auto.
Qed.

(** The sibling method does what its name says: [TranslateX.sample]
    returns its own magnitude, mirrored or not. *)
Lemma TranslateX_sample_returns l o n b w :
  heap w !! l = Some o →
  cls o = TranslateX →
  dict o !! "translate_x" = Some (VNum n) →
  dict o !! "mirror" = Some (VBool b) →
  ∃ v w', sample (VRef l) w = (Ok {["translate_x" := VNum v]}, w')
          ∧ (v = n ∨ (b = true ∧ Py.mul n (PyInt (-1)) = Ok v)).
Proof.
  intros Ho Hc Hx Hm.
  destruct (mirror_number l o n b w Ho Hm) as (v & w' & Emir & _ & Hv).
  exists v, w'. split; [| exact Hv].
  assert (Ec : class_of (VRef l) w = (Ok TranslateX, w))
    by (unfold class_of; now rewrite Ho, Hc).
  assert (Ex : getattr (VRef l) "translate_x" w = (Ok (VNum n), w))
    by (unfold getattr; now rewrite Ho, Hx).
  unfold sample. rewrite (bind_ok _ _ _ _ _ Ec).
  unfold TranslateX_sample, affine_sample.
  rewrite (bind_ok _ _ _ _ _ Ex), (bind_ok _ _ _ _ _ Emir).
  now rewrite (bind_ok _ _ _ _ _ (load_bound _ _ _ _)).
Qed.

(** C1. [TranslateY.sample] never returns a parameter record: for every
    TranslateY instance and every state of the generator it raises, and for
    an instance as its constructor leaves it (a number in [translate_y], a
    boolean in [mirror]) the exception is the NameError on [trans_x], the
    name its return statement loads but never binds. The claimed
    [{"translate_y": ±magnitude}] is never produced. *)
Theorem TranslateY_sample_raises (w : world) (l : loc) (o : instance) :
  heap w !! l = Some o →
  cls o = TranslateY →
  (∀ kw w', sample (VRef l) w ≠ (Ok kw, w'))
  ∧ (∀ n b, dict o !! "translate_y" = Some (VNum n) →
            dict o !! "mirror" = Some (VBool b) →
            ∃ w', sample (VRef l) w = (Err (NameError "trans_x"), w')).
Proof.
  intros Ho Hc.
  assert (Ec : class_of (VRef l) w = (Ok TranslateY, w))
    by (unfold class_of; now rewrite Ho, Hc).
  split.
  - intros kw w' E. unfold sample in E. rewrite (bind_ok _ _ _ _ _ Ec) in E.
    unfold TranslateY_sample, affine_sample in E.
    apply bind_inv_ok in E as (v & w1 & _ & E).
    apply bind_inv_ok in E as (r & w2 & _ & E).
    apply bind_inv_ok in E as (out & w3 & E & _).
    now rewrite load_trans_x in E.
  - intros n b Hy Hm.
    destruct (mirror_number l o n b w Ho Hm) as (v & w' & Emir & _ & _).
    exists w'.
    assert (Ey : getattr (VRef l) "translate_y" w = (Ok (VNum n), w))
      by (unfold getattr; now rewrite Ho, Hy).
    unfold sample. rewrite (bind_ok _ _ _ _ _ Ec).
    unfold TranslateY_sample, affine_sample.
    rewrite (bind_ok _ _ _ _ _ Ey), (bind_ok _ _ _ _ _ Emir).
    now rewrite (bind_err _ _ _ _ _ (load_trans_x _ _ _)).
Qed.

(** *** On a constructed instance *)

Lemma TranslateY_sample_raises_witness :
  ∃ w', sample (VRef 0%nat) world_translate_y = (Err (NameError "trans_x"), w').
Proof.
  refine (proj2 (TranslateY_sample_raises world_translate_y 0%nat
                   {| cls := TranslateY;
                      dict := <["translate_y" := VNum (PyInt 3)]>
                                (<["resample" := VFilter NEAREST]>
                                   (<["mirror" := VBool true]>
                                      (<["p" := VNum p1_0]> ∅))) |}
                   _ _) (PyInt 3) true _ _).
  - vm_compute. reflexivity.
  - reflexivity.
  - vm_compute. reflexivity.
  - vm_compute. reflexivity.
Defined.

(** ** Construction *)

Lemma setattr_fresh w o name v :
  setattr (length (heap w)) name v (with_heap (heap w ++ [o]) w)
  = (Ok (), with_heap (heap w ++ [{| cls := cls o; dict := <[name := v]> (dict o) |}]) w).
Proof.
  unfold setattr, with_heap. simpl.
  rewrite lookup_app_r by lia. rewrite Nat.sub_diag. simpl.
  rewrite insert_app_r_alt by lia. rewrite Nat.sub_diag. reflexivity.
Qed.

Lemma init_fresh_valid w o p :
  valid_prob p = true →
  RandomTransform_init (length (heap w)) p (with_heap (heap w ++ [o]) w)
  = (Ok (), with_heap (heap w ++ [{| cls := cls o; dict := <["p" := VNum p]> (dict o) |}]) w).
Proof.
  intros Hp. unfold RandomTransform_init. fold (valid_prob p). rewrite Hp.
  apply setattr_fresh.
Qed.

Lemma init_invalid self p w :
  valid_prob p = false → RandomTransform_init self p w = (Err InvalidParameter, w).
Proof.
  intros Hp. unfold RandomTransform_init. fold (valid_prob p). now rewrite Hp.
Qed.

Lemma with_heap_heap h w : heap (with_heap h w) = h.
Proof. reflexivity. Qed.

Lemma with_heap_twice h h' w : with_heap h (with_heap h' w) = with_heap h w.
Proof. reflexivity. Qed.

(** Step through a constructor that runs on the instance just allocated. *)
Ltac fresh_step :=
  match goal with
  | |- context [bind (setattr (length (heap ?w)) ?name ?v) _ (with_heap (heap ?w ++ [?o]) ?w)] =>
      rewrite (bind_ok _ _ _ _ _ (setattr_fresh w o name v)); cbv beta
  | |- context [setattr (length (heap ?w)) ?name ?v (with_heap (heap ?w ++ [?o]) ?w)] =>
      rewrite (setattr_fresh w o name v)
  end.

(** A well-called constructor with an admissible probability allocates one
    instance at the end of the store and fills it in; nothing about the
    magnitude is looked at. *)
Lemma construct_valid c magnitude p w :
  well_called c magnitude = true →
  valid_prob p = true →
  construct c magnitude p w
  = (Ok (VRef (length (heap w))), with_heap (heap w ++ [instance_of c magnitude p]) w).
Proof.
  intros Hc Hp.
  destruct c, magnitude as [v|]; try discriminate Hc;
    unfold construct, new, ShearX_init, ShearY_init, TranslateX_init,
      TranslateY_init, Rotate_init, AutoAugmentAffine_init, Posterize_init,
      Solarize_init, Saturation_init, Contrast_init, Brightness_init,
      Sharpness_init, plain_init, nullary_init;
    unfold bind at 1;
    repeat (first
      [ rewrite (bind_ok _ _ _ _ _ (init_fresh_valid w _ p Hp)); cbv beta
      | rewrite (init_fresh_valid w _ p Hp)
      | fresh_step
      | unfold bind at 1 ]);
    reflexivity.
Qed.

(** With a probability outside [[0, 1]] the base constructor raises before
    any field is stored. *)
Lemma construct_invalid c magnitude p w :
  well_called c magnitude = true →
  valid_prob p = false →
  construct c magnitude p w
  = (Err InvalidParameter, with_heap (heap w ++ [{| cls := c; dict := ∅ |}]) w).
Proof.
  intros Hc Hp.
  destruct c, magnitude as [v|]; try discriminate Hc;
    unfold construct, new, ShearX_init, ShearY_init, TranslateX_init,
      TranslateY_init, Rotate_init, AutoAugmentAffine_init, Posterize_init,
      Solarize_init, Saturation_init, Contrast_init, Brightness_init,
      Sharpness_init, plain_init, nullary_init;
    unfold bind; rewrite (init_invalid _ _ _ Hp); reflexivity.
Qed.

(** ** Building the policy table *)

Lemma registry_well_called name c r v :
  autoaugment_map !! name = Some (c, r) → well_called c (argument r v) = true.
Proof.
  intros H. apply elem_of_list_to_map_2 in H.
  repeat (apply elem_of_cons in H as [H|H]; [injection H as -> -> ->; reflexivity |]).
  now apply elem_of_nil in H.
Qed.

Lemma build_step_resolved t o sub w :
  resolved t = Some o →
  build_step t sub w
  = (Ok (sub ++ [VRef (length (heap w))]), with_heap (heap w ++ [o]) w).
Proof.
  destruct t as [[name prob] level]. unfold resolved, build_step.
  destruct (autoaugment_map !! name) as [[c [f|]]|] eqn:Hr; [| | discriminate].
  - destruct (f level) as [m|e] eqn:Hf; [| discriminate].
    destruct (valid_prob prob) eqn:Hp; [| discriminate]. intros [= <-].
    rewrite (bind_ok (lift (Ok m)) _ w m w eq_refl).
    pose proof (registry_well_called _ _ _ (VNum m) Hr) as Hc. simpl in Hc.
    now rewrite (bind_ok _ _ _ _ _ (construct_valid _ _ _ w Hc Hp)).
  - destruct (valid_prob prob) eqn:Hp; [| discriminate]. intros [= <-].
    pose proof (registry_well_called _ _ _ VNone Hr) as Hc. simpl in Hc.
    now rewrite (bind_ok _ _ _ _ _ (construct_valid _ _ _ w Hc Hp)).
Qed.

Lemma build_step_unknown name prob level sub w :
  autoaugment_map !! name = None →
  build_step (name, prob, level) sub w = (Err (KeyError name), w).
Proof. intros H. unfold build_step. now rewrite H. Qed.

Lemma inner_loop_resolved row : ∀ insts sub w,
  mapM resolved row = Some insts →
  for_each row sub build_step w
  = (Ok (sub ++ refs (length (heap w)) (length row)), with_heap (heap w ++ insts) w).
Proof.
  induction row as [|t row IH]; intros insts sub w Hm.
  - injection Hm as <-. simpl. unfold ret, refs, with_heap. simpl.
    rewrite !app_nil_r. now destruct w.
  - rewrite mapM_Some in Hm. apply Forall2_cons_inv_l in Hm as (o & insts' & Ho & Hm & ->).
    rewrite <- mapM_Some in Hm. simpl.
    rewrite (bind_ok _ _ _ _ _ (build_step_resolved _ _ sub w Ho)).
    rewrite (IH insts' _ _ Hm). rewrite with_heap_heap, with_heap_twice.
    rewrite length_app. simpl. unfold refs. simpl.
    rewrite <- !app_assoc. simpl. repeat f_equal. lia.
Qed.

Lemma build_row_resolved row insts acc w :
  mapM resolved row = Some insts →
  build_row row acc w
  = (Ok (acc ++ [VList (refs (length (heap w)) (length row))]),
     with_heap (heap w ++ insts) w).
Proof.
  intros Hi. unfold build_row.
  now rewrite (bind_ok _ _ _ _ _ (inner_loop_resolved _ _ [] w Hi)).
Qed.

Lemma outer_loop_resolved table : ∀ rows acc w,
  mapM (mapM resolved) table = Some rows →
  for_each table acc build_row w
  = (Ok (acc ++ ref_rows (length (heap w)) table), with_heap (heap w ++ concat rows) w).
Proof.
  induction table as [|row table IH]; intros rows acc w Hm.
  - injection Hm as <-. simpl. unfold ret, with_heap. simpl.
    rewrite !app_nil_r. now destruct w.
  - rewrite mapM_Some in Hm. apply Forall2_cons_inv_l in Hm as (insts & rows' & Hi & Hm & ->).
    rewrite <- mapM_Some in Hm. simpl.
    rewrite (bind_ok _ _ _ _ _ (build_row_resolved _ _ acc w Hi)).
    rewrite (IH rows' _ _ Hm).
    rewrite with_heap_heap, with_heap_twice, length_app.
    rewrite <- !app_assoc. simpl.
    replace (length insts) with (length row)
      by (rewrite mapM_Some in Hi; eapply Forall2_length; eauto).
    reflexivity.
Qed.

Lemma build_policy_resolved table rows w :
  mapM (mapM resolved) table = Some rows →
  build_policy table w
  = (Ok (VList (ref_rows (length (heap w)) table)), with_heap (heap w ++ concat rows) w).
Proof.
  intros Hm. unfold build_policy.
  change (for_each table [] _) with (for_each table [] build_row).
  now rewrite (bind_ok _ _ _ _ _ (outer_loop_resolved _ _ [] w Hm)).
Qed.

Lemma resolved_built_from t o : resolved t = Some o → built_from t o.
Proof.
  destruct t as [[name prob] level]. unfold resolved, built_from.
  destruct (autoaugment_map !! name) as [[c [f|]]|]; [| | discriminate].
  - destruct (f level) as [m|] eqn:Hf; [| discriminate].
    destruct (valid_prob prob); [| discriminate]. intros [= <-].
    exists c, (Some f). split; [reflexivity |]. exists m. now rewrite Hf.
  - destruct (valid_prob prob); [| discriminate]. intros [= <-].
    exists c, None. split; reflexivity.
Qed.

Lemma refs_lookup n k j : (j < k)%nat → refs n k !! j = Some (VRef (n + j)%nat).
Proof.
  intros Hj. unfold refs. rewrite list_lookup_fmap.
  now rewrite lookup_seq_lt.
Qed.

(** Step [j] of row [i] of the returned table refers to the instance
    allocated for triple [j] of row [i] of the literal table. *)
Lemma ref_rows_lookup {R : triple → instance → Prop} table : ∀ rows (h : list instance),
  Forall2 (Forall2 R) table rows →
  ∀ i j row t, table !! i = Some row → row !! j = Some t →
    ∃ steps l o, ref_rows (length h) table !! i = Some (VList steps)
                 ∧ steps !! j = Some (VRef l)
                 ∧ (h ++ concat rows) !! l = Some o
                 ∧ R t o.
Proof.
  induction table as [|row0 table IH]; intros rows h HF i j row t Hi Hj.
  - discriminate.
  - apply Forall2_cons_inv_l in HF as (insts & rows' & H0 & HF & ->).
    destruct i as [|i]; simpl in Hi.
    + injection Hi as ->.
      destruct (Forall2_lookup_l _ _ _ _ _ H0 Hj) as (o & Ho & HR).
      exists (refs (length h) (length row)), (length h + j)%nat, o. simpl.
      split; [reflexivity |].
      split; [apply refs_lookup; eapply lookup_lt_Some; eauto |].
      split; [| exact HR].
      rewrite lookup_app_r by lia.
      replace (length h + j - length h)%nat with j by lia.
      now rewrite lookup_app_l by (eapply lookup_lt_Some; eauto).
    + destruct (IH rows' (h ++ insts) HF i j row t Hi Hj) as (steps & l & o & Hs & Hl & Ho & HR).
      exists steps, l, o. simpl.
      rewrite length_app in Hs.
      replace (length insts) with (length row0) in Hs
        by (eapply Forall2_length; eauto).
      rewrite <- app_assoc in Ho. auto.
Qed.

Lemma ref_rows_pairs table : ∀ n,
  Forall (λ row, length row = 2%nat) table →
  Forall (λ sub, ∃ a b, sub = VList [VRef a; VRef b]) (ref_rows n table).
Proof.
  induction table as [|row table IH]; intros n HF; [constructor |].
  apply Forall_cons in HF as [Hrow HF]. cbn [ref_rows].
  constructor; [| now apply IH].
  rewrite Hrow. unfold refs. cbn. eauto.
Qed.

Lemma ref_rows_length table n : length (ref_rows n table) = length table.
Proof. revert n. induction table; intros n; cbn [ref_rows length]; auto. Qed.

Lemma policy_list_resolves : is_Some (mapM (mapM resolved) policy_list).
Proof. vm_compute. eauto. Qed.

(** C4. From any world [autoaugment_policy] returns a table of exactly 25
    sub-policies of exactly 2 steps each, having allocated one instance per
    triple of the literal table and touched nothing else; step [j] of
    sub-policy [i] refers to the instance built from triple [j] of row [i]:
    the class registered under the triple's name, constructed with the
    triple's probability and, when the class has a rule, the level after that
    rule, and from the probability alone otherwise. *)
Theorem autoaugment_policy_builds_canonical_table (w : world) :
  ∃ subs insts,
    autoaugment_policy w = (Ok (VList subs), with_heap (heap w ++ insts) w)
    ∧ length subs = 25%nat
    ∧ Forall (λ sub, ∃ a b, sub = VList [VRef a; VRef b]) subs
    ∧ ∀ i j row t, policy_list !! i = Some row → row !! j = Some t →
        ∃ steps l o, subs !! i = Some (VList steps)
                     ∧ steps !! j = Some (VRef l)
                     ∧ (heap w ++ insts) !! l = Some o
                     ∧ built_from t o.
Proof.
  destruct policy_list_resolves as [rows Hrows].
  exists (ref_rows (length (heap w)) policy_list), (concat rows).
  split; [now apply build_policy_resolved |].
  split; [now rewrite ref_rows_length |].
  split; [apply ref_rows_pairs; repeat constructor |].
  apply ref_rows_lookup.
  rewrite mapM_Some in Hrows.
  eapply Forall2_impl; [exact Hrows |].
  intros row insts Hr. rewrite mapM_Some in Hr.
  eapply Forall2_impl; [exact Hr |].
  intros t o. apply resolved_built_from.
Qed.

(** *** Unknown operation names *)

Lemma resolved_registered t o : resolved t = Some o → registered t.
Proof.
  destruct t as [[name prob] level]. unfold resolved, registered, name_of. cbn [fst snd].
  destruct (autoaugment_map !! name); [eauto | discriminate].
Qed.

Lemma build_step_ok_registered t sub w r w' :
  build_step t sub w = (Ok r, w') → registered t.
Proof.
  destruct t as [[name prob] level]. unfold build_step, registered, name_of. cbn [fst snd].
  destruct (autoaugment_map !! name); [eauto | discriminate].
Qed.

Lemma inner_loop_ok_registered row : ∀ sub w r w',
  for_each row sub build_step w = (Ok r, w') → Forall registered row.
Proof.
  induction row as [|t row IH]; intros sub w r w' E; [constructor |].
  simpl in E. apply bind_inv_ok in E as (s1 & w1 & E1 & E).
  constructor; [eapply build_step_ok_registered | eapply IH]; eauto.
Qed.

Lemma outer_loop_ok_registered table : ∀ acc w r w',
  for_each table acc build_row w = (Ok r, w') → Forall (Forall registered) table.
Proof.
  induction table as [|row table IH]; intros acc w r w' E; [constructor |].
  simpl in E. apply bind_inv_ok in E as (s1 & w1 & E1 & E).
  constructor; [| eapply IH; eauto].
  unfold build_row in E1. apply bind_inv_ok in E1 as (s2 & w2 & E2 & _).
  eapply inner_loop_ok_registered; eauto.
Qed.

Lemma small_level_cases z :
  0 ≤ z ≤ 10 →
  z = 0 ∨ z = 1 ∨ z = 2 ∨ z = 3 ∨ z = 4 ∨ z = 5 ∨ z = 6 ∨ z = 7 ∨ z = 8 ∨ z = 9 ∨ z = 10.
Proof. lia. Qed.

(** Every rule of the registry is defined on the levels 0 to 10. *)
Lemma rules_defined name c f level :
  autoaugment_map !! name = Some (c, Some f) →
  valid_level level = true →
  is_ok (f level) = true.
Proof.
  intros H Hl. destruct level as [z|]; [| discriminate]. simpl in Hl.
  apply andb_true_iff in Hl as [H0 H10].
  apply Z.leb_le in H0. apply Z.leb_le in H10.
  apply elem_of_list_to_map_2 in H.
  repeat (apply elem_of_cons in H as [H|H];
          [first [discriminate H
                 | injection H as _ _ ->;
                   destruct (small_level_cases z (conj H0 H10))
                     as [->|[->|[->|[->|[->|[->|[->|[->|[->|[->| ->]]]]]]]]]];
                   vm_compute; reflexivity] |]).
  now apply elem_of_nil in H.
Qed.

Lemma well_formed_resolved t :
  well_formed t = true → registered t → is_Some (resolved t).
Proof.
  destruct t as [[name prob] level]. unfold well_formed, registered, name_of, resolved.
  cbn [fst snd]. intros Hw [[c r] Hr]. apply andb_true_iff in Hw as [Hp Hl].
  rewrite Hr, Hp. destruct r as [f|]; [| eauto].
  pose proof (rules_defined _ _ _ _ Hr Hl) as Hf.
  destruct (f level); [eauto | discriminate].
Qed.

Lemma registered_dec t : registered t ∨ autoaugment_map !! name_of t = None.
Proof.
  unfold registered. destruct (autoaugment_map !! name_of t); [left; eauto | now right].
Qed.

(** A well-formed row either resolves as a whole, or the loop over it
    stops with the KeyError of one of its names, which is not registered. *)
Lemma inner_loop_well_formed row :
  Forall (λ t, well_formed t = true) row →
  is_Some (mapM resolved row)
  ∨ ∃ t, t ∈ row ∧ autoaugment_map !! name_of t = None
         ∧ ∀ sub w, ∃ w', for_each row sub build_step w = (Err (KeyError (name_of t)), w').
Proof.
  induction 1 as [|t row Ht _ IH].
  - left. now exists [].
  - destruct (registered_dec t) as [Hr|Hn].
    + destruct (well_formed_resolved t Ht Hr) as [o Ho].
      destruct IH as [[insts Hi]|(u & Hu & Hn & Hrun)].
      * left. exists (o :: insts). rewrite mapM_Some in Hi |- *.
        now constructor.
      * right. exists u. split; [now right |]. split; [exact Hn |].
        intros sub w. simpl.
        rewrite (bind_ok _ _ _ _ _ (build_step_resolved _ _ sub w Ho)).
        apply Hrun.
    + right. exists t. split; [now left |]. split; [exact Hn |].
      intros sub w. exists w. simpl.
      destruct t as [[name prob] level].
      now rewrite (bind_err _ _ _ _ _ (build_step_unknown name prob level sub w Hn)).
Qed.

Lemma outer_loop_well_formed table :
  Forall (Forall (λ t, well_formed t = true)) table →
  is_Some (mapM (mapM resolved) table)
  ∨ ∃ row t, row ∈ table ∧ t ∈ row ∧ autoaugment_map !! name_of t = None
             ∧ ∀ acc w, ∃ w', for_each table acc build_row w
                               = (Err (KeyError (name_of t)), w').
Proof.
  induction 1 as [|row table Hrow _ IH].
  - left. now exists [].
  - destruct (inner_loop_well_formed row Hrow) as [[insts Hi]|(t & Ht & Hn & Hrun)].
    + destruct IH as [[rows Hr]|(row' & u & Hrow' & Hu & Hn & Hrun)].
      * left. exists (insts :: rows). rewrite mapM_Some in Hr |- *.
        constructor; [exact Hi | exact Hr].
      * right. exists row', u. split; [now right |]. split; [exact Hu |].
        split; [exact Hn |]. intros acc w. simpl.
        rewrite (bind_ok _ _ _ _ _ (build_row_resolved _ _ acc w Hi)).
        apply Hrun.
    + right. exists row, t. split; [now left |]. split; [exact Ht |].
      split; [exact Hn |]. intros acc w.
      destruct (Hrun [] w) as [w' Hw']. exists w'. simpl.
      assert (Hb : build_row row acc w = (Err (KeyError (name_of t)), w'))
        by (unfold build_row; now rewrite (bind_err _ _ _ _ _ Hw')).
      now rewrite (bind_err _ _ _ _ _ Hb).
Qed.

(** C5. A literal table that names an operation absent from the registry
    is never turned into a policy table, whole or partial: the builder
    returns no value on it. Where the table otherwise keeps the data model's
    invariants (probabilities in [[0, 1]], integer levels from 0 to 10), what
    the builder raises is the unknown-operation error, the KeyError of the
    registry lookup, for a name of the table that is not registered; the
    name is neither skipped nor replaced. *)
Theorem unknown_operation_aborts_build (table : list (list triple)) (w : world) :
  (∃ row t, row ∈ table ∧ t ∈ row ∧ autoaugment_map !! name_of t = None) →
  (∀ v w', build_policy table w ≠ (Ok v, w'))
  ∧ (Forall (Forall (λ t, well_formed t = true)) table →
     ∃ row t w', row ∈ table ∧ t ∈ row ∧ autoaugment_map !! name_of t = None
                 ∧ build_policy table w = (Err (KeyError (name_of t)), w')).
Proof.
  intros (row & t & Hrow & Ht & Hn).
  assert (Hnot : ¬ Forall (Forall registered) table).
  { intros HF. rewrite Forall_forall in HF. specialize (HF row Hrow).
    rewrite Forall_forall in HF. destruct (HF t Ht) as [x Hx].
    rewrite Hn in Hx. discriminate. }
  split.
  - intros v w' E. apply Hnot. unfold build_policy in E.
    apply bind_inv_ok in E as (r & w1 & E & _).
    eapply outer_loop_ok_registered; eauto.
  - intros Hwf.
    destruct (outer_loop_well_formed table Hwf) as [[rows Hr]|(row' & u & Hrow' & Hu & Hn' & Hrun)].
    + exfalso. apply Hnot. rewrite mapM_Some in Hr.
      apply Forall_forall. intros r Hin.
      destruct (proj1 (list_elem_of_lookup _ _) Hin) as [i Hi].
      destruct (Forall2_lookup_l _ _ _ _ _ Hr Hi) as (insts & _ & Hm).
      rewrite mapM_Some in Hm. apply Forall_forall. intros x Hx.
      destruct (proj1 (list_elem_of_lookup _ _) Hx) as [j Hj].
      destruct (Forall2_lookup_l _ _ _ _ _ Hm Hj) as (o & _ & Ho).
      eapply resolved_registered; eauto.
    + destruct (Hrun [] w) as [w' Hw'].
      exists row', u, w'. split; [exact Hrow' |]. split; [exact Hu |].
      split; [exact Hn' |]. unfold build_policy.
      change (for_each table [] _) with (for_each table [] build_row).
      now rewrite (bind_err _ _ _ _ _ Hw').
Qed.

(** *** Validation at construction *)

(** C6, as the code has it. The one check at construction is the base
    constructor's, on the probability: a well-called constructor with a
    probability outside [[0, 1]] raises the invalid-parameter error before it
    stores any field, and with a probability inside it succeeds whatever the
    magnitude is, storing the magnitude as given. *)
Theorem construction_validates_probability_only (c : pyclass)
    (magnitude : option value) (p : pynum) (w : world) :
  well_called c magnitude = true →
  (valid_prob p = false →
     construct c magnitude p w
     = (Err InvalidParameter, with_heap (heap w ++ [{| cls := c; dict := ∅ |}]) w))
  ∧ (valid_prob p = true →
     construct c magnitude p w
     = (Ok (VRef (length (heap w))), with_heap (heap w ++ [instance_of c magnitude p]) w)).
Proof.
  intros Hc. split; intros Hp.
  - now apply construct_invalid.
  - now apply construct_valid.
Qed.

Lemma construction_validates_probability_only_witness :
  construct Posterize (Some (VNum (PyInt 1))) p1_5 world0
  = (Err InvalidParameter, with_heap [{| cls := Posterize; dict := ∅ |}] world0)
  ∧ construct Posterize (Some (VNum (PyInt 1))) p0_4 world0
    = (Ok (VRef 0%nat),
       with_heap [instance_of Posterize (Some (VNum (PyInt 1))) p0_4] world0).
Proof.
  split.
  - apply (proj1 (construction_validates_probability_only
                    Posterize (Some (VNum (PyInt 1))) p1_5 world0 eq_refl)).
    vm_compute. reflexivity.
  - apply (proj2 (construction_validates_probability_only
                    Posterize (Some (VNum (PyInt 1))) p0_4 world0 eq_refl)).
    vm_compute. reflexivity.
Defined.

(** A level far outside [[0, 10]] goes through the builder: level 100
    gives [Posterize(bits=-36, p=1.0)], and no exception. *)
Lemma level_out_of_range_is_constructed :
  build_policy [[("Posterize"%string, p1_0, PyInt 100)]] world0
  = (Ok (VList [VList [VRef 0%nat]]),
     with_heap [instance_of Posterize (Some (VNum (PyInt (-36)))) p1_0] world0).
Proof. vm_compute. reflexivity. Qed.

(** *** A table with an unknown name *)

Lemma unknown_operation_aborts_build_witness :
  (∀ v w', build_policy bogus_table world0 ≠ (Ok v, w'))
  ∧ ∃ row t w', row ∈ bogus_table ∧ t ∈ row ∧ autoaugment_map !! name_of t = None
                ∧ build_policy bogus_table world0 = (Err (KeyError (name_of t)), w').
Proof.
  assert (H : ∃ row t, row ∈ bogus_table ∧ t ∈ row ∧ autoaugment_map !! name_of t = None).
  { exists [("Solarize", p0_6, PyInt 5); ("Cutout", p0_6, PyInt 5)]%string,
           ("Cutout"%string, p0_6, PyInt 5).
    split; [right; left |]. split; [right; left | reflexivity]. }
  destruct (unknown_operation_aborts_build bogus_table world0 H) as [Hno Hkey].
  split; [exact Hno |]. apply Hkey.
  repeat constructor.
Defined.

Example bogus_table_raises :
  (build_policy bogus_table world0).1 = Err (KeyError "Cutout").
Proof. vm_compute. reflexivity. Qed.

(** ** The registry *)

(** C3. The rules of the registry, name by name: the two shears rescale
    the level as a float into 0.3, the two translations as an integer into
    10, the rotation as an integer into 30; Solarize takes 256 minus the
    level rescaled as an integer into 256, Posterize 4 minus the level
    rescaled into 4; Contrast, Color (the class Saturation), Brightness and
    Sharpness add 0.1 to the level rescaled as a float into 1.8, so level 0
    gives the factor 0.1 and not zero; Invert, AutoContrast and Equalize have
    no rule. These fourteen names are all the registry knows. *)
Theorem registry_rules :
  has_rule "ShearX" ShearX (λ level, rescale_float level (PyFloat Py.f0_3) (PyInt 10))
  ∧ has_rule "ShearY" ShearY (λ level, rescale_float level (PyFloat Py.f0_3) (PyInt 10))
  ∧ has_rule "TranslateX" TranslateX (λ level, rescale_int level (PyInt 10) (PyInt 10))
  ∧ has_rule "TranslateY" TranslateY (λ level, rescale_int level (PyInt 10) (PyInt 10))
  ∧ has_rule "Rotate" Rotate (λ level, rescale_int level (PyInt 30) (PyInt 10))
  ∧ has_rule "Solarize" Solarize
      (λ level, r ← rescale_int level (PyInt 256) (PyInt 10); Py.sub (PyInt 256) r)
  ∧ has_rule "Posterize" Posterize
      (λ level, r ← rescale_int level (PyInt 4) (PyInt 10); Py.sub (PyInt 4) r)
  ∧ (∀ name c, (name, c) ∈ [("Contrast", Contrast); ("Color", Saturation);
                            ("Brightness", Brightness); ("Sharpness", Sharpness)]%string →
       has_rule name c
         (λ level, r ← rescale_float level (PyFloat Py.f1_8) (PyInt 10);
                   Py.add r (PyFloat Py.f0_1))
       ∧ ∃ f, autoaugment_map !! name = Some (c, Some f)
              ∧ f (PyInt 0) = Ok (PyFloat Py.f0_1)
              ∧ Py.is_zero Py.f0_1 = false)
  ∧ no_rule "Invert" Invert
  ∧ no_rule "AutoContrast" AutoContrast
  ∧ no_rule "Equalize" Equalize
  ∧ ∀ name, is_Some (autoaugment_map !! name) ↔ name ∈ registered_names.
Proof.
  repeat match goal with
         | |- has_rule _ _ _ ∧ _ => split; [eexists; split; [reflexivity | reflexivity] |]
         | |- no_rule _ _ ∧ _ => split; [reflexivity |]
         end.
  split.
  - intros name c Hin.
    repeat (apply elem_of_cons in Hin as [Hin|Hin];
            [injection Hin as -> ->;
             split; [eexists; split; reflexivity
                    | eexists; split; [reflexivity | split; [vm_compute |]; reflexivity]] |]).
    now apply elem_of_nil in Hin.
  - repeat match goal with
           | |- no_rule _ _ ∧ _ => split; [reflexivity |]
           end.
    intros name. split.
    + intros [[c r] H]. apply elem_of_list_to_map_2 in H.
      repeat (apply elem_of_cons in H as [H|H];
              [injection H as -> _ _; unfold registered_names;
               repeat first [apply list_elem_of_here | apply list_elem_of_further] |]).
      now apply elem_of_nil in H.
    + intros H. unfold registered_names in H.
      repeat (apply elem_of_cons in H as [->|H]; [eexists; reflexivity |]).
      now apply elem_of_nil in H.
Qed.

(** The parameters of the first and of the fifteenth sub-policy. *)
Example first_sub_policy_parameters :
  posterize_rule (PyInt 8) = Ok (PyInt 1)
  ∧ rotate_rule (PyInt 9) = Ok (PyInt 27)
  ∧ enhance_rule (PyInt 4) = Ok (PyFloat (S754_finite false 7385903388887613 (-53)))
  ∧ enhance_rule (PyInt 8) = Ok (PyFloat (S754_finite false 6935543426150564 (-52))).
Proof. vm_compute. repeat split. Qed.

(** ** The executor on concrete worlds *)

Lemma world_auto_policy :
  has_policy world_auto (VRef 50%nat) (ref_rows 0 policy_list).
Proof.
  eexists 50%nat, _. split; [reflexivity |].
  split; [vm_compute; reflexivity |]. vm_compute. reflexivity.
Qed.

Lemma world_empty_policy : has_policy world_empty (VRef 0%nat) [].
Proof.
  eexists 0%nat, _. split; [reflexivity |].
  split; [vm_compute; reflexivity |]. vm_compute. reflexivity.
Qed.

(** The first draw of [world_auto] selects the fourth sub-policy, two
    Posterize steps; both gates fire. *)
Lemma call_runs_selected_steps_in_order_witness :
  ∃ fired,
    spec_steps sym_pil [VRef 6%nat; VRef 7%nat] [] (advance world_auto) fired
      (Ok [ImageOps_posterize (VNum (PyInt 2)); ImageOps_posterize (VNum (PyInt 2))])
      (advance_n 3 world_auto).
Proof.
  assert (Hne : ref_rows 0 policy_list ≠ []) by discriminate.
  destruct (call_runs_selected_steps_in_order sym_pil (VRef 50%nat) [] world_auto
              (ref_rows 0 policy_list) world_auto_policy Hne) as (_ & _ & _ & H & _).
  destruct (H [VRef 6%nat; VRef 7%nat] eq_refl) as [Hiff _].
  apply Hiff. vm_compute. reflexivity.
Defined.

Lemma world_auto_magnitudes : number_magnitudes world_auto.
Proof.
  unfold number_magnitudes. apply (bool_decide_eq_true_1 _). vm_compute. reflexivity.
Defined.

(** On [world_auto] both paths leave the fifty-one instances as they are. *)
Lemma apply_paths_leave_store_unchanged_witness :
  heap (AutoAugment_call sym_pil (VRef 50%nat) [] world_auto).2 = heap world_auto
  ∧ heap (AutoAugment_check sym_pil None (λ c _ _ _, Some c) (VRef 50%nat) [] world_auto).2
    = heap world_auto
  ∧ ∀ pol g operation w',
      sample pol {| heap := heap world_auto; rng := g |} ≠ (Err (Unsupported operation), w').
Proof.
  exact (apply_paths_leave_store_unchanged sym_pil None (λ c _ _ _, Some c)
           (VRef 50%nat) [] world_auto world_auto_magnitudes).
Defined.

Lemma empty_policy_raises_nonempty_selects_witness :
  (AutoAugment_call sym_pil (VRef 0%nat) [] world_empty = (Err IndexError, world_empty)
   ∧ AutoAugment_check sym_pil None (λ c _ _ _, Some c) (VRef 0%nat) [] world_empty
     = (Err IndexError, world_empty))
  ∧ ∃ sel, random_choice (VList (ref_rows 0 policy_list)) world_auto
           = (Ok sel, advance world_auto)
           ∧ sel ∈ ref_rows 0 policy_list.
Proof.
  split.
  - apply (proj1 (empty_policy_raises_nonempty_selects sym_pil None (λ c _ _ _, Some c)
                    (VRef 0%nat) [] world_empty [] world_empty_policy)).
    reflexivity.
  - apply (proj2 (empty_policy_raises_nonempty_selects sym_pil None (λ c _ _ _, Some c)
                    (VRef 50%nat) [] world_auto _ world_auto_policy)).
    discriminate.
Defined.

(** The diagnostic path on the same world: the same image, one trace entry
    per step, three draws in all. *)
Example check_on_world_auto :
  match AutoAugment_check sym_pil None (λ c _ _ _, Some c) (VRef 50%nat) [] world_auto with
  | (Ok (out, log), w') =>
      out = [ImageOps_posterize (VNum (PyInt 2)); ImageOps_posterize (VNum (PyInt 2))]
      ∧ (λ e, (e.1.1, e.2)) <$> log = [(VRef 6%nat, Some Posterize); (VRef 7%nat, Some Posterize)]
      ∧ cursor (rng w') = 3%nat
  | (Err _, _) => False
  end.
Proof. vm_compute. repeat split. Qed.


(** ** Exact cases of binary64 rounding *)

Lemma iter_pos_iter {A} (f : A → A) p x : SpecFloat.iter_pos f p x = Pos.iter f x p.
Proof.
  revert x. induction p as [p IH|p IH|]; intros x; simpl.
  - rewrite !IH. now rewrite <- !Pos.iter_swap.
  - now rewrite !IH.
  - reflexivity.
Qed.

Lemma digits2_size p : digits2_pos p = Pos.size p.
Proof. induction p; simpl; congruence. Qed.

(** [d] digits: [2^(d-1) ≤ p < 2^d]. *)
Lemma digits2_bounds p :
  2 ^ (Z.pos (digits2_pos p) - 1) ≤ Z.pos p < 2 ^ Z.pos (digits2_pos p).
Proof.
  rewrite digits2_size. split.
  - pose proof (Pos.size_le p) as H.
    assert (Z.pos (2 ^ Pos.size p) ≤ Z.pos p~0) as H' by exact H.
    rewrite Pos2Z.inj_pow in H'.
    replace (Z.pos (Pos.size p)) with (Z.succ (Z.pos (Pos.size p) - 1)) in H' by lia.
    rewrite Z.pow_succ_r in H' by lia. lia.
  - pose proof (Pos.size_gt p) as H.
    assert (Z.pos p < Z.pos (2 ^ Pos.size p)) as H' by exact H.
    now rewrite Pos2Z.inj_pow in H'.
Qed.

Lemma digits2_unique p d :
  2 ^ (d - 1) ≤ Z.pos p < 2 ^ d → Z.pos (digits2_pos p) = d.
Proof.
  intros [Hlo Hhi]. pose proof (digits2_bounds p) as [Hlo' Hhi'].
  assert (0 < d).
  { destruct (Z.ltb_spec 0 d); [assumption |].
    destruct (Z.eqb_spec d 0); [subst; simpl in Hhi; lia |].
    rewrite Z.pow_neg_r in Hhi by lia. lia. }
  destruct (Z.lt_trichotomy (Z.pos (digits2_pos p)) d) as [Hlt|[Heq|Hgt]]; [| exact Heq |].
  - assert (2 ^ Z.pos (digits2_pos p) ≤ 2 ^ (d - 1)) by (apply Z.pow_le_mono_r; lia). lia.
  - assert (2 ^ d ≤ 2 ^ (Z.pos (digits2_pos p) - 1)) by (apply Z.pow_le_mono_r; lia). lia.
Qed.

Lemma iter_xO_spec p k : Z.pos (Pos.iter xO p k) = Z.pos p * 2 ^ Z.pos k.
Proof.
  induction k as [|k IH] using Pos.peano_ind.
  - simpl. lia.
  - rewrite Pos.iter_succ, Pos2Z.inj_succ, Z.pow_succ_r by lia.
    rewrite Pos2Z.inj_xO, IH. lia.
Qed.

Lemma shr_iter_xO m k :
  Pos.iter shr_1 {| shr_m := Z.pos (Pos.iter xO m k); shr_r := false; shr_s := false |} k
  = {| shr_m := Z.pos m; shr_r := false; shr_s := false |}.
Proof.
  induction k as [|k IH] using Pos.peano_ind.
  - reflexivity.
  - rewrite Pos.iter_succ_r. rewrite (Pos.iter_succ k _ xO). exact IH.
Qed.

Lemma fexp64 e : fexp Py.prec Py.emax e = Z.max (e - 53) (-1074).
Proof. reflexivity. Qed.

(** A mantissa of 53 digits with an exponent in range is returned as it is. *)
Lemma round_aux_canonical s m e :
  Z.pos (digits2_pos m) = 53 → -1074 ≤ e ≤ 971 →
  binary_round_aux Py.prec Py.emax s (Z.pos m) e loc_Exact = S754_finite s m e.
Proof.
  intros Hd He. unfold binary_round_aux, shr_fexp. simpl Zdigits2.
  rewrite Hd, fexp64.
  replace (Z.max (53 + e - 53) (-1074) - e) with 0 by lia.
  simpl. rewrite Hd, fexp64.
  replace (Z.max (53 + e - 53) (-1074) - e) with 0 by lia.
  simpl. destruct (Z.leb_spec e (Py.emax - Py.prec)); [reflexivity |].
  unfold Py.emax, Py.prec in *. lia.
Qed.

(** So is a 53-digit mantissa followed by [k] zero bits, [k] added to the
    exponent. *)
Lemma round_aux_trailing s m M k e :
  Z.pos (digits2_pos m) = 53 → 0 ≤ k → Z.pos M = Z.pos m * 2 ^ k →
  -1074 ≤ e + k ≤ 971 →
  binary_round_aux Py.prec Py.emax s (Z.pos M) e loc_Exact = S754_finite s m (e + k).
Proof.
  intros Hd Hk HM He. destruct k as [|k|k]; [| | lia].
  - rewrite Z.mul_1_r in HM. injection HM as ->. rewrite Z.add_0_r in *.
    now apply round_aux_canonical.
  - rewrite <- iter_xO_spec in HM. injection HM as ->.
    assert (HD : Z.pos (digits2_pos (Pos.iter xO m k)) = 53 + Z.pos k).
    { apply digits2_unique. rewrite iter_xO_spec.
      pose proof (digits2_bounds m) as [Hlo Hhi]. rewrite Hd in Hlo, Hhi.
      replace (53 + Z.pos k - 1) with (52 + Z.pos k) by lia.
      rewrite !Z.pow_add_r by lia. simpl in Hlo. split; nia. }
    unfold binary_round_aux, shr_fexp. simpl Zdigits2.
    rewrite HD, fexp64.
    replace (Z.max (53 + Z.pos k + e - 53) (-1074) - e) with (Z.pos k) by lia.
    unfold shr at 1. simpl shr_record_of_loc. rewrite iter_pos_iter, shr_iter_xO.
    simpl. rewrite Hd, fexp64.
    replace (Z.max (53 + (e + Z.pos k) - 53) (-1074) - (e + Z.pos k)) with 0 by lia.
    simpl. destruct (Z.leb_spec (e + Z.pos k) (Py.emax - Py.prec)); [reflexivity |].
    unfold Py.emax, Py.prec in *. lia.
Qed.

Lemma shl_align_spec m e e' :
  e' ≤ e →
  ∃ M, shl_align m e e' = (M, e') ∧ Z.pos M = Z.pos m * 2 ^ (e - e').
Proof.
  intros Hle. unfold shl_align. destruct (e' - e) as [|d|d] eqn:Hd; [| lia |].
  - exists m. assert (e' = e) as -> by lia. rewrite Z.sub_diag. split; [reflexivity | simpl; lia].
  - exists (Pos.iter xO m d). split; [reflexivity |].
    rewrite iter_xO_spec. f_equal. f_equal. lia.
Qed.

Lemma Zdigits2_bounds z :
  z ≠ 0 → 2 ^ (Zdigits2 z - 1) ≤ Z.abs z < 2 ^ Zdigits2 z.
Proof. destruct z as [|p|p]; [done | |]; intros _; apply digits2_bounds. Qed.

Lemma Zdigits2_small z : z ≠ 0 → Z.abs z < 2 ^ 53 → 1 ≤ Zdigits2 z ≤ 53.
Proof.
  intros Hz Hlt. pose proof (Zdigits2_bounds z Hz) as [Hlo Hhi].
  assert (0 < Zdigits2 z) by (destruct z; [done | |]; simpl; lia).
  split; [lia |].
  destruct (Z.leb_spec (Zdigits2 z) 53); [assumption |].
  assert (2 ^ 53 ≤ 2 ^ (Zdigits2 z - 1)) by (apply Z.pow_le_mono_r; lia). lia.
Qed.

Lemma Z2SF_normal z : z ≠ 0 → Z.abs z < 2 ^ 53 → normal_of z (Py.Z2SF z).
Proof.
  intros Hz Hlt. pose proof (Zdigits2_small z Hz Hlt) as Hd.
  pose proof (Zdigits2_bounds z Hz) as Hb.
  assert (Hgen : ∀ s p, Z.pos p = Z.abs z → Z.pos (digits2_pos p) = Zdigits2 z →
            ∃ M, binary_round Py.prec Py.emax s p 0 = S754_finite s M (Zdigits2 z - 53)
                 ∧ Z.pos (digits2_pos M) = 53
                 ∧ Z.pos M = Z.abs z * 2 ^ (53 - Zdigits2 z)).
  { intros s p Hp Hdp. unfold binary_round. rewrite Hdp, fexp64.
    replace (Z.max (Zdigits2 z + 0 - 53) (-1074)) with (Zdigits2 z - 53) by lia.
    destruct (shl_align_spec p 0 (Zdigits2 z - 53)) as (M & -> & HM); [lia |].
    replace (0 - (Zdigits2 z - 53)) with (53 - Zdigits2 z) in HM by lia.
    rewrite Hp in HM.
    assert (HD : Z.pos (digits2_pos M) = 53).
    { apply digits2_unique. rewrite HM.
      replace (2 ^ (53 - 1)) with (2 ^ (Zdigits2 z - 1) * 2 ^ (53 - Zdigits2 z))
        by (rewrite <- Z.pow_add_r by lia; f_equal; lia).
      replace (2 ^ 53) with (2 ^ Zdigits2 z * 2 ^ (53 - Zdigits2 z))
        by (rewrite <- Z.pow_add_r by lia; f_equal; lia).
      assert (0 < 2 ^ (53 - Zdigits2 z)) by (apply Z.pow_pos_nonneg; lia).
      split; nia. }
    exists M. split; [| split; assumption].
    apply round_aux_canonical; [assumption | lia]. }
  unfold normal_of, Py.Z2SF, binary_normalize.
  destruct z as [|p|p]; [done | |]; apply Hgen; reflexivity.
Qed.

Lemma normal_of_unique z f g : normal_of z f → normal_of z g → f = g.
Proof.
  intros (M & -> & _ & HM) (N & -> & _ & HN).
  rewrite <- HN in HM. now injection HM as ->.
Qed.

(** The product of two small integers is formed without rounding. *)
Lemma fmul_normal a b fa fb :
  a ≠ 0 → b ≠ 0 → Z.abs (a * b) < 2 ^ 53 →
  normal_of a fa → normal_of b fb → normal_of (a * b) (Py.fmul fa fb).
Proof.
  intros Ha Hb Hab (Ma & -> & HDa & HMa) (Mb & -> & HDb & HMb).
  assert (Hz : a * b ≠ 0) by lia.
  pose proof (Zdigits2_small _ Hz Hab) as Hdab.
  pose proof (Zdigits2_bounds _ Hz) as Hbab.
  pose proof (Zdigits2_bounds _ Ha) as Hba.
  pose proof (Zdigits2_bounds _ Hb) as Hbb.
  assert (Hda : 0 < Zdigits2 a) by (destruct a; [done | |]; simpl; lia).
  assert (Hdb : 0 < Zdigits2 b) by (destruct b; [done | |]; simpl; lia).
  assert (Hsum : Zdigits2 a + Zdigits2 b - 1 ≤ Zdigits2 (a * b) ≤ Zdigits2 a + Zdigits2 b).
  { rewrite Z.abs_mul in Hbab.
    assert (H1 : 2 ^ (Zdigits2 a - 1) * 2 ^ (Zdigits2 b - 1) ≤ Z.abs a * Z.abs b)
      by (apply Z.mul_le_mono_nonneg; lia).
    rewrite <- Z.pow_add_r in H1 by lia.
    assert (H2 : Z.abs a * Z.abs b < 2 ^ Zdigits2 a * 2 ^ Zdigits2 b)
      by (apply Z.mul_lt_mono_nonneg; lia).
    rewrite <- Z.pow_add_r in H2 by lia.
    split.
    - destruct (Z.leb_spec (Zdigits2 a + Zdigits2 b - 1) (Zdigits2 (a * b))); [assumption |].
      assert (2 ^ Zdigits2 (a * b) ≤ 2 ^ (Zdigits2 a - 1 + (Zdigits2 b - 1)))
        by (apply Z.pow_le_mono_r; lia). lia.
    - destruct (Z.leb_spec (Zdigits2 (a * b)) (Zdigits2 a + Zdigits2 b)); [assumption |].
      assert (2 ^ (Zdigits2 a + Zdigits2 b) ≤ 2 ^ (Zdigits2 (a * b) - 1))
        by (apply Z.pow_le_mono_r; lia). lia. }
  destruct (Z2SF_normal (a * b) Hz Hab) as (Mab & _ & HDab & HMab).
  exists Mab. split; [| split; assumption].
  unfold Py.fmul, SFmul.
  replace (xorb (a <? 0) (b <? 0)) with (a * b <? 0).
  2:{ destruct (Z.ltb_spec a 0), (Z.ltb_spec b 0), (Z.ltb_spec (a * b) 0); simpl; try reflexivity; nia. }
  replace (Zdigits2 (a * b) - 53)
    with (Zdigits2 a - 53 + (Zdigits2 b - 53) + (53 + Zdigits2 (a * b) - Zdigits2 a - Zdigits2 b))
    by lia.
  apply round_aux_trailing; [assumption | lia | | lia].
  rewrite Pos2Z.inj_mul, HMa, HMb, HMab, Z.abs_mul.
  replace (Z.abs a * Z.abs b * 2 ^ (53 - Zdigits2 (a * b))
           * 2 ^ (53 + Zdigits2 (a * b) - Zdigits2 a - Zdigits2 b))
    with (Z.abs a * Z.abs b * (2 ^ (53 - Zdigits2 (a * b))
           * 2 ^ (53 + Zdigits2 (a * b) - Zdigits2 a - Zdigits2 b))) by ring.
  rewrite <- Z.pow_add_r by lia.
  replace (Z.abs a * 2 ^ (53 - Zdigits2 a) * (Z.abs b * 2 ^ (53 - Zdigits2 b)))
    with (Z.abs a * Z.abs b * (2 ^ (53 - Zdigits2 a) * 2 ^ (53 - Zdigits2 b))) by ring.
  rewrite <- Z.pow_add_r by lia.
  f_equal. f_equal. lia.
Qed.

(** ** Results that stay finite *)

Lemma Zdigits2_le z k : 0 ≤ k → Z.abs z < 2 ^ k → Zdigits2 z ≤ k.
Proof.
  intros Hk Hz. destruct (Z.eq_dec z 0) as [->|Hne]; [simpl; lia |].
  pose proof (Zdigits2_bounds z Hne) as [Hlo _].
  destruct (Z.leb_spec (Zdigits2 z) k); [assumption |].
  assert (2 ^ k ≤ 2 ^ (Zdigits2 z - 1)) by (apply Z.pow_le_mono_r; lia). lia.
Qed.

Lemma shr_1_bounds r : 0 ≤ shr_m r → 0 ≤ shr_m (shr_1 r) ≤ shr_m r.
Proof.
  destruct r as [m r s]. simpl. intros Hm.
  destruct m as [|[p|p|]|p]; simpl; lia.
Qed.

Lemma shr_bounds r e n :
  0 ≤ shr_m r →
  0 ≤ shr_m (shr r e n).1 ≤ shr_m r ∧ (shr r e n).2 = Z.max e (e + n).
Proof.
  intros Hm. unfold shr. destruct n as [|p|p]; simpl; try (split; lia).
  split; [| lia]. rewrite iter_pos_iter.
  apply Pos.iter_invariant; [| lia].
  intros x Hx. pose proof (shr_1_bounds x (proj1 Hx)). lia.
Qed.

Lemma shr_record_of_loc_m m l : shr_m (shr_record_of_loc m l) = m.
Proof. destruct l as [|[| |]]; reflexivity. Qed.

Lemma shr_fexp_bounds m e l k :
  0 ≤ k → 0 ≤ m < 2 ^ k →
  0 ≤ shr_m (shr_fexp Py.prec Py.emax m e l).1 ≤ m
  ∧ (shr_fexp Py.prec Py.emax m e l).2 ≤ Z.max e (Z.max (k + e - 53) (-1074)).
Proof.
  intros Hk Hm. unfold shr_fexp.
  pose proof (shr_bounds (shr_record_of_loc m l) e
                (fexp Py.prec Py.emax (Zdigits2 m + e) - e)) as H.
  rewrite shr_record_of_loc_m in H. destruct H as [H1 H2]; [lia |].
  split; [exact H1 |]. rewrite H2, fexp64.
  assert (Zdigits2 m ≤ k) by (apply Zdigits2_le; lia). lia.
Qed.

Lemma round_nearest_even_bounds m l : 0 ≤ m → m ≤ round_nearest_even m l ≤ m + 1.
Proof.
  intros Hm. destruct l as [|[| |]]; simpl; try lia. destruct (Z.even m); lia.
Qed.

(** Rounding a mantissa below [2^100] with an exponent of at most 100
    overflows neither to an infinity nor to NaN. *)
Lemma round_aux_stays_finite s m e l :
  0 ≤ m < 2 ^ 100 → e ≤ 100 →
  match binary_round_aux Py.prec Py.emax s m e l with
  | S754_infinity _ | S754_nan => False
  | _ => True
  end.
Proof.
  intros Hm He. unfold binary_round_aux.
  pose proof (shr_fexp_bounds m e l 100 ltac:(lia) Hm) as [Hm1 He1].
  destruct (shr_fexp Py.prec Py.emax m e l) as [mrs' e']. simpl in Hm1, He1.
  pose proof (round_nearest_even_bounds (shr_m mrs') (loc_of_shr_record mrs') (proj1 Hm1)) as Hr.
  set (m' := round_nearest_even (shr_m mrs') (loc_of_shr_record mrs')) in *.
  assert (Hm' : 0 ≤ m' < 2 ^ 101).
  { split; [lia |]. change (2 ^ 101) with (2 * 2 ^ 100). lia. }
  pose proof (shr_fexp_bounds m' e' loc_Exact 101 ltac:(lia) Hm') as [Hm2 He2].
  destruct (shr_fexp Py.prec Py.emax m' e' loc_Exact) as [mrs'' e'']. simpl in Hm2, He2.
  destruct (shr_m mrs'') as [|p|p]; [exact I | | lia].
  destruct (Z.leb_spec e'' (Py.emax - Py.prec)); [exact I |].
  unfold Py.emax, Py.prec in *. lia.
Qed.

(** ** Dividing a small integer by ten *)

Lemma div_core_shifted m1 e1 m2 e2 e' s :
  Z.min (fexp Py.prec Py.emax (Zdigits2 m1 + e1 - (Zdigits2 m2 + e2))) (e1 - e2) = e' →
  e1 - e2 - e' = s → 0 < s →
  SFdiv_core_binary Py.prec Py.emax m1 e1 m2 e2
  = (Z.shiftl m1 s / m2, e', new_location m2 (Z.shiftl m1 s mod m2)).
Proof.
  intros He' Hs Hpos. unfold SFdiv_core_binary. cbv zeta. rewrite He', Hs.
  destruct s as [|p|p]; [lia | | lia].
  unfold Z.div, Z.modulo. now destruct (Z.div_eucl _ _).
Qed.

Lemma new_location_scaled m r c :
  0 < c → Z.even m = true → new_location (m * c) (r * c) = new_location m r.
Proof.
  intros Hc Hm. unfold new_location. rewrite Z.even_mul, Hm. simpl.
  unfold new_location_even.
  replace (r * c =? 0) with (r =? 0)
    by (destruct (Z.eqb_spec r 0), (Z.eqb_spec (r * c) 0); try reflexivity; nia).
  destruct (r =? 0); [reflexivity |]. f_equal.
  replace (2 * (r * c)) with (2 * r * c) by ring.
  symmetry. apply Zmult_compare_compat_r. lia.
Qed.

Lemma Z2SF_ten : Py.Z2SF 10 = ten.
Proof. reflexivity. Qed.

(** Dividing the double of a small integer by the double 10.0 is dividing
    the two integers. *)
Lemma fdiv_ten_normal n f :
  n ≠ 0 → Z.abs n < 2 ^ 53 → normal_of n f →
  Py.fdiv f ten
  = Py.fdiv (S754_finite (n <? 0) (Z.to_pos (Z.abs n)) 0) (S754_finite false 10 0).
Proof.
  intros Hn Hlt (M & -> & HD & HM).
  pose proof (Zdigits2_small n Hn Hlt) as Hd.
  assert (Hdn : Zdigits2 (Z.pos (Z.to_pos (Z.abs n))) = Zdigits2 n)
    by (destruct n; [done | |]; reflexivity).
  assert (Habs : Z.pos (Z.to_pos (Z.abs n)) = Z.abs n) by (apply Z2Pos.id; lia).
  unfold Py.fdiv, SFdiv, ten.
  rewrite (div_core_shifted (Z.pos M) (Zdigits2 n - 53) (Z.pos 5629499534213120) (-49)
             (Zdigits2 n - 57) 53).
  2:{ simpl Zdigits2. rewrite HD. change (Z.pos (digits2_pos 5629499534213120)) with 53.
      rewrite fexp64. lia. }
  2, 3: lia.
  rewrite (div_core_shifted (Z.pos (Z.to_pos (Z.abs n))) 0 (Z.pos 10) 0
             (Zdigits2 n - 57) (57 - Zdigits2 n)).
  2:{ rewrite Hdn. change (Zdigits2 (Z.pos 10)) with 4. rewrite fexp64. lia. }
  2, 3: lia.
  rewrite !Z.shiftl_mul_pow2 by lia. rewrite Habs, HM.
  set (X := Z.abs n * 2 ^ (57 - Zdigits2 n)).
  replace (Z.abs n * 2 ^ (53 - Zdigits2 n) * 2 ^ 53) with (X * 2 ^ 49).
  2:{ unfold X. rewrite <- !Z.mul_assoc, <- !Z.pow_add_r by lia. f_equal. f_equal. lia. }
  change (Z.pos 5629499534213120) with (10 * 2 ^ 49).
  rewrite Z.div_mul_cancel_r by lia.
  rewrite Z.mul_mod_distr_r by lia.
  rewrite new_location_scaled by (reflexivity || lia).
  reflexivity.
Qed.

(** ** The rescaling functions against [L*M/10] *)

Lemma round_aux_sign s m e l :
  match binary_round_aux Py.prec Py.emax s m e l with
  | S754_zero s' | S754_infinity s' | S754_finite s' _ _ => s' = s
  | S754_nan => True
  end.
Proof.
  unfold binary_round_aux.
  destruct (shr_fexp _ _ m e l) as [mrs' e'].
  destruct (shr_fexp _ _ _ e' loc_Exact) as [mrs'' e''].
  destruct (shr_m mrs''); auto.
  now destruct (e'' <=? _).
Qed.

Lemma round_aux_not_negative m e l :
  not_negative (binary_round_aux Py.prec Py.emax false m e l) = true.
Proof.
  pose proof (round_aux_sign false m e l) as H.
  destruct (binary_round_aux _ _ _ _ _ _); simpl; try reflexivity; now subst.
Qed.

Lemma Z2SF_not_negative z : 0 ≤ z → not_negative (Py.Z2SF z) = true.
Proof.
  intros Hz. unfold Py.Z2SF, binary_normalize.
  destruct z as [|p|p]; [reflexivity | | lia].
  unfold binary_round. destruct (shl_align _ _ _). apply round_aux_not_negative.
Qed.

Lemma leb_zero_int z : Py.leb (PyInt 0) (PyInt z) = true → 0 ≤ z.
Proof.
  unfold Py.leb, Py.compare. destruct (Z.compare_spec 0 z); [lia | lia | discriminate].
Qed.

Lemma as_float_not_negative x f :
  Py.leb (PyInt 0) x = true → Py.as_float x = Ok f → not_negative f = true.
Proof.
  destruct x as [z|g]; simpl.
  - intros Hle. unfold Py.float_of_int.
    pose proof (Z2SF_not_negative z (leb_zero_int z Hle)) as Hn.
    destruct (Py.Z2SF z); intros [= <-]; exact Hn.
  - intros Hle [= <-]. unfold Py.leb, Py.compare, Py.compare_float_int in Hle.
    destruct g as [s|s| |s m e]; try reflexivity; try discriminate.
    + now destruct s.
    + destruct s; [| reflexivity]. simpl in Hle.
      destruct (0 <=? e); simpl in Hle.
      * assert (Z.shiftl (Z.neg m) e < 0) by (apply (proj2 (Z.shiftl_neg _ _)); lia).
        apply (proj2 (Z.compare_lt_iff _ _)) in H.
        change (- Z.pos m) with (Z.neg m) in Hle. rewrite H in Hle. discriminate.
      * rewrite Z.shiftl_0_l in Hle. discriminate.
Qed.

Lemma fmul_not_negative x y :
  not_negative x = true → not_negative y = true → not_negative (Py.fmul x y) = true.
Proof.
  destruct x as [sx|sx| |sx mx ex], y as [sy|sy| |sy my ey]; simpl;
    try reflexivity; try discriminate;
    try (destruct sx; try discriminate); try (destruct sy; try discriminate);
    try reflexivity.
  intros _ _. apply round_aux_not_negative.
Qed.

Lemma fdiv_not_negative x y :
  not_negative x = true → not_negative y = true → Py.is_zero y = false →
  not_negative (Py.fdiv x y) = true.
Proof.
  destruct x as [sx|sx| |sx mx ex], y as [sy|sy| |sy my ey]; simpl;
    try reflexivity; try discriminate;
    try (destruct sx; try discriminate); try (destruct sy; try discriminate);
    try reflexivity.
  intros _ _ _. unfold Py.fdiv, SFdiv.
  destruct (SFdiv_core_binary _ _ _ _ _ _) as [[mz ez] lz].
  apply round_aux_not_negative.
Qed.

Lemma int_truediv_not_negative a b f :
  0 ≤ a → 0 < b → Py.int_truediv a b = Ok f → not_negative f = true.
Proof.
  intros Ha Hb. unfold Py.int_truediv.
  destruct (b =? 0) eqn:Eb; [discriminate |].
  destruct (a =? 0) eqn:Ea.
  - intros [= <-]. simpl. now destruct (b <? 0).
  - assert (Hsa : (a <? 0) = false) by (apply Z.ltb_ge; lia).
    assert (Hsb : (b <? 0) = false) by (apply Z.ltb_ge; lia).
    rewrite Hsa, Hsb.
    assert (Hn : not_negative (Py.fdiv (S754_finite false (Z.to_pos (Z.abs a)) 0)
                                       (S754_finite false (Z.to_pos (Z.abs b)) 0)) = true)
      by (now apply fdiv_not_negative).
    destruct (Py.fdiv _ _); intros [= <-]; exact Hn.
Qed.

(** The quotient [L*M/10] of two operands that are not below zero is a
    float that is not below zero. *)
Lemma product_over_ten_not_negative L M x :
  Py.leb (PyInt 0) L = true → Py.leb (PyInt 0) M = true →
  product_over_ten L M = Ok x →
  ∃ f, x = PyFloat f ∧ not_negative f = true.
Proof.
  intros HL HM. unfold product_over_ten.
  assert (Hten : Py.as_float (PyInt 10) = Ok (Py.Z2SF 10)) by reflexivity.
  assert (Hmixed : ∀ fl fm, Py.as_float L = Ok fl → Py.as_float M = Ok fm →
            Py.truediv (PyFloat (Py.fmul fl fm)) (PyInt 10) = Ok x →
            ∃ f, x = PyFloat f ∧ not_negative f = true).
  { intros fl fm El Em. unfold Py.truediv. rewrite Hten. simpl.
    intros [= <-]. eexists. split; [reflexivity |].
    apply fdiv_not_negative; [| reflexivity | reflexivity].
    apply fmul_not_negative;
      [apply (as_float_not_negative L) | apply (as_float_not_negative M)]; assumption. }
  destruct L as [a|fl], M as [b|fm]; simpl.
  - pose proof (leb_zero_int a HL) as Ha. pose proof (leb_zero_int b HM) as Hb.
    destruct (Py.int_truediv (a * b) 10) as [f|] eqn:E; [| discriminate].
    intros [= <-]. exists f. split; [reflexivity |].
    eapply int_truediv_not_negative; [| | exact E]; lia.
  - destruct (Py.float_of_int a) as [fl|] eqn:El; [| discriminate]. simpl.
    now apply (Hmixed fl fm).
  - destruct (Py.float_of_int b) as [fm|] eqn:Em; [| discriminate]. simpl.
    now apply (Hmixed fl fm).
  - now apply (Hmixed fl fm).
Qed.

Lemma trunc_floor_not_negative f :
  not_negative f = true → Py.trunc f = Py.floor_float f.
Proof. destruct f as [s|s| |[|] m e]; simpl; try reflexivity; discriminate. Qed.

(** With a float among its operands [rescale_float] evaluates [L*M/10]
    operation for operation. *)
Lemma rescale_float_mixed L M :
  Py.is_float L || Py.is_float M = true →
  rescale_float L M (PyInt 10) = product_over_ten L M.
Proof.
  unfold rescale_float, product_over_ten, Py.float_.
  destruct L as [a|fl], M as [b|fm]; simpl; try discriminate; intros _.
  - destruct (Py.float_of_int a); reflexivity.
  - reflexivity.
  - reflexivity.
Qed.

(** ** [rescale_float] on two integers *)

Lemma float_of_int_small z :
  Z.abs z < 2 ^ 53 → Py.float_of_int z = Ok (Py.Z2SF z).
Proof.
  intros Hz. unfold Py.float_of_int.
  destruct (Z.eq_dec z 0) as [->|Hne]; [reflexivity |].
  now destruct (Z2SF_normal z Hne Hz) as (M & -> & _).
Qed.

Lemma fdiv_raw_stays_finite s n :
  n ≠ 0 → Z.abs n < 2 ^ 53 →
  match Py.fdiv (S754_finite s (Z.to_pos (Z.abs n)) 0) (S754_finite false 10 0) with
  | S754_infinity _ | S754_nan => False
  | _ => True
  end.
Proof.
  intros Hn Hlt. pose proof (Zdigits2_small n Hn Hlt) as Hd.
  pose proof (Zdigits2_bounds n Hn) as Hb.
  assert (Hdn : Zdigits2 (Z.pos (Z.to_pos (Z.abs n))) = Zdigits2 n)
    by (destruct n; [done | |]; reflexivity).
  assert (Habs : Z.pos (Z.to_pos (Z.abs n)) = Z.abs n) by (apply Z2Pos.id; lia).
  unfold Py.fdiv, SFdiv.
  rewrite (div_core_shifted (Z.pos (Z.to_pos (Z.abs n))) 0 (Z.pos 10) 0
             (Zdigits2 n - 57) (57 - Zdigits2 n)).
  2:{ rewrite Hdn. change (Zdigits2 (Z.pos 10)) with 4. rewrite fexp64. lia. }
  2, 3: lia.
  rewrite Z.shiftl_mul_pow2, Habs by lia.
  apply round_aux_stays_finite; [| lia].
  assert (0 < 2 ^ (57 - Zdigits2 n)) by (apply Z.pow_pos_nonneg; lia).
  assert (Z.abs n * 2 ^ (57 - Zdigits2 n) < 2 ^ 57).
  { replace (2 ^ 57) with (2 ^ Zdigits2 n * 2 ^ (57 - Zdigits2 n))
      by (rewrite <- Z.pow_add_r by lia; f_equal; lia).
    nia. }
  split.
  - apply Z.div_pos; lia.
  - apply Z.div_lt_upper_bound; [lia |].
    assert (2 ^ 57 ≤ 2 ^ 100) by (apply Z.pow_le_mono_r; lia). lia.
Qed.

Lemma float_eqb_refl x :
  match x with S754_nan => False | _ => True end → Py.eqb (PyFloat x) (PyFloat x) = true.
Proof.
  unfold Py.eqb, Py.compare, SFcompare.
  destruct x as [s|s| |s m e]; try done; intros _.
  - now destruct s.
  - rewrite Z.compare_refl, Pos.compare_cont_refl. now destruct s.
Qed.

Lemma rescale_float_ints a b :
  Z.abs a < 2 ^ 53 → Z.abs b < 2 ^ 53 →
  rescale_float (PyInt a) (PyInt b) (PyInt 10)
  = Ok (PyFloat (Py.fdiv (Py.fmul (Py.Z2SF a) (Py.Z2SF b)) ten)).
Proof.
  intros Ha Hb. unfold rescale_float, Py.float_, Py.as_float.
  rewrite (float_of_int_small a Ha).
  cbn [fmap res_fmap mbind res_bind Py.mul Py.as_float].
  rewrite (float_of_int_small b Hb).
  cbn [mbind res_bind Py.truediv Py.as_float].
  change (Py.float_of_int 10) with (Ok ten).
  reflexivity.
Qed.

Lemma product_over_ten_ints a b :
  product_over_ten (PyInt a) (PyInt b) = PyFloat <$> Py.int_truediv (a * b) 10.
Proof. reflexivity. Qed.

(** On two integers whose product is exactly representable,
    [rescale_float] and [L*M/10] both return, and return floats that compare
    equal; they are the same float unless the product is zero with a negative
    operand, where one is [-0.0] and the other [0.0]. *)
Lemma rescale_float_small_ints a b :
  Z.abs a < 2 ^ 53 → Z.abs b < 2 ^ 53 → Z.abs (a * b) < 2 ^ 53 →
  ∃ x y, rescale_float (PyInt a) (PyInt b) (PyInt 10) = Ok (PyFloat x)
         ∧ product_over_ten (PyInt a) (PyInt b) = Ok (PyFloat y)
         ∧ Py.eqb (PyFloat x) (PyFloat y) = true
         ∧ (a * b ≠ 0 ∨ (0 ≤ a ∧ 0 ≤ b) → x = y).
Proof.
  intros Ha Hb Hab.
  rewrite (rescale_float_ints a b Ha Hb), product_over_ten_ints.
  destruct (Z.eq_dec (a * b) 0) as [H0|Hne].
  - rewrite H0. change (Py.int_truediv 0 10) with (Ok (S754_zero false)).
    assert (Hz : ∃ s, Py.fdiv (Py.fmul (Py.Z2SF a) (Py.Z2SF b)) ten = S754_zero s
                      ∧ (0 ≤ a ∧ 0 ≤ b → s = false)).
    { destruct (Z.eq_dec a 0) as [->|Hna].
      - destruct (Z.eq_dec b 0) as [->|Hnb]; [exists false; split; [reflexivity | auto] |].
        destruct (Z2SF_normal b Hnb Hb) as (M & -> & _).
        exists (b <? 0). split; [unfold ten; simpl; now destruct (b <? 0) |].
        intros [_ Hb0]. apply Z.ltb_ge. lia.
      - assert (b = 0) as -> by nia.
        destruct (Z2SF_normal a Hna Ha) as (M & -> & _).
        exists (a <? 0). split; [unfold ten; simpl; now destruct (a <? 0) |].
        intros [Ha0 _]. apply Z.ltb_ge. lia. }
    destruct Hz as (s & -> & Hs).
    exists (S754_zero s), (S754_zero false).
    split; [reflexivity |]. split; [reflexivity |]. split; [reflexivity |].
    intros [Hc|Hc]; [lia |]. now rewrite (Hs Hc).
  - assert (Hna : a ≠ 0) by lia. assert (Hnb : b ≠ 0) by lia.
    pose proof (fmul_normal a b _ _ Hna Hnb Hab
                  (Z2SF_normal a Hna Ha) (Z2SF_normal b Hnb Hb)) as Hn.
    rewrite (fdiv_ten_normal (a * b) _ Hne Hab Hn).
    unfold Py.int_truediv.
    change (10 =? 0) with false. cbv iota.
    destruct (Z.eqb_spec (a * b) 0) as [|_]; [lia |].
    change (10 <? 0) with false. change (Z.to_pos (Z.abs 10)) with 10%positive.
    pose proof (fdiv_raw_stays_finite (a * b <? 0) (a * b) Hne Hab) as Hfin.
    set (X := Py.fdiv (S754_finite (a * b <? 0) (Z.to_pos (Z.abs (a * b))) 0)
                      (S754_finite false 10 0)) in *.
    exists X, X. split; [reflexivity |].
    split; [destruct X; try reflexivity; contradiction |].
    split; [| reflexivity].
    apply float_eqb_refl. destruct X; try exact I; contradiction.
Qed.

Lemma leb_int_ten z : Py.leb (PyInt z) (PyInt 10) = true → z ≤ 10.
Proof.
  unfold Py.leb, Py.compare. destruct (Z.compare_spec z 10); [lia | lia | discriminate].
Qed.

(** [rescale_int] truncates the quotient it shares with [L*M/10]. *)
Lemma rescale_int_truncates L M :
  rescale_int L M (PyInt 10) = (q ← product_over_ten L M; Py.int_ q).
Proof. unfold rescale_int, product_over_ten. now destruct (Py.mul L M). Qed.

(** C2, as the code has it. For a level [L] in [[0, 10]]:
    [rescale_float(L, M)] is [float(L) * M / 10] evaluated in binary64. It is
    the value of [L*M/10], operation for operation, whenever [L] or [M] is a
    float; on two integers it returns a float equal to the value of [L*M/10]
    as long as [M] and the product [L*M] are below [2^53] in magnitude (the
    same float when [M] is not negative).
    [rescale_int(L, M)] is the value of [L*M/10] truncated toward zero, which
    is [floor(L*M/10)] whenever [M] is not below zero. *)
Theorem rescale_against_quotient (L M : pynum) :
  Py.leb (PyInt 0) L = true →
  Py.leb L (PyInt 10) = true →
  (Py.is_float L || Py.is_float M = true →
     rescale_float L M (PyInt 10) = product_over_ten L M)
  ∧ (∀ a b, L = PyInt a → M = PyInt b →
       Z.abs b < 2 ^ 53 → Z.abs (a * b) < 2 ^ 53 →
       ∃ x y, rescale_float L M (PyInt 10) = Ok (PyFloat x)
              ∧ product_over_ten L M = Ok (PyFloat y)
              ∧ Py.eqb (PyFloat x) (PyFloat y) = true
              ∧ (0 ≤ b → x = y))
  ∧ rescale_int L M (PyInt 10) = (q ← product_over_ten L M; Py.int_ q)
  ∧ (Py.leb (PyInt 0) M = true →
     rescale_int L M (PyInt 10) = (q ← product_over_ten L M; Py.floor q)).
Proof.
  intros H0 H10. split; [apply rescale_float_mixed |]. split; [| split].
  - intros a b -> -> Hb Hab.
    pose proof (leb_zero_int a H0) as Ha0. pose proof (leb_int_ten a H10) as Ha10.
    assert (Ha : Z.abs a < 2 ^ 53) by (change (2 ^ 53) with 9007199254740992; lia).
    destruct (rescale_float_small_ints a b Ha Hb Hab) as (x & y & Hx & Hy & He & Hxy).
    exists x, y. repeat split; auto.
  - apply rescale_int_truncates.
  - intros HM. rewrite rescale_int_truncates.
    destruct (product_over_ten L M) as [q|e] eqn:Eq; [| reflexivity].
    destruct (product_over_ten_not_negative L M q H0 HM Eq) as (f & -> & Hf).
    simpl. now rewrite (trunc_floor_not_negative f Hf).
Qed.

Lemma rescale_against_quotient_witness :
  rescale_float (PyInt 5) (PyFloat Py.f0_3) (PyInt 10)
  = product_over_ten (PyInt 5) (PyFloat Py.f0_3)
  ∧ rescale_int (PyInt 8) (PyInt 4) (PyInt 10)
    = (q ← product_over_ten (PyInt 8) (PyInt 4); Py.floor q).
Proof.
  split.
  - apply (proj1 (rescale_against_quotient (PyInt 5) (PyFloat Py.f0_3) eq_refl eq_refl)).
    reflexivity.
  - apply (proj2 (proj2 (proj2 (rescale_against_quotient (PyInt 8) (PyInt 4) eq_refl eq_refl)))).
    reflexivity.
Defined.

(** The claim as stated fails twice. With a negative target maximum the
    truncation is not the floor: [rescale_int(1, -1)] is 0 and
    [floor(1*-1/10)] is -1. With two integers whose product is beyond [2^53]
    the two roundings of [rescale_float] differ from the single rounding of
    [L*M/10]: [rescale_float(3, 2**53 + 1)] is 2702159776422297.5 and
    [3*(2**53 + 1)/10] is 2702159776422298.0. *)
Lemma rescale_differs_from_quotient :
  (rescale_int (PyInt 1) (PyInt (-1)) (PyInt 10) = Ok (PyInt 0)
   ∧ (q ← product_over_ten (PyInt 1) (PyInt (-1)); Py.floor q) = Ok (PyInt (-1)))
  ∧ ∃ x y, rescale_float (PyInt 3) (PyInt (2 ^ 53 + 1)) (PyInt 10) = Ok (PyFloat x)
           ∧ product_over_ten (PyInt 3) (PyInt (2 ^ 53 + 1)) = Ok (PyFloat y)
           ∧ Py.eqb (PyFloat x) (PyFloat y) = false.
Proof.
  split; [split; vm_compute; reflexivity |].
  eexists _, _. split; [vm_compute; reflexivity |].
  split; [vm_compute; reflexivity |]. vm_compute. reflexivity.
Qed.

(** ** Rounding a quotient of 53 or 54 digits *)

Lemma loc_of_record_of_loc m l : loc_of_shr_record (shr_record_of_loc m l) = l.
Proof. destruct l as [|[| |]]; reflexivity. Qed.

Lemma shr_1_positive m r s :
  0 < m →
  shr_1 {| shr_m := m; shr_r := r; shr_s := s |}
  = {| shr_m := m / 2; shr_r := Z.odd m; shr_s := r || s |}.
Proof.
  intros Hm. rewrite <- Z.div2_div.
  destruct m as [|[p|p|]|p]; try lia; reflexivity.
Qed.

Lemma Zdigits2_53 z : 2 ^ 52 ≤ z < 2 ^ 53 → Zdigits2 z = 53.
Proof.
  intros H. destruct z as [|p|p]; try lia. now apply digits2_unique.
Qed.

Lemma Zdigits2_54 z : 2 ^ 53 ≤ z < 2 ^ 54 → Zdigits2 z = 54.
Proof.
  intros H. destruct z as [|p|p]; try lia. now apply digits2_unique.
Qed.

(** The second shift of [binary_round_aux]: a rounded mantissa of 53
    digits stays, [2^53] becomes [2^52] with the exponent raised by one. *)
Lemma shr_fexp_rounded m e :
  2 ^ 52 ≤ m ≤ 2 ^ 53 → -1074 ≤ e →
  ∃ M E, shr_fexp Py.prec Py.emax m e loc_Exact
         = ({| shr_m := Z.pos M; shr_r := false; shr_s := false |}, E)
         ∧ e ≤ E ≤ e + 1 ∧ Z.pos M * 2 ^ (E - e) = m.
Proof.
  intros Hm He. unfold shr_fexp.
  destruct (Z.eq_dec m (2 ^ 53)) as [->|Hne].
  - change (Zdigits2 (2 ^ 53)) with 54. rewrite fexp64.
    replace (Z.max (54 + e - 53) (-1074) - e) with 1 by lia.
    exists 4503599627370496%positive, (e + 1). split; [reflexivity |].
    split; [lia |]. replace (e + 1 - e) with 1 by lia. reflexivity.
  - rewrite Zdigits2_53 by lia. rewrite fexp64.
    replace (Z.max (53 + e - 53) (-1074) - e) with 0 by lia.
    destruct m as [|p|p]; try lia.
    exists p, e. split; [reflexivity |]. split; [lia |].
    rewrite Z.sub_diag. simpl. lia.
Qed.

Lemma shr_fexp_53 q e l :
  2 ^ 52 ≤ q < 2 ^ 53 → -1074 ≤ e →
  shr_fexp Py.prec Py.emax q e l = (shr_record_of_loc q l, e).
Proof.
  intros Hq He. unfold shr_fexp. rewrite Zdigits2_53 by lia. rewrite fexp64.
  now replace (Z.max (53 + e - 53) (-1074) - e) with 0 by lia.
Qed.

Lemma shr_fexp_54 q e l :
  2 ^ 53 ≤ q < 2 ^ 54 → -1075 ≤ e →
  shr_fexp Py.prec Py.emax q e l = (shr_1 (shr_record_of_loc q l), e + 1).
Proof.
  intros Hq He. unfold shr_fexp. rewrite Zdigits2_54 by lia. rewrite fexp64.
  now replace (Z.max (54 + e - 53) (-1074) - e) with 1 by lia.
Qed.

(** Rounding a mantissa [q] of 53 or 54 digits: the result is finite, and
    in units of the input exponent its mantissa lies between [q] rounded
    down to an even number and [q + 1]. *)
Lemma round_aux_quotient s q e l :
  2 ^ 52 ≤ q < 2 ^ 54 → -1074 ≤ e ≤ 900 →
  ∃ M E, binary_round_aux Py.prec Py.emax s q e l = S754_finite s M E
         ∧ e ≤ E ≤ e + 2
         ∧ 2 * (q / 2) ≤ Z.pos M * 2 ^ (E - e) ≤ q + 1.
Proof.
  intros Hq He. unfold binary_round_aux.
  destruct (Z.ltb_spec q (2 ^ 53)) as [Hlt|Hge].
  - (* 53 digits: no first shift *)
    rewrite shr_fexp_53 by lia.
    rewrite loc_of_record_of_loc, shr_record_of_loc_m.
    pose proof (round_nearest_even_bounds q l ltac:(lia)) as Hr.
    destruct (shr_fexp_rounded (round_nearest_even q l) e ltac:(lia) ltac:(lia))
      as (M & E & -> & HE & HV).
    cbn [shr_m]. exists M, E.
    destruct (Z.leb_spec E (Py.emax - Py.prec)) as [_|Hbad];
      [| unfold Py.emax, Py.prec in Hbad; lia].
    split; [reflexivity |]. split; [lia |]. rewrite HV.
    pose proof (Z.mul_div_le q 2 ltac:(lia)). lia.
  - (* 54 digits: one first shift *)
    rewrite shr_fexp_54 by lia.
    assert (Hrec : ∃ r0 s0, shr_record_of_loc q l = {| shr_m := q; shr_r := r0; shr_s := s0 |})
      by (destruct l as [|[| |]]; simpl; eauto).
    destruct Hrec as (r0 & s0 & ->).
    rewrite shr_1_positive by lia. cbn [shr_m].
    set (m1 := q / 2).
    set (l1 := loc_of_shr_record {| shr_m := m1; shr_r := Z.odd q; shr_s := r0 || s0 |}).
    assert (Hm1 : 2 ^ 52 ≤ m1 < 2 ^ 53).
    { unfold m1. split.
      - apply Z.div_le_lower_bound; [lia |]. change (2 * 2 ^ 52) with (2 ^ 53). lia.
      - apply Z.div_lt_upper_bound; [lia |]. change (2 * 2 ^ 53) with (2 ^ 54). lia. }
    pose proof (round_nearest_even_bounds m1 l1 ltac:(lia)) as Hr.
    assert (Hup : 2 * round_nearest_even m1 l1 ≤ q + 1).
    { pose proof (Z.div_mod q 2 ltac:(lia)) as Hdm. fold m1 in Hdm.
      rewrite Zmod_odd in Hdm.
      unfold l1 in *. cbn [loc_of_shr_record] in *.
      destruct (Z.odd q); [lia |].
      destruct (r0 || s0); simpl; lia. }
    destruct (shr_fexp_rounded (round_nearest_even m1 l1) (e + 1) ltac:(lia) ltac:(lia))
      as (M & E & -> & HE & HV).
    cbn [shr_m]. exists M, E.
    destruct (Z.leb_spec E (Py.emax - Py.prec)) as [_|Hbad];
      [| unfold Py.emax, Py.prec in Hbad; lia].
    split; [reflexivity |]. split; [lia |].
    replace (E - e) with (E - (e + 1) + 1) by lia.
    rewrite Z.pow_add_r by lia. change (2 ^ 1) with 2.
    rewrite Z.mul_assoc, HV. fold m1. lia.
Qed.

(** ** [int(n / 10)] on an integer *)

(** For an integer [n] below [2^53] in magnitude the rounded quotient
    [n / 10] truncates to the integer quotient: the rounding never reaches
    the next integer. *)
Lemma int_truediv_trunc n :
  n ≠ 0 → Z.abs n < 2 ^ 53 →
  ∃ f, Py.int_truediv n 10 = Ok f ∧ Py.trunc f = Ok (Z.quot n 10).
Proof.
  intros Hn Hlt. pose proof (Zdigits2_small n Hn Hlt) as Hd.
  pose proof (Zdigits2_bounds n Hn) as Hb.
  assert (Hdn : Zdigits2 (Z.pos (Z.to_pos (Z.abs n))) = Zdigits2 n)
    by (destruct n; [done | |]; reflexivity).
  assert (Habs : Z.pos (Z.to_pos (Z.abs n)) = Z.abs n) by (apply Z2Pos.id; lia).
  set (P := Z.abs n) in *. set (d := Zdigits2 n) in *.
  set (t := 2 ^ (57 - d)).
  assert (Ht16 : 16 ≤ t).
  { unfold t. change 16 with (2 ^ 4). apply Z.pow_le_mono_r; lia. }
  assert (HPt : 2 ^ 56 ≤ P * t < 2 ^ 57).
  { unfold t.
    replace (2 ^ 56) with (2 ^ (d - 1) * 2 ^ (57 - d))
      by (rewrite <- Z.pow_add_r by lia; f_equal; lia).
    replace (2 ^ 57) with (2 ^ d * 2 ^ (57 - d))
      by (rewrite <- Z.pow_add_r by lia; f_equal; lia).
    assert (0 < 2 ^ (57 - d)) by (apply Z.pow_pos_nonneg; lia).
    split; nia. }
  set (q := P * t / 10).
  assert (Hq : 2 ^ 52 ≤ q < 2 ^ 54).
  { unfold q. split.
    - apply Z.div_le_lower_bound; [lia |].
      change (2 ^ 56) with 72057594037927936 in HPt.
      change (2 ^ 52) with 4503599627370496. lia.
    - apply Z.div_lt_upper_bound; [lia |].
      change (2 ^ 57) with 144115188075855872 in HPt.
      change (2 ^ 54) with 18014398509481984. lia. }
  unfold Py.int_truediv. change (10 =? 0) with false. cbv iota.
  destruct (Z.eqb_spec n 0) as [|_]; [lia |].
  change (10 <? 0) with false. change (Z.to_pos (Z.abs 10)) with 10%positive.
  fold P.
  assert (Hdiv : Py.fdiv (S754_finite (n <? 0) (Z.to_pos P) 0) (S754_finite false 10 0)
                 = binary_round_aux Py.prec Py.emax (n <? 0) q (d - 57)
                     (new_location 10 (P * t mod 10))).
  { unfold Py.fdiv, SFdiv.
    rewrite (div_core_shifted (Z.pos (Z.to_pos P)) 0 (Z.pos 10) 0 (d - 57) (57 - d)).
    2:{ rewrite Hdn. change (Zdigits2 (Z.pos 10)) with 4. rewrite fexp64. lia. }
    2, 3: lia.
    rewrite Z.shiftl_mul_pow2, Habs by lia. fold t. fold q.
    now rewrite xorb_false_r. }
  rewrite Hdiv.
  destruct (round_aux_quotient (n <? 0) q (d - 57) (new_location 10 (P * t mod 10))
              Hq ltac:(lia)) as (M & E & -> & HE & HV).
  eexists. split; [reflexivity |].
  unfold Py.trunc. f_equal.
  assert (Hk : Z.pos M / 2 ^ (- E) = P / 10).
  { set (V := Z.pos M * 2 ^ (E - (d - 57))) in *.
    assert (Htt : t = 2 ^ (- E) * 2 ^ (E - (d - 57))).
    { unfold t. rewrite <- Z.pow_add_r by lia. f_equal. lia. }
    assert (0 < 2 ^ (E - (d - 57))) by (apply Z.pow_pos_nonneg; lia).
    assert (0 < 2 ^ (- E)) by (apply Z.pow_pos_nonneg; lia).
    replace (Z.pos M / 2 ^ (- E)) with (V / t)
      by (unfold V; rewrite Htt; apply Z.div_mul_cancel_r; lia).
    pose proof (Z.div_mod P 10 ltac:(lia)) as HP.
    pose proof (Z.mod_pos_bound P 10 ltac:(lia)) as Hr.
    set (k := P / 10) in *.
    pose proof (Z.mul_div_le (P * t) 10 ltac:(lia)) as Hq10. fold q in Hq10.
    assert (Hqlo : k * t ≤ q).
    { unfold q. apply Z.div_le_lower_bound; [lia |]. nia. }
    assert (Hteven : ∃ t2, t = 2 * t2).
    { exists (2 ^ (56 - d)). unfold t.
      replace (57 - d) with (Z.succ (56 - d)) by lia.
      now rewrite Z.pow_succ_r by lia. }
    destruct Hteven as [t2 Ht2].
    assert (Hlo : k * t ≤ 2 * (q / 2)).
    { assert (k * t2 ≤ q / 2) by (apply Z.div_le_lower_bound; lia). lia. }
    symmetry. apply Z.div_unique_pos with (r := V - k * t); [| lia].
    split; [lia |]. nia. }
  rewrite Z.shiftl_div_pow2 by lia. rewrite Hk.
  destruct (Z.ltb_spec n 0); simpl.
  - unfold P. rewrite Z.abs_neq by lia.
    replace n with (- - n) at 2 by lia.
    rewrite Z.quot_opp_l by lia. rewrite Z.quot_div_nonneg by lia. reflexivity.
  - unfold P. rewrite Z.abs_eq by lia. now rewrite Z.quot_div_nonneg by lia.
Qed.

(** On integers whose product is below [2^53] in magnitude, [rescale_int]
    is the exact integer quotient of the product by ten, truncated toward
    zero. *)
Lemma rescale_int_small_ints a b :
  Z.abs (a * b) < 2 ^ 53 →
  rescale_int (PyInt a) (PyInt b) (PyInt 10) = Ok (PyInt (Z.quot (a * b) 10)).
Proof.
  intros Hab. unfold rescale_int.
  cbn [Py.mul mbind res_bind Py.truediv].
  destruct (Z.eq_dec (a * b) 0) as [->|Hne]; [reflexivity |].
  destruct (int_truediv_trunc (a * b) Hne Hab) as (f & -> & Ht).
  cbn [fmap res_fmap mbind res_bind Py.int_]. now rewrite Ht.
Qed.

(** X1. On two integers whose product is below [2^53] in magnitude,
    [rescale_int] with the default [param_max] returns the exact integer
    quotient of the product by ten, truncated toward zero: the rounding of
    the float division never carries the result to a neighbouring integer. *)
Theorem rescale_int_is_integer_quotient (a b : Z) :
  Z.abs (a * b) < 2 ^ 53 →
  rescale_int (PyInt a) (PyInt b) param_max_default = Ok (PyInt (Z.quot (a * b) 10)).
Proof. apply rescale_int_small_ints. Qed.

Lemma rescale_int_is_integer_quotient_witness :
  rescale_int (PyInt (-7)) (PyInt 256) param_max_default = Ok (PyInt (-179)).
Proof. apply (rescale_int_is_integer_quotient (-7) 256). reflexivity. Defined.

(** ** The integer rules of the registry *)

Lemma small_product l k : Z.abs l < 2 ^ 44 → 0 ≤ k ≤ 256 → Z.abs (l * k) < 2 ^ 53.
Proof.
  intros Hl Hk. rewrite Z.abs_mul, (Z.abs_eq k) by lia.
  change (2 ^ 53) with (2 ^ 44 * 512). change (2 ^ 44) with 17592186044416 in *. nia.
Qed.

Lemma translate_rule_int l : Z.abs l < 2 ^ 44 → translate_rule (PyInt l) = Ok (PyInt l).
Proof.
  intros Hl. unfold translate_rule.
  rewrite rescale_int_small_ints by (apply small_product; lia).
  now rewrite Z.quot_mul by lia.
Qed.

Lemma rotate_rule_int l : Z.abs l < 2 ^ 44 → rotate_rule (PyInt l) = Ok (PyInt (3 * l)).
Proof.
  intros Hl. unfold rotate_rule.
  rewrite rescale_int_small_ints by (apply small_product; lia).
  replace (l * 30) with (3 * l * 10) by lia. now rewrite Z.quot_mul by lia.
Qed.

Lemma solarize_rule_int l :
  Z.abs l < 2 ^ 44 → solarize_rule (PyInt l) = Ok (PyInt (256 - Z.quot (l * 256) 10)).
Proof.
  intros Hl. unfold solarize_rule.
  now rewrite rescale_int_small_ints by (apply small_product; lia).
Qed.

Lemma posterize_rule_int l :
  Z.abs l < 2 ^ 44 → posterize_rule (PyInt l) = Ok (PyInt (4 - Z.quot (l * 4) 10)).
Proof.
  intros Hl. unfold posterize_rule.
  now rewrite rescale_int_small_ints by (apply small_product; lia).
Qed.

(** X2. The four integer rules of the registry in closed form, on every
    integer level below [2^44] in magnitude: the translation rule is the
    identity, the rotation rule is three times the level, the Solarize rule
    is 256 minus the truncated quotient of [256 * level] by ten and the
    Posterize rule 4 minus that of [4 * level]; none of them raises. *)
Theorem integer_rules_closed_form (l : Z) :
  Z.abs l < 2 ^ 44 →
  translate_rule (PyInt l) = Ok (PyInt l)
  ∧ rotate_rule (PyInt l) = Ok (PyInt (3 * l))
  ∧ solarize_rule (PyInt l) = Ok (PyInt (256 - Z.quot (l * 256) 10))
  ∧ posterize_rule (PyInt l) = Ok (PyInt (4 - Z.quot (l * 4) 10)).
Proof.
  intros Hl. repeat split.
  - now apply translate_rule_int.
  - now apply rotate_rule_int.
  - now apply solarize_rule_int.
  - now apply posterize_rule_int.
Qed.

Lemma integer_rules_closed_form_witness :
  translate_rule (PyInt 7) = Ok (PyInt 7)
  ∧ rotate_rule (PyInt 7) = Ok (PyInt 21)
  ∧ solarize_rule (PyInt 7) = Ok (PyInt 77)
  ∧ posterize_rule (PyInt 7) = Ok (PyInt 2).
Proof. apply (integer_rules_closed_form 7). reflexivity. Defined.




(** ** The float rules of the registry on the levels 0 to 10 *)

Lemma float_rules_on_levels l1 l2 :
  0 ≤ l1 < l2 → l2 ≤ 10 →
  ∃ s1 s2 e1 e2,
    shear_rule (PyInt l1) = Ok s1 ∧ shear_rule (PyInt l2) = Ok s2
    ∧ enhance_rule (PyInt l1) = Ok e1 ∧ enhance_rule (PyInt l2) = Ok e2
    ∧ Py.leb (PyInt 0) s1 = true ∧ Py.ltb s1 s2 = true
    ∧ Py.leb s2 (PyFloat Py.f0_3) = true
    ∧ Py.leb (PyFloat Py.f0_1) e1 = true ∧ Py.ltb e1 e2 = true
    ∧ Py.ltb e2 (PyInt 2) = true.
Proof.
  intros H H10.
  destruct (small_level_cases l1 ltac:(lia))
    as [->|[->|[->|[->|[->|[->|[->|[->|[->|[->| ->]]]]]]]]]];
  destruct (small_level_cases l2 ltac:(lia))
    as [->|[->|[->|[->|[->|[->|[->|[->|[->|[->| ->]]]]]]]]]];
  try lia;
  eexists _, _, _, _; repeat (split; [vm_compute; reflexivity |]);
  vm_compute; reflexivity.
Qed.

(** X4. On the integer levels 0 to 10 the two float rules rise strictly
    with the level and never raise: the shear rule stays between 0 and the
    literal 0.3 and reaches exactly 0.3 at level 10; the enhancement rule
    starts at the literal 0.1, stays below 2, and at level 10 is the double
    just above the literal 1.9: the double that follows it, with nothing
    representable in between. *)
Theorem float_rules_rise_with_level (l1 l2 : Z) :
  0 ≤ l1 < l2 → l2 ≤ 10 →
  (∃ s1 s2 e1 e2,
     shear_rule (PyInt l1) = Ok s1 ∧ shear_rule (PyInt l2) = Ok s2
     ∧ enhance_rule (PyInt l1) = Ok e1 ∧ enhance_rule (PyInt l2) = Ok e2
     ∧ Py.leb (PyInt 0) s1 = true ∧ Py.ltb s1 s2 = true
     ∧ Py.leb s2 (PyFloat Py.f0_3) = true
     ∧ Py.leb (PyFloat Py.f0_1) e1 = true ∧ Py.ltb e1 e2 = true
     ∧ Py.ltb e2 (PyInt 2) = true)
  ∧ shear_rule (PyInt 10) = Ok (PyFloat Py.f0_3)
  ∧ enhance_rule (PyInt 0) = Ok (PyFloat Py.f0_1)
  ∧ ∃ e, enhance_rule (PyInt 10) = Ok (PyFloat e)
         ∧ Py.ltb (PyFloat (Py.decimal 19 10)) (PyFloat e) = true
         ∧ follows (Py.decimal 19 10) e.
Proof.
  intros H H10. split; [now apply float_rules_on_levels |].
  split; [vm_compute; reflexivity |]. split; [vm_compute; reflexivity |].
  eexists. split; [vm_compute; reflexivity |]. split; [vm_compute; reflexivity |].
  exists 8556839292003942%positive, (-52). repeat split; vm_compute; reflexivity.
Qed.

Lemma float_rules_rise_with_level_witness :
  ∃ s1 s2 e1 e2,
    shear_rule (PyInt 5) = Ok s1 ∧ shear_rule (PyInt 8) = Ok s2
    ∧ enhance_rule (PyInt 5) = Ok e1 ∧ enhance_rule (PyInt 8) = Ok e2
    ∧ Py.leb (PyInt 0) s1 = true ∧ Py.ltb s1 s2 = true
    ∧ Py.leb s2 (PyFloat Py.f0_3) = true
    ∧ Py.leb (PyFloat Py.f0_1) e1 = true ∧ Py.ltb e1 e2 = true
    ∧ Py.ltb e2 (PyInt 2) = true.
Proof.
  refine (proj1 (float_rules_rise_with_level 5 8 _ _)).
  - split; [discriminate | reflexivity].
  - discriminate.
Defined.

(** ** Rescaling with [param_max] zero *)

Lemma as_float_cases x : (∃ f, Py.as_float x = Ok f) ∨ Py.as_float x = Err OverflowError.
Proof.
  destruct x as [z|f]; [| left; now exists f].
  unfold Py.as_float, Py.float_of_int.
  destruct (Py.Z2SF z); eauto.
Qed.

Lemma as_float_zero pm :
  zero_divisor pm = true → ∃ f, Py.as_float pm = Ok f ∧ Py.is_zero f = true.
Proof.
  destruct pm as [z|f]; simpl; intros H.
  - apply Z.eqb_eq in H as ->. now exists (S754_zero false).
  - now exists f.
Qed.

Lemma truediv_by_zero t pm :
  zero_divisor pm = true →
  Py.truediv t pm = Err ZeroDivisionError ∨ Py.truediv t pm = Err OverflowError.
Proof.
  intros Hz. destruct (as_float_zero pm Hz) as (fz & Hfz & Hzero).
  destruct t as [a|ft], pm as [b|fb]; cbn [Py.truediv].
  - simpl in Hz. apply Z.eqb_eq in Hz as ->. now left.
  - destruct (as_float_cases (PyInt a)) as [[f ->]| ->]; [| now right].
    rewrite Hfz. cbn [mbind res_bind]. rewrite Hzero. now left.
  - cbn [Py.as_float mbind res_bind]. cbn [Py.as_float] in Hfz. rewrite Hfz.
    cbn [mbind res_bind]. rewrite Hzero. now left.
  - cbn [Py.as_float mbind res_bind]. simpl in Hz. rewrite Hz. now left.
Qed.

Lemma mul_cases x y : (∃ t, Py.mul x y = Ok t) ∨ Py.mul x y = Err OverflowError.
Proof.
  destruct x as [a|fa], y as [b|fb]; cbn [Py.mul]; eauto.
  - destruct (as_float_cases (PyInt a)) as [[f ->]| ->]; cbn [mbind res_bind Py.as_float]; eauto.
  - cbn [Py.as_float mbind res_bind].
    destruct (as_float_cases (PyInt b)) as [[f Hf]| Hf]; cbn [Py.as_float] in Hf;
      rewrite Hf; cbn [mbind res_bind]; eauto.
Qed.

Lemma rescale_float_by_zero level max_val pm :
  zero_divisor pm = true →
  rescale_float level max_val pm = Err ZeroDivisionError
  ∨ rescale_float level max_val pm = Err OverflowError.
Proof.
  intros Hz. unfold rescale_float, Py.float_.
  destruct (as_float_cases level) as [[f ->]| ->]; [| now right].
  cbn [fmap res_fmap mbind res_bind].
  destruct (mul_cases (PyFloat f) max_val) as [[t ->]| ->]; [| now right].
  cbn [mbind res_bind]. now apply truediv_by_zero.
Qed.

Lemma rescale_int_by_zero level max_val pm :
  zero_divisor pm = true →
  rescale_int level max_val pm = Err ZeroDivisionError
  ∨ rescale_int level max_val pm = Err OverflowError.
Proof.
  intros Hz. unfold rescale_int.
  destruct (mul_cases level max_val) as [[t ->]| ->]; [| now right].
  cbn [mbind res_bind].
  destruct (truediv_by_zero t pm Hz) as [-> | ->]; [now left | now right].
Qed.

(** X5. With a [param_max] that is zero (the integer 0 or a float zero of
    either sign) neither rescaling function returns a value: each raises
    ZeroDivisionError, unless converting an integer operand beyond the
    range of a double raises OverflowError first; on two integer operands
    and the integer zero [rescale_int] always raises ZeroDivisionError. *)
Theorem rescale_by_zero_raises (level max_val pm : pynum) :
  zero_divisor pm = true →
  (rescale_float level max_val pm = Err ZeroDivisionError
   ∨ rescale_float level max_val pm = Err OverflowError)
  ∧ (rescale_int level max_val pm = Err ZeroDivisionError
     ∨ rescale_int level max_val pm = Err OverflowError)
  ∧ ∀ a b, rescale_int (PyInt a) (PyInt b) (PyInt 0) = Err ZeroDivisionError.
Proof.
  intros Hz. split; [now apply rescale_float_by_zero |].
  split; [now apply rescale_int_by_zero | reflexivity].
Qed.

Lemma rescale_by_zero_raises_witness :
  (rescale_float (PyInt 5) (PyFloat Py.f0_3) (PyFloat (S754_zero true)) = Err ZeroDivisionError
   ∨ rescale_float (PyInt 5) (PyFloat Py.f0_3) (PyFloat (S754_zero true)) = Err OverflowError)
  ∧ (rescale_int (PyInt 5) (PyFloat Py.f0_3) (PyFloat (S754_zero true)) = Err ZeroDivisionError
     ∨ rescale_int (PyInt 5) (PyFloat Py.f0_3) (PyFloat (S754_zero true)) = Err OverflowError).
Proof.
  destruct (rescale_by_zero_raises (PyInt 5) (PyFloat Py.f0_3) (PyFloat (S754_zero true)) eq_refl)
    as (Hf & Hi & _).
  split; [exact Hf | exact Hi].
Defined.

(** ** [_mirror] *)

(** Multiplying a double by [-1.0] is exact: only the sign changes. *)
Lemma round_aux_shifted s m e k :
  bounded Py.prec Py.emax m e = true →
  binary_round_aux Py.prec Py.emax s (Z.pos (Pos.iter xO m k)) (e - Z.pos k) loc_Exact
  = S754_finite s m e.
Proof.
  unfold bounded, canonical_mantissa. intros Hb.
  apply andb_true_iff in Hb as [Hc He].
  apply Z.eqb_eq in Hc. apply Z.leb_le in He.
  assert (HD : Z.pos (digits2_pos (Pos.iter xO m k)) = Z.pos (digits2_pos m) + Z.pos k).
  { apply digits2_unique. rewrite iter_xO_spec.
    pose proof (digits2_bounds m) as [Hlo Hhi].
    replace (Z.pos (digits2_pos m) + Z.pos k - 1)
      with (Z.pos (digits2_pos m) - 1 + Z.pos k) by lia.
    rewrite !Z.pow_add_r by lia.
    assert (0 < 2 ^ Z.pos k) by (apply Z.pow_pos_nonneg; lia).
    split; nia. }
  unfold binary_round_aux, shr_fexp. simpl Zdigits2. rewrite HD.
  replace (Z.pos (digits2_pos m) + Z.pos k + (e - Z.pos k))
    with (Z.pos (digits2_pos m) + e) by lia.
  rewrite Hc. replace (e - (e - Z.pos k)) with (Z.pos k) by lia.
  unfold shr at 1. simpl shr_record_of_loc. rewrite iter_pos_iter, shr_iter_xO.
  replace (e - Z.pos k + Z.pos k) with e by lia.
  simpl. rewrite Hc, Z.sub_diag. simpl.
  destruct (Z.leb_spec e (Py.emax - Py.prec)); [reflexivity | lia].
Qed.

Lemma fmul_minus_one f :
  valid_binary Py.prec Py.emax f = true →
  Py.fmul f (S754_finite true 4503599627370496 (-52)) = SFopp f.
Proof.
  destruct f as [s|s| |s m e]; simpl; intros Hv.
  - now rewrite xorb_true_r.
  - now rewrite xorb_true_r.
  - reflexivity.
  - unfold Py.fmul, SFmul. rewrite xorb_true_r.
    replace (m * 4503599627370496)%positive with (Pos.iter xO m 52).
    + change (e + -52) with (e - Z.pos 52). now apply round_aux_shifted.
    + apply Pos2Z.inj. rewrite iter_xO_spec, Pos2Z.inj_mul. reflexivity.
Qed.

Lemma mul_minus_one n :
  is_double n = true → Py.mul n (PyInt (-1)) = Ok (opposite n).
Proof.
  destruct n as [z|f]; simpl; intros Hv.
  - do 2 f_equal. lia.
  - change (Py.float_of_int (-1)) with (Ok (S754_finite true 4503599627370496 (-52)) : res Py.float).
    cbn [mbind res_bind]. now rewrite fmul_minus_one.
Qed.

Lemma negate_number n w :
  is_double n = true → negate (VNum n) w = (Ok (VNum (opposite n)), w).
Proof.
  intros Hv. unfold negate, bind, as_num, ret, lift. now rewrite mul_minus_one.
Qed.

Lemma mirror_off self val m w :
  getattr self "mirror" w = (Ok m, w) → truthy m = false →
  AutoAugmentAffine_mirror self val w = (Ok val, w).
Proof.
  intros Em Hm. unfold AutoAugmentAffine_mirror.
  rewrite (bind_ok _ _ _ _ _ Em). now rewrite Hm.
Qed.

Lemma mirror_on self n m w :
  getattr self "mirror" w = (Ok m, w) → truthy m = true → is_double n = true →
  ∃ v, AutoAugmentAffine_mirror self (VNum n) w = (Ok (VNum v), advance w)
       ∧ (v = n ∨ v = opposite n).
Proof.
  intros Em Hm Hn. unfold AutoAugmentAffine_mirror.
  rewrite (bind_ok _ _ _ _ _ Em). rewrite Hm.
  unfold bind at 1, check_prob, bind at 1, random_random, ret.
  destruct (Py.ltb _ _).
  - exists (opposite n). rewrite negate_number by exact Hn. auto.
  - exists n. auto.
Qed.

(** X6. [_mirror] on a number. With the mirror flag off it returns the
    value as it is, whatever the value, and takes no draw. With the flag on
    it takes exactly one draw and returns the number or its exact opposite
    (an integer negated, a float with only its sign flipped, the same
    mantissa and exponent), so it never changes the magnitude; it never
    raises and leaves the store as it is. *)
Theorem mirror_keeps_magnitude (l : loc) (o : instance) (m : value) (w : world) :
  heap w !! l = Some o →
  dict o !! "mirror" = Some m →
  (truthy m = false → ∀ val, AutoAugmentAffine_mirror (VRef l) val w = (Ok val, w))
  ∧ (truthy m = true → ∀ n, is_double n = true →
       ∃ v, AutoAugmentAffine_mirror (VRef l) (VNum n) w = (Ok (VNum v), advance w)
            ∧ (v = n ∨ v = opposite n)).
Proof.
  intros Ho Hm.
  assert (Em : getattr (VRef l) "mirror" w = (Ok m, w))
    by (unfold getattr; now rewrite Ho, Hm).
  split.
  - intros Hf val. now apply (mirror_off _ _ m).
  - intros Ht n Hn. now apply (mirror_on _ _ m).
Qed.

(** ** A sampled record against [_apply_img] *)

Lemma class_of_lookup l o w :
  heap w !! l = Some o → class_of (VRef l) w = (Ok (cls o), w).
Proof. intros Ho. unfold class_of. now rewrite Ho. Qed.

Lemma getattr_lookup l o name v w :
  heap w !! l = Some o → dict o !! name = Some v →
  getattr (VRef l) name w = (Ok v, w).
Proof. intros Ho Hv. unfold getattr. now rewrite Ho, Hv. Qed.

Lemma affine_sample_record field bound key self w kw w1 :
  affine_sample field bound key bound self w = (Ok kw, w1) →
  ∃ v, kw = {[key := v]}.
Proof.
  unfold affine_sample. intros E.
  apply bind_inv_ok in E as (v & wa & _ & E).
  apply bind_inv_ok in E as (r & wb & _ & E).
  rewrite (bind_ok _ _ _ _ _ (load_bound _ _ _ _)) in E.
  injection E as <- _. now exists r.
Qed.

Lemma affine_sample_unbound field self w kw w1 :
  affine_sample field "trans_y" "translate_y" "trans_x" self w ≠ (Ok kw, w1).
Proof.
  unfold affine_sample. intros E.
  apply bind_inv_ok in E as (v & wa & _ & E).
  apply bind_inv_ok in E as (r & wb & _ & E).
  now rewrite (bind_err _ _ _ _ _ (load_trans_x _ _ _)) in E.
Qed.

Lemma plain_sample_record field self w kw w1 :
  plain_sample field self w = (Ok kw, w1) → ∃ v, kw = {[field := v]}.
Proof.
  unfold plain_sample. intros E.
  apply bind_inv_ok in E as (v & wa & _ & E).
  injection E as <- _. now exists v.
Qed.

(** The record [sample] returns is the class's own. *)
Lemma sample_record l o w kw w1 :
  heap w !! l = Some o →
  sample (VRef l) w = (Ok kw, w1) →
  cls o ≠ TranslateY ∧ cls o ≠ AutoAugment ∧ ∃ v, kw = record_of (cls o) v.
Proof.
  intros Ho E. unfold sample in E.
  assert (Ec : class_of (VRef l) w = (Ok (cls o), w))
    by (unfold class_of; now rewrite Ho).
  rewrite (bind_ok _ _ _ _ _ Ec) in E.
  destruct (cls o); try discriminate E;
    try (now apply affine_sample_unbound in E);
    (split; [discriminate |]; split; [discriminate |]);
    first [ apply affine_sample_record in E | apply plain_sample_record in E
          | (injection E as <- _; now exists VNone) ];
    exact E.
Qed.

Lemma keyword1_singleton name v w : keyword1 name {[name := v]} w = (Ok v, w).
Proof.
  unfold keyword1. rewrite lookup_singleton_eq, map_size_singleton. reflexivity.
Qed.

Lemma keyword0_empty w : keyword0 ∅ w = (Ok (), w).
Proof. unfold keyword0. rewrite map_size_empty. reflexivity. Qed.

Section StepFacts.

Context {image : Type} (pil : pil_call → image → res image).

(** [_apply_img] on the class's own record makes the class's PIL call. *)
Lemma apply_img_own_record l o r v (img : image) w :
  heap w !! l = Some o →
  cls o ≠ AutoAugment →
  (affine (cls o) = true → dict o !! "resample" = Some r) →
  ∃ call, pil_call_of (cls o) v r = Some call
          ∧ _apply_img pil (VRef l) img (record_of (cls o) v) w = (pil call img, w).
Proof.
  intros Ho Hc Hr.
  assert (Ec : class_of (VRef l) w = (Ok (cls o), w))
    by (unfold class_of; now rewrite Ho).
  assert (Er : affine (cls o) = true → getattr (VRef l) "resample" w = (Ok r, w))
    by (intros Ha; unfold getattr; now rewrite Ho, (Hr Ha)).
  unfold _apply_img. rewrite (bind_ok _ _ _ _ _ Ec).
  destruct (cls o); try congruence; (eexists; split; [reflexivity |]);
    unfold record_of, field_of, ShearX_apply_img, ShearY_apply_img,
      TranslateX_apply_img, TranslateY_apply_img, Rotate_apply_img,
      Posterize_apply_img, Solarize_apply_img, Saturation_apply_img,
      Contrast_apply_img, Brightness_apply_img, Sharpness_apply_img,
      nullary_apply_img, AutoAugmentAffine_apply_img_fn;
    first [ rewrite (bind_ok _ _ _ _ _ (keyword1_singleton _ _ _))
          | rewrite (bind_ok _ _ _ _ _ (keyword0_empty _)) ];
    try rewrite (bind_ok _ _ _ _ _ (Er eq_refl));
    reflexivity.
Qed.

Lemma keyword1_missing name kw w :
  kw !! name = None → keyword1 name kw w = (Err TypeError, w).
Proof. intros H. unfold keyword1. now rewrite H. Qed.

Lemma keyword1_surplus name kw w :
  size kw ≠ 1%nat → keyword1 name kw w = (Err TypeError, w).
Proof.
  intros H. unfold keyword1. destruct (kw !! name); [| reflexivity].
  destruct (Nat.eqb_spec (size kw) 1); [contradiction | reflexivity].
Qed.

Lemma apply_img_other_record l o field kw (img : image) w :
  heap w !! l = Some o →
  field_of (cls o) = Some field →
  kw !! field = None ∨ size kw ≠ 1%nat →
  _apply_img pil (VRef l) img kw w = (Err TypeError, w).
Proof.
  intros Ho Hf Hkw.
  assert (Ek : keyword1 field kw w = (Err TypeError, w))
    by (destruct Hkw; [now apply keyword1_missing | now apply keyword1_surplus]).
  unfold _apply_img. rewrite (bind_ok _ _ _ _ _ (class_of_lookup l o w Ho)).
  destruct (cls o); try discriminate Hf; injection Hf as <-;
    unfold ShearX_apply_img, ShearY_apply_img, TranslateX_apply_img,
      TranslateY_apply_img, Rotate_apply_img, Posterize_apply_img,
      Solarize_apply_img, Saturation_apply_img, Contrast_apply_img,
      Brightness_apply_img, Sharpness_apply_img;
    now rewrite (bind_err _ _ _ _ _ Ek).
Qed.

(** X7. What [_apply_img] passes to PIL. On an instance of any of the
    eleven classes with a magnitude, TranslateY included, the call
    [_apply_img(img, <field>=v)] under the class's own field name is the
    single PIL call of the class on [v], with nothing else changed: the four
    shears and translations place [v] in their own coefficient of
    [(1, shear_x, trans_x, shear_y, 1, trans_y)] with zeros elsewhere and
    pass the instance's [resample], Rotate passes [v] as the angle, and the
    six others pass [v] to their pixel operation. With a record that lacks
    the field name or has any further entry the call is a TypeError and PIL
    is not called. *)
Theorem apply_img_passes_own_field (l : loc) (o : instance) (field : string)
    (r : value) (img : image) (w : world) :
  heap w !! l = Some o →
  field_of (cls o) = Some field →
  (affine (cls o) = true → dict o !! "resample" = Some r) →
  (∀ v, ∃ call, pil_call_of (cls o) v r = Some call
                ∧ _apply_img pil (VRef l) img {[field := v]} w = (pil call img, w))
  ∧ (∀ kw, kw !! field = None ∨ size kw ≠ 1%nat →
           _apply_img pil (VRef l) img kw w = (Err TypeError, w)).
Proof.
  intros Ho Hf Hr. split.
  - intros v.
    assert (Hc : cls o ≠ AutoAugment) by (intros E; now rewrite E in Hf).
    destruct (apply_img_own_record l o r v img w Ho Hc Hr) as (call & Hcall & Ea).
    exists call. split; [exact Hcall |].
    unfold record_of in Ea. now rewrite Hf in Ea.
  - intros kw Hkw. now apply (apply_img_other_record l o field).
Qed.

(** X8. Whatever record [sample] returns is one the same instance's
    [_apply_img] accepts. For an instance of a transform class (with its
    [resample] attribute, if the class is affine): when [sample] returns a
    record, the record has exactly the keyword [_apply_img] declares, so the
    call binds without a TypeError and comes down to the single PIL call of
    the class on the sampled value (the sheared, translated or rotated
    amount in its own coefficient), with store and generator left as
    [sample] left them. *)
Theorem sample_record_fits_apply_img (l : loc) (o : instance) (r : value)
    (img : image) (w : world) (kw : params) (w1 : world) :
  heap w !! l = Some o →
  (affine (cls o) = true → dict o !! "resample" = Some r) →
  sample (VRef l) w = (Ok kw, w1) →
  ∃ v call, kw = record_of (cls o) v
            ∧ pil_call_of (cls o) v r = Some call
            ∧ _apply_img pil (VRef l) img kw w1 = (pil call img, w1).
Proof.
  intros Ho Hr Es.
  destruct (sample_record _ _ _ _ _ Ho Es) as (_ & Hc & v & ->).
  assert (Ho1 : heap w1 !! l = Some o).
  { pose proof (reads_sample (VRef l) w) as Hh. rewrite Es in Hh. simpl in Hh.
    now rewrite Hh. }
  destruct (apply_img_own_record l o r v img w1 Ho1 Hc Hr) as (call & Hcall & Ea).
  now exists v, call.
Qed.

End StepFacts.

(** ** Running a built policy *)

Lemma is_number_inv v : is_number v = true → ∃ n, v = Some (VNum n).
Proof. destruct v as [[]|]; try discriminate. eauto. Qed.

Lemma is_flag_inv v : is_flag v = true → ∃ b, v = Some (VBool b).
Proof. destruct v as [[]|]; try discriminate. eauto. Qed.

Lemma runnable_inv o :
  runnable o = true →
  cls o ≠ TranslateY ∧ cls o ≠ AutoAugment
  ∧ (∃ p, dict o !! "p" = Some (VNum p))
  ∧ (∀ field, field_of (cls o) = Some field → ∃ n, dict o !! field = Some (VNum n))
  ∧ (affine (cls o) = true →
     (∃ b, dict o !! "mirror" = Some (VBool b)) ∧ ∃ r, dict o !! "resample" = Some r).
Proof.
  unfold runnable. intros H.
  apply andb_true_iff in H as [H Ha]. apply andb_true_iff in H as [H Hf].
  apply andb_true_iff in H as [Hc Hp].
  split; [intros E; now rewrite E in Hc |].
  split; [intros E; now rewrite E in Hc |].
  split; [now apply is_number_inv |].
  split.
  - intros field E. rewrite E in Hf. now apply is_number_inv.
  - intros E. rewrite E in Ha. apply andb_true_iff in Ha as [Hm Hr].
    split; [now apply is_flag_inv |]. now apply bool_decide_eq_true in Hr.
Qed.

(** [sample] of a runnable instance returns the class's record. *)
Lemma runnable_sample l o w :
  heap w !! l = Some o → runnable o = true →
  ∃ v w1, sample (VRef l) w = (Ok (record_of (cls o) v), w1).
Proof.
  intros Ho Hrun.
  destruct (runnable_inv o Hrun) as (Hty & Haa & _ & Hfield & Haff).
  assert (Ec : class_of (VRef l) w = (Ok (cls o), w))
    by (unfold class_of; now rewrite Ho).
  unfold sample. rewrite (bind_ok _ _ _ _ _ Ec).
  assert (Haffine : ∀ field, field_of (cls o) = Some field → affine (cls o) = true →
            ∃ v w1, affine_sample field field field field (VRef l) w
                    = (Ok {[field := v]}, w1)).
  { intros field Hf Ha. destruct (Hfield field Hf) as [n Hn].
    destruct (Haff Ha) as [[b Hb] _].
    destruct (mirror_number l o n b w Ho Hb) as (v & w1 & Em & _ & _).
    exists (VNum v), w1. unfold affine_sample.
    assert (Eg : getattr (VRef l) field w = (Ok (VNum n), w))
      by (unfold getattr; now rewrite Ho, Hn).
    rewrite (bind_ok _ _ _ _ _ Eg), (bind_ok _ _ _ _ _ Em).
    now rewrite (bind_ok _ _ _ _ _ (load_bound _ _ _ _)). }
  assert (Hplain : ∀ field, field_of (cls o) = Some field →
            ∃ v w1, plain_sample field (VRef l) w = (Ok {[field := v]}, w1)).
  { intros field Hf. destruct (Hfield field Hf) as [n Hn].
    exists (VNum n), w. unfold plain_sample.
    assert (Eg : getattr (VRef l) field w = (Ok (VNum n), w))
      by (unfold getattr; now rewrite Ho, Hn).
    now rewrite (bind_ok _ _ _ _ _ Eg). }
  unfold record_of.
  destruct (cls o); try congruence;
    first [ exact (Haffine _ eq_refl eq_refl)
          | destruct (Haffine _ eq_refl eq_refl) as (v & w1 & E);
            exists v, w1; unfold TranslateX_sample;
            unfold affine_sample in *;
            apply bind_inv_ok in E as (a & wa & Ea & E);
            apply bind_inv_ok in E as (b & wb & Eb & E);
            rewrite (bind_ok _ _ _ _ _ Ea), (bind_ok _ _ _ _ _ Eb);
            rewrite (bind_ok _ _ _ _ _ (load_bound _ _ _ _)) in E;
            rewrite (bind_ok _ _ _ _ _ (load_bound _ _ _ _)); exact E
          | exact (Hplain _ eq_refl)
          | (exists VNone, w; reflexivity) ].
Qed.

Lemma runnable_gate l o w :
  heap w !! l = Some o → runnable o = true →
  ∃ b w1, gate (VRef l) w = (Ok b, w1).
Proof.
  intros Ho Hrun. destruct (runnable_inv o Hrun) as (_ & _ & [p Hp] & _).
  assert (Eg : getattr (VRef l) "p" w = (Ok (VNum p), w))
    by (unfold getattr; now rewrite Ho, Hp).
  unfold gate. rewrite (bind_ok _ _ _ _ _ Eg). simpl. eauto.
Qed.

Section RunFacts.

Context {image : Type} (pil : pil_call → image → res image).

Lemma reads_call_body pol (img : image) : reads (call_body pil pol img).
Proof.
  unfold call_body. apply reads_bind; [apply reads_sample |].
  intros kw. apply reads_apply_img.
Qed.

Lemma runnable_step l o img w :
  heap w !! l = Some o → runnable o = true →
  pil_outcome pil (call_body pil (VRef l) img w).1.
Proof.
  intros Ho Hrun.
  destruct (runnable_sample l o w Ho Hrun) as (v & w1 & Es).
  assert (Ho1 : heap w1 !! l = Some o).
  { pose proof (reads_sample (VRef l) w) as Hh. rewrite Es in Hh. simpl in Hh.
    now rewrite Hh. }
  destruct (runnable_gate l o w1 Ho1 Hrun) as (b & w2 & Eg).
  assert (Ho2 : heap w2 !! l = Some o).
  { pose proof (reads_gate (VRef l) w1) as Hh. rewrite Eg in Hh. simpl in Hh.
    now rewrite Hh. }
  destruct (runnable_inv o Hrun) as (_ & Haa & _ & _ & Haff).
  unfold call_body, apply_img.
  rewrite (bind_ok _ _ _ _ _ Es), (bind_ok _ _ _ _ _ Eg).
  destruct b; [| exact I].
  assert (Hr : ∃ r, affine (cls o) = true → dict o !! "resample" = Some r).
  { destruct (affine (cls o)); [| now exists VNone].
    destruct (Haff eq_refl) as [_ [r Hr]]. now exists r. }
  destruct Hr as [r Hr].
  destruct (apply_img_own_record pil l o r v img w2 Ho2 Haa Hr) as (call & _ & ->).
  simpl. unfold pil_outcome. destruct (pil call img) eqn:E; [exact I | eauto].
Qed.

Lemma runnable_steps steps : ∀ img w,
  Forall (λ s, ∃ l o, s = VRef l ∧ heap w !! l = Some o ∧ runnable o = true) steps →
  pil_outcome pil (for_each steps img (call_body pil) w).1.
Proof.
  induction steps as [|s steps IH]; intros img w HF; [exact I |].
  apply Forall_cons in HF as [(l & o & -> & Ho & Hrun) HF].
  simpl. pose proof (runnable_step l o img w Ho Hrun) as Hs.
  pose proof (reads_call_body (VRef l) img w) as Hh.
  unfold bind at 1.
  destruct (call_body pil (VRef l) img w) as [[out|e] w1]; [| exact Hs].
  apply IH. simpl in Hh. now rewrite Hh.
Qed.

End RunFacts.

Lemma resolved_runnable t o :
  name_of t ≠ "TranslateY"%string → resolved t = Some o → runnable o = true.
Proof.
  destruct t as [[name prob] level]. unfold name_of, resolved. cbn [fst snd].
  intros Hn.
  destruct (autoaugment_map !! name) as [[c r]|] eqn:Hr; [| discriminate].
  apply elem_of_list_to_map_2 in Hr.
  repeat (apply elem_of_cons in Hr as [Hr|Hr];
          [injection Hr as -> -> ->; try congruence;
           try (destruct (_ level) as [m|]; [| discriminate]);
           (destruct (valid_prob prob); [| discriminate]);
           intros [= <-]; vm_compute; reflexivity |]).
  now apply elem_of_nil in Hr.
Qed.

Lemma runnable_rows table :
  Forall (Forall runnable_triple) table →
  ∃ rows, mapM (mapM resolved) table = Some rows
          ∧ Forall (λ o, runnable o = true) (concat rows)
          ∧ length (concat rows) = length (concat table).
Proof.
  induction 1 as [|row table Hrow _ (rows & Hrows & Hrun & Hlen)].
  - exists []. repeat split. constructor.
  - assert (Hr : ∃ insts, mapM resolved row = Some insts
                          ∧ Forall (λ o, runnable o = true) insts
                          ∧ length insts = length row).
    { clear -Hrow. induction Hrow as [|t row (Hw & Hreg & Hn) _ (insts & Hi & Hrun & Hlen)].
      - exists []. repeat split. constructor.
      - destruct (well_formed_resolved t Hw Hreg) as [o Ho].
        exists (o :: insts). rewrite mapM_Some in Hi |- *.
        split; [now constructor |].
        split; [constructor; [now apply (resolved_runnable t) | exact Hrun] |].
        simpl. now rewrite Hlen. }
    destruct Hr as (insts & Hi & Hri & Hli).
    exists (insts :: rows). rewrite mapM_Some in Hrows |- *.
    split; [now constructor |]. simpl.
    split; [apply Forall_app; auto |]. rewrite !length_app. lia.
Qed.

Lemma refs_in {P : instance → Prop} (h insts tl : list instance) n k :
  Forall P insts → (length h ≤ n)%nat → (n + k ≤ length h + length insts)%nat →
  Forall (λ s, ∃ l o, s = VRef l ∧ (h ++ insts ++ tl) !! l = Some o ∧ P o) (refs n k).
Proof.
  intros HP Hn Hk. apply Forall_forall. intros s Hs.
  unfold refs in Hs. apply list_elem_of_fmap in Hs as (l & -> & Hl).
  apply elem_of_seq in Hl.
  destruct (lookup_lt_is_Some_2 insts (l - length h)) as [o Ho]; [lia |].
  exists l, o. split; [reflexivity |]. split.
  - rewrite lookup_app_r by lia. now rewrite lookup_app_l by (eapply lookup_lt_Some; eauto).
  - rewrite Forall_forall in HP. apply HP. eapply list_elem_of_lookup_2; eauto.
Qed.

Lemma ref_rows_in {P : instance → Prop} (h insts tl : list instance) table : ∀ n,
  Forall P insts → (length h ≤ n)%nat →
  (n + length (concat table) ≤ length h + length insts)%nat →
  Forall (λ sub, ∃ steps, sub = VList steps
            ∧ Forall (λ s, ∃ l o, s = VRef l ∧ (h ++ insts ++ tl) !! l = Some o ∧ P o) steps)
         (ref_rows n table).
Proof.
  induction table as [|row table IH]; intros n HP Hn Hk; [constructor |].
  simpl in Hk. rewrite length_app in Hk. cbn [ref_rows]. constructor.
  - eexists. split; [reflexivity |]. apply refs_in; auto. lia.
  - apply IH; auto; lia.
Qed.

Lemma AutoAugment_new_object policy w :
  AutoAugment_new policy w
  = (Ok (VRef (length (heap w))), with_heap (heap w ++ [AutoAugment_object policy]) w).
Proof.
  unfold AutoAugment_new, AutoAugment_init, new. unfold bind at 1.
  rewrite (bind_ok _ _ _ _ _ (setattr_fresh w _ "policy" policy)). reflexivity.
Qed.

Section EntryFacts.

Context {image : Type} (pil : pil_call → image → res image).
Context {diagnostic : Type} (not_applied : diagnostic)
        (describe : pyclass → params → image → image → diagnostic).

(** Both entry points come down to their loop over the selected steps. *)
Lemma call_selected self (img : image) w subs steps :
  has_policy w self subs →
  subs !! choice_index (length subs) w = Some (VList steps) →
  AutoAugment_call pil self img w = for_each steps img (call_body pil) (advance w).
Proof.
  intros Hp Hk.
  assert (Hne : subs ≠ []) by (intros ->; discriminate).
  apply has_policy_getattr in Hp.
  destruct (random_choice_ok subs w Hne) as (v & Hv & Hc).
  rewrite Hk in Hv. injection Hv as <-.
  unfold AutoAugment_call.
  now rewrite !(bind_ok _ _ _ _ _ Hp), !(bind_ok _ _ _ _ _ Hc).
Qed.

Lemma check_selected self (img : image) w subs steps :
  has_policy w self subs →
  subs !! choice_index (length subs) w = Some (VList steps) →
  AutoAugment_check pil not_applied describe self img w
  = for_each steps (img, []) (check_body pil not_applied describe) (advance w).
Proof.
  intros Hp Hk.
  assert (Hne : subs ≠ []) by (intros ->; discriminate).
  apply has_policy_getattr in Hp.
  destruct (random_choice_ok subs w Hne) as (v & Hv & Hc).
  rewrite Hk in Hv. injection Hv as <-.
  unfold AutoAugment_check.
  now rewrite !(bind_ok _ _ _ _ _ Hp), !(bind_ok _ _ _ _ _ Hc).
Qed.

(** The diagnostic loop raises what the plain loop raises. *)
Lemma check_loop_outcome steps (img : image) w :
  pil_outcome pil (for_each steps img (call_body pil) w).1 →
  pil_outcome pil (for_each steps (img, []) (check_body pil not_applied describe) w).1.
Proof.
  intros H. pose proof (check_loop pil not_applied describe steps img [] w) as Hl.
  destruct (for_each steps (img, []) (check_body pil not_applied describe) w)
    as [[r|e'] w2] eqn:Echk; [exact I |].
  destruct (for_each steps img (call_body pil) w) as [[out|e] w1].
  - destruct Hl as (log & Hl & _).
    pose proof (eq_trans (eq_sym Echk) Hl) as Hd. discriminate Hd.
  - pose proof (eq_trans (eq_sym Echk) Hl) as Hd. injection Hd as -> _. exact H.
Qed.

End EntryFacts.

Section PolicyFacts.

Context {image : Type} (pil : pil_call → image → res image).
Context {diagnostic : Type} (not_applied : diagnostic)
        (describe : pyclass → params → image → image → diagnostic).

(** X9. A literal table without TranslateY runs. For any non-empty table
    whose triples are well formed and name registered operations other
    than TranslateY, from any world: the builder returns the policy,
    [AutoAugment] takes it, and on every state of the generator and every
    image [__call__] and [check] either return or raise what a PIL
    operation raised; no sample, gate or keyword binding of their own
    fails. *)
Theorem built_policy_runs (table : list (list triple)) (w : world) (img : image) :
  table ≠ [] →
  Forall (Forall runnable_triple) table →
  ∃ policy w1 self w2,
    build_policy table w = (Ok policy, w1)
    ∧ AutoAugment_new policy w1 = (Ok self, w2)
    ∧ ∀ g, let w' := {| heap := heap w2; rng := g |} in
           pil_outcome pil (AutoAugment_call pil self img w').1
           ∧ pil_outcome pil (AutoAugment_check pil not_applied describe self img w').1.
Proof.
  intros Hne Hrun.
  destruct (runnable_rows table Hrun) as (rows & Hrows & Hall & Hlen).
  set (subs := ref_rows (length (heap w)) table).
  set (w1 := with_heap (heap w ++ concat rows) w).
  exists (VList subs), w1, (VRef (length (heap w1))),
         (with_heap (heap w1 ++ [AutoAugment_object (VList subs)]) w1).
  split; [now apply build_policy_resolved |].
  split; [apply AutoAugment_new_object |].
  intros g. cbn [heap with_heap].
  set (w' := {| heap := _; rng := g |}). cbv zeta.
  assert (Hp : has_policy w' (VRef (length (heap w1))) subs).
  { exists (length (heap w1)), (AutoAugment_object (VList subs)).
    split; [reflexivity |]. split; [| apply lookup_singleton_eq].
    subst w'. cbn [heap]. rewrite lookup_app_r by lia.
    now rewrite Nat.sub_diag. }
  assert (Hsubs : subs ≠ []).
  { intros E. apply (f_equal length) in E. unfold subs in E.
    rewrite ref_rows_length in E. destruct table; [congruence | discriminate]. }
  destruct (random_choice_ok subs w' Hsubs) as (v & Hv & _).
  pose proof (ref_rows_in (heap w) (concat rows) [AutoAugment_object (VList subs)]
                table (length (heap w)) Hall ltac:(lia) ltac:(lia)) as Hin.
  rewrite Forall_forall in Hin.
  destruct (Hin v) as (steps & -> & Hsteps);
    [eapply list_elem_of_lookup_2; exact Hv |].
  assert (Hloop : pil_outcome pil (for_each steps img (call_body pil) (advance w')).1).
  { apply runnable_steps.
    eapply Forall_impl; [exact Hsteps |].
    intros s (l & o & -> & Ho & Hr). exists l, o.
    split; [reflexivity |]. split; [| exact Hr].
    subst w' w1. cbn [heap advance with_heap]. now rewrite <- app_assoc. }
  rewrite (call_selected pil _ img w' subs steps Hp Hv).
  rewrite (check_selected pil not_applied describe _ img w' subs steps Hp Hv).
  split; [exact Hloop | now apply check_loop_outcome].
Qed.

(** *** A TranslateY step *)

Lemma translate_y_step l o (img : image) w out w' :
  heap w !! l = Some o → cls o = TranslateY →
  call_body pil (VRef l) img w ≠ (Ok out, w').
Proof.
  intros Ho Hc E. unfold call_body in E.
  apply bind_inv_ok in E as (kw & w1 & Es & _).
  destruct (sample_record _ _ _ _ _ Ho Es) as [Hty _]. contradiction.
Qed.

Lemma translate_y_among_steps l o steps : ∀ (img : image) w out w',
  VRef l ∈ steps → heap w !! l = Some o → cls o = TranslateY →
  for_each steps img (call_body pil) w ≠ (Ok out, w').
Proof.
  induction steps as [|s steps IH]; intros img w out w' Hin Ho Hc E.
  - now apply elem_of_nil in Hin.
  - simpl in E. apply bind_inv_ok in E as (img1 & w1 & E1 & E).
    apply elem_of_cons in Hin as [<-|Hin].
    + now apply (translate_y_step l o img w img1 w1).
    + pose proof (reads_call_body pil s img w) as Hh. rewrite E1 in Hh. simpl in Hh.
      apply (IH img1 w1 out w' Hin); [now rewrite Hh | exact Hc | exact E].
Qed.

(** X10. The defect of [TranslateY.sample] reaches both entry points. When
    the selected sub-policy holds a TranslateY instance at any position,
    neither [__call__] nor [check] returns: each raises, whatever the image,
    the probabilities and the later draws are. *)
Theorem translate_y_aborts_entry_points (self : value) (img : image) (w : world)
    (subs steps : list value) (l : loc) (o : instance) :
  has_policy w self subs →
  subs !! choice_index (length subs) w = Some (VList steps) →
  VRef l ∈ steps →
  heap w !! l = Some o →
  cls o = TranslateY →
  (∀ out w', AutoAugment_call pil self img w ≠ (Ok out, w'))
  ∧ (∀ out w', AutoAugment_check pil not_applied describe self img w ≠ (Ok out, w')).
Proof.
  intros Hp Hk Hin Ho Hc.
  pose proof (call_selected pil self img w subs steps Hp Hk) as Ecall.
  pose proof (check_selected pil not_applied describe self img w subs steps Hp Hk)
    as Echeck.
  assert (Hcall : ∀ out w', for_each steps img (call_body pil) (advance w) ≠ (Ok out, w')).
  { intros out w'. now apply (translate_y_among_steps l o). }
  split.
  - intros out w'. rewrite Ecall. apply Hcall.
  - intros [out log] w' E. rewrite Echeck in E.
    pose proof (check_loop pil not_applied describe steps img [] (advance w)) as Hl.
    destruct (for_each steps img (call_body pil) (advance w)) as [[out'|e] w2] eqn:Ec.
    + now apply (Hcall out' w2).
    + pose proof (eq_trans (eq_sym E) Hl) as Hd. discriminate Hd.
Qed.

(** X11. A sub-policy without steps. When the selected sub-policy is the
    empty list, [__call__] returns the input image itself and [check] the
    input image with an empty trace; the only draw taken is the one that
    selected. *)
Theorem empty_sub_policy_returns_input (self : value) (img : image) (w : world)
    (subs : list value) :
  has_policy w self subs →
  subs !! choice_index (length subs) w = Some (VList []) →
  AutoAugment_call pil self img w = (Ok img, advance w)
  ∧ AutoAugment_check pil not_applied describe self img w = (Ok (img, []), advance w).
Proof.
  intros Hp Hk.
  rewrite (call_selected pil self img w subs [] Hp Hk).
  rewrite (check_selected pil not_applied describe self img w subs [] Hp Hk).
  split; reflexivity.
Qed.

End PolicyFacts.

(** ** What the builder does to the world *)

Lemma allocates_ret {A} (a : A) : allocates 0 (ret a).
Proof. intros w. split; [reflexivity |]. exists []. simpl. now rewrite app_nil_r. Qed.

Lemma allocates_raise {A} e k : allocates k (@raise A e).
Proof.
  intros w. split; [reflexivity |]. exists []. simpl. rewrite app_nil_r.
  split; [reflexivity |]. split; [lia | discriminate].
Qed.

Lemma allocates_lift {A} (r : res A) : allocates 0 (lift r).
Proof. intros w. split; [reflexivity |]. exists []. simpl. now rewrite app_nil_r. Qed.

Lemma allocates_bind {A B} j k (m : M A) (f : A → M B) :
  allocates j m → (∀ a, allocates k (f a)) → allocates (j + k) (bind m f).
Proof.
  intros Hm Hf w. unfold bind. specialize (Hm w).
  destruct (m w) as [[a|e] w1]; simpl in Hm; destruct Hm as (Hr & ext & Hh & Hle & Hok).
  - destruct (Hf a w1) as (Hr' & ext' & Hh' & Hle' & Hok').
    split; [congruence |]. exists (ext ++ ext').
    rewrite Hh', Hh, <- app_assoc, length_app.
    split; [reflexivity |]. specialize (Hok eq_refl). split; [lia |].
    intros E. specialize (Hok' E). lia.
  - split; [exact Hr |]. exists ext. simpl.
    split; [exact Hh |]. split; [lia | discriminate].
Qed.

Lemma allocates_for_each {A S} (body : A → S → M S) (size : A → nat) xs :
  (∀ x s, allocates (size x) (body x s)) →
  ∀ s, allocates (sum_list (size <$> xs)) (for_each xs s body).
Proof.
  intros Hb. induction xs as [|x xs IH]; intros s; simpl.
  - apply allocates_ret.
  - apply allocates_bind; [apply Hb | exact IH].
Qed.

Lemma construct_ill_called c magnitude p w :
  well_called c magnitude = false → construct c magnitude p w = (Err TypeError, w).
Proof. destruct c, magnitude; try discriminate; reflexivity. Qed.

Lemma allocates_construct c magnitude p : allocates 1 (construct c magnitude p).
Proof.
  intros w. destruct (well_called c magnitude) eqn:Hc.
  - destruct (valid_prob p) eqn:Hp.
    + rewrite (construct_valid _ _ _ w Hc Hp). split; [reflexivity |].
      eexists. split; [reflexivity |]. simpl. split; [lia | reflexivity].
    + rewrite (construct_invalid _ _ _ w Hc Hp). split; [reflexivity |].
      eexists. split; [reflexivity |]. simpl. split; [lia | discriminate].
  - rewrite (construct_ill_called _ _ _ w Hc). apply (allocates_raise TypeError 1 w).
Qed.

Lemma allocates_build_step t sub : allocates 1 (build_step t sub).
Proof.
  destruct t as [[name prob] level]. unfold build_step.
  destruct (autoaugment_map !! name) as [[c [f|]]|]; [| | apply allocates_raise].
  - apply (allocates_bind 0 1); [apply allocates_lift |]. intros m.
    apply (allocates_bind 1 0); [apply allocates_construct |]. intros inst.
    apply allocates_ret.
  - apply (allocates_bind 1 0); [apply allocates_construct |]. intros inst.
    apply allocates_ret.
Qed.

Lemma sum_list_ones {A} (xs : list A) : sum_list ((λ _, 1%nat) <$> xs) = length xs.
Proof.
  induction xs as [|x xs IH]; [reflexivity |].
  rewrite fmap_cons. cbn [sum_list_with length]. now rewrite IH.
Qed.

Lemma sum_list_lengths {A} (xss : list (list A)) :
  sum_list (length <$> xss) = length (concat xss).
Proof.
  induction xss as [|xs xss IH]; [reflexivity |].
  rewrite fmap_cons. cbn [sum_list_with concat]. rewrite length_app, IH. reflexivity.
Qed.

Lemma allocates_build_row row acc : allocates (length row) (build_row row acc).
Proof.
  unfold build_row. rewrite <- (Nat.add_0_r (length row)).
  apply allocates_bind; [| intros; apply allocates_ret].
  rewrite <- sum_list_ones. apply allocates_for_each. intros t s. apply allocates_build_step.
Qed.

Lemma allocates_build_policy table :
  allocates (length (concat table)) (build_policy table).
Proof.
  unfold build_policy. rewrite <- (Nat.add_0_r (length (concat table))).
  apply allocates_bind; [| intros; apply allocates_ret].
  rewrite <- sum_list_lengths.
  apply (allocates_for_each build_row length). intros row acc. apply allocates_build_row.
Qed.

(** X12. Building a policy only allocates. For every literal table and
    every world, whether the builder returns or raises: it takes no draw
    from the generator, every instance that was in the store is still there
    unchanged at its address, and the store has grown by at most one
    instance per triple of the table, by exactly one per triple when the
    builder returns. *)
Theorem builder_only_allocates (table : list (list triple)) (w : world) :
  rng (build_policy table w).2 = rng w
  ∧ ∃ ext, heap (build_policy table w).2 = heap w ++ ext
           ∧ (length ext ≤ length (concat table))%nat
           ∧ (is_ok (build_policy table w).1 = true → length ext = length (concat table)).
Proof. apply allocates_build_policy. Qed.

(** ** Tables that keep the data model's invariants *)

Lemma well_formed_rows table :
  Forall (Forall (λ t, well_formed t = true)) table →
  Forall (Forall registered) table →
  ∃ rows, mapM (mapM resolved) table = Some rows
          ∧ Forall2 (Forall2 built_from) table rows.
Proof.
  intros Hwf Hreg. induction table as [|row table IH].
  - exists []. split; [reflexivity | constructor].
  - apply Forall_cons in Hwf as [Hw Hwf]. apply Forall_cons in Hreg as [Hr Hreg].
    destruct (IH Hwf Hreg) as (rows & Hrows & HF).
    assert (Hi : ∃ insts, mapM resolved row = Some insts ∧ Forall2 built_from row insts).
    { clear -Hw Hr. induction row as [|t row IH].
      - exists []. split; [reflexivity | constructor].
      - apply Forall_cons in Hw as [Ht Hw]. apply Forall_cons in Hr as [Hrt Hr].
        destruct (IH Hw Hr) as (insts & Hi & HF).
        destruct (well_formed_resolved t Ht Hrt) as [o Ho].
        exists (o :: insts). rewrite mapM_Some in Hi |- *.
        split; [now constructor |].
        constructor; [now apply resolved_built_from | exact HF]. }
    destruct Hi as (insts & Hi & HFi).
    exists (insts :: rows). rewrite mapM_Some in Hrows |- *.
    split; [now constructor | now constructor].
Qed.

Lemma ref_rows_shape table : ∀ n,
  Forall2 (λ row sub, ∃ steps, sub = VList steps ∧ length steps = length row)
          table (ref_rows n table).
Proof.
  induction table as [|row table IH]; intros n; cbn [ref_rows]; constructor; [| apply IH].
  eexists. split; [reflexivity |]. unfold refs. now rewrite length_fmap, length_seq.
Qed.

(** X13. On a literal table that keeps the data model's invariants
    (probabilities in [[0, 1]], integer levels from 0 to 10) the builder
    returns exactly when every name of the table is registered. It then
    returns one sub-policy per row, in row order, each with one step per
    triple of its row, and step [j] of sub-policy [i] refers to the
    instance built from triple [j] of row [i]; an empty table gives the
    empty policy and an empty row an empty sub-policy. *)
Theorem well_formed_table_builds (table : list (list triple)) (w : world) :
  Forall (Forall (λ t, well_formed t = true)) table →
  (Forall (Forall registered) table ↔ ∃ v w', build_policy table w = (Ok v, w'))
  ∧ (Forall (Forall registered) table →
     ∃ subs insts,
       build_policy table w = (Ok (VList subs), with_heap (heap w ++ insts) w)
       ∧ Forall2 (λ row sub, ∃ steps, sub = VList steps ∧ length steps = length row)
                 table subs
       ∧ ∀ i j row t, table !! i = Some row → row !! j = Some t →
           ∃ steps l o, subs !! i = Some (VList steps)
                        ∧ steps !! j = Some (VRef l)
                        ∧ (heap w ++ insts) !! l = Some o
                        ∧ built_from t o).
Proof.
  intros Hwf.
  assert (Hbuild : Forall (Forall registered) table →
     ∃ subs insts,
       build_policy table w = (Ok (VList subs), with_heap (heap w ++ insts) w)
       ∧ Forall2 (λ row sub, ∃ steps, sub = VList steps ∧ length steps = length row)
                 table subs
       ∧ ∀ i j row t, table !! i = Some row → row !! j = Some t →
           ∃ steps l o, subs !! i = Some (VList steps)
                        ∧ steps !! j = Some (VRef l)
                        ∧ (heap w ++ insts) !! l = Some o
                        ∧ built_from t o).
  { intros Hreg. destruct (well_formed_rows table Hwf Hreg) as (rows & Hrows & HF).
    exists (ref_rows (length (heap w)) table), (concat rows).
    split; [now apply build_policy_resolved |].
    split; [apply ref_rows_shape |].
    now apply ref_rows_lookup. }
  split; [| exact Hbuild]. split.
  - intros Hreg. destruct (Hbuild Hreg) as (subs & insts & E & _). eauto.
  - intros (v & w' & E). unfold build_policy in E.
    apply bind_inv_ok in E as (r & w1 & E & _).
    eapply outer_loop_ok_registered; eauto.
Qed.

(** ** From the constructor to the sampled record *)

Lemma instance_of_fields c field n p :
  field_of c = Some field →
  dict (instance_of c (Some (VNum n)) p) !! field = Some (VNum n)
  ∧ (affine c = true →
     dict (instance_of c (Some (VNum n)) p) !! "mirror" = Some (VBool true)).
Proof.
  destruct c; intros [= <-]; (split; [vm_compute; reflexivity |]);
    first [discriminate | intros _; vm_compute; reflexivity].
Qed.

(** X14. From the constructor to the sampled record. A transform of any
    class with a magnitude other than TranslateY, constructed on a number
    with an admissible probability, samples a record with the one entry of
    its own field. For the six classes outside the affine family the entry
    is the constructed number itself and no draw is taken; for the affine
    classes (whose mirror flag defaults to true) one draw is taken and the
    entry is the number or its exact opposite. *)
Theorem constructed_sample_round_trip (c : pyclass) (field : string) (n p : pynum)
    (w : world) :
  field_of c = Some field →
  c ≠ TranslateY →
  is_double n = true →
  valid_prob p = true →
  ∃ self w1 v w2,
    construct c (Some (VNum n)) p w = (Ok self, w1)
    ∧ sample self w1 = (Ok {[field := VNum v]}, w2)
    ∧ (if affine c then w2 = advance w1 ∧ (v = n ∨ v = opposite n)
       else w2 = w1 ∧ v = n).
Proof.
  intros Hf Hc Hn Hp.
  assert (Hw : well_called c (Some (VNum n)) = true) by (destruct c; now try discriminate).
  set (o := instance_of c (Some (VNum n)) p).
  set (w1 := with_heap (heap w ++ [o]) w).
  set (l := length (heap w)).
  assert (Ho : heap w1 !! l = Some o).
  { subst w1 l. cbn [heap with_heap]. rewrite lookup_app_r by lia.
    now rewrite Nat.sub_diag. }
  destruct (instance_of_fields c field n p Hf) as [Hfield Hmirror]. fold o in Hfield, Hmirror.
  assert (Ec : class_of (VRef l) w1 = (Ok c, w1))
    by exact (class_of_lookup l o w1 Ho).
  assert (Eg : getattr (VRef l) field w1 = (Ok (VNum n), w1))
    by exact (getattr_lookup l o field _ w1 Ho Hfield).
  assert (Haffine : affine c = true →
            ∃ v, affine_sample field field field field (VRef l) w1
                 = (Ok {[field := VNum v]}, advance w1)
                 ∧ (v = n ∨ v = opposite n)).
  { intros Ha.
    assert (Em : getattr (VRef l) "mirror" w1 = (Ok (VBool true), w1))
      by exact (getattr_lookup l o "mirror" _ w1 Ho (Hmirror Ha)).
    destruct (mirror_on (VRef l) n (VBool true) w1 Em eq_refl Hn) as (v & Ev & Hv).
    exists v. split; [| exact Hv]. unfold affine_sample.
    rewrite (bind_ok _ _ _ _ _ Eg), (bind_ok _ _ _ _ _ Ev).
    now rewrite (bind_ok _ _ _ _ _ (load_bound _ _ _ _)). }
  assert (Hplain : plain_sample field (VRef l) w1 = (Ok {[field := VNum n]}, w1))
    by (unfold plain_sample; now rewrite (bind_ok _ _ _ _ _ Eg)).
  exists (VRef l), w1.
  destruct c; try discriminate Hf; try congruence; injection Hf as <-;
    unfold sample; rewrite (bind_ok _ _ _ _ _ Ec);
    first [ destruct (Haffine eq_refl) as (v & Ev & Hv);
            exists v, (advance w1);
            split; [now apply construct_valid |];
            split; [| split; [reflexivity | exact Hv]];
            first [ exact Ev
                  | unfold TranslateX_sample; unfold affine_sample in *;
                    rewrite (bind_ok _ _ _ _ _ Eg) in *;
                    apply bind_inv_ok in Ev as (b & wb & Eb & Ev);
                    rewrite (bind_ok _ _ _ _ _ Eb);
                    rewrite (bind_ok _ _ _ _ _ (load_bound _ _ _ _)) in Ev;
                    rewrite (bind_ok _ _ _ _ _ (load_bound _ _ _ _)); exact Ev ]
          | exists n, w1;
            split; [now apply construct_valid |];
            split; [exact Hplain | split; reflexivity] ].
Qed.

(** ** One instance per step *)

Lemma build_step_ok_resolved t sub w r w' :
  build_step t sub w = (Ok r, w') → is_Some (resolved t).
Proof.
  destruct t as [[name prob] level]. unfold build_step, resolved.
  destruct (autoaugment_map !! name) as [[c [f|]]|] eqn:Hr; [| | discriminate].
  - intros E. apply bind_inv_ok in E as (m & w1 & Em & E).
    unfold lift in Em. injection Em as -> <-.
    apply bind_inv_ok in E as (inst & w2 & Ec & _).
    pose proof (registry_well_called _ _ _ (VNum m) Hr) as Hc. simpl in Hc.
    destruct (valid_prob prob) eqn:Hp; [eauto |].
    rewrite (construct_invalid _ _ _ w Hc Hp) in Ec. discriminate.
  - intros E. apply bind_inv_ok in E as (inst & w2 & Ec & _).
    pose proof (registry_well_called _ _ _ VNone Hr) as Hc. simpl in Hc.
    destruct (valid_prob prob) eqn:Hp; [eauto |].
    rewrite (construct_invalid _ _ _ w Hc Hp) in Ec. discriminate.
Qed.

Lemma inner_loop_ok_resolved row : ∀ sub w r w',
  for_each row sub build_step w = (Ok r, w') → is_Some (mapM resolved row).
Proof.
  induction row as [|t row IH]; intros sub w r w' E; [now exists [] |].
  simpl in E. apply bind_inv_ok in E as (s1 & w1 & E1 & E).
  destruct (build_step_ok_resolved _ _ _ _ _ E1) as [o Ho].
  destruct (IH _ _ _ _ E) as [insts Hi].
  exists (o :: insts). rewrite mapM_Some in Hi |- *. now constructor.
Qed.

Lemma outer_loop_ok_resolved table : ∀ acc w r w',
  for_each table acc build_row w = (Ok r, w') → is_Some (mapM (mapM resolved) table).
Proof.
  induction table as [|row table IH]; intros acc w r w' E; [now exists [] |].
  simpl in E. apply bind_inv_ok in E as (s1 & w1 & E1 & E).
  unfold build_row in E1. apply bind_inv_ok in E1 as (s2 & w2 & E2 & _).
  destruct (inner_loop_ok_resolved _ _ _ _ _ E2) as [insts Hi].
  destruct (IH _ _ _ _ E) as [rows Hr].
  exists (insts :: rows). rewrite mapM_Some in Hr |- *. now constructor.
Qed.

Lemma refs_app n j k : refs n (j + k) = refs n j ++ refs (n + j) k.
Proof. unfold refs. now rewrite seq_app, fmap_app. Qed.

Lemma steps_of_ref_rows table : ∀ n,
  steps_of (ref_rows n table) = refs n (length (concat table)).
Proof.
  induction table as [|row table IH]; intros n; [reflexivity |].
  cbn [ref_rows concat]. unfold steps_of. rewrite fmap_cons. cbn [concat].
  fold (steps_of (ref_rows (n + length row) table)).
  now rewrite IH, length_app, refs_app.
Qed.

(** X15. Every step gets an instance of its own. Whenever the builder
    returns, for any literal table and from any world, the steps of the
    returned policy read row by row are references to the consecutive
    addresses that follow the store as it was, one per triple and in table
    order: each refers to an instance allocated by this call, and no two
    steps share an instance, even where the table repeats a triple. *)
Theorem built_steps_are_fresh_and_distinct (table : list (list triple))
    (w : world) (v : value) (w' : world) :
  build_policy table w = (Ok v, w') →
  ∃ subs, v = VList subs
          ∧ length subs = length table
          ∧ steps_of subs = VRef <$> seq (length (heap w)) (length (concat table))
          ∧ NoDup (steps_of subs)
          ∧ length (heap w') = (length (heap w) + length (concat table))%nat.
Proof.
  intros E.
  assert (Hr : is_Some (mapM (mapM resolved) table)).
  { unfold build_policy in E. apply bind_inv_ok in E as (r & w1 & E & _).
    eapply outer_loop_ok_resolved; eauto. }
  destruct Hr as [rows Hrows].
  pose proof (allocates_build_policy table w) as (_ & ext & Hh & _ & Hlen).
  rewrite (build_policy_resolved table rows w Hrows) in E. injection E as <- <-.
  exists (ref_rows (length (heap w)) table).
  split; [reflexivity |]. split; [apply ref_rows_length |].
  rewrite steps_of_ref_rows. split; [reflexivity |].
  split.
  - apply NoDup_fmap_2; [intros a b [= ->]; reflexivity | apply NoDup_seq].
  - rewrite (build_policy_resolved table rows w Hrows) in Hh, Hlen.
    cbn [heap with_heap fst snd] in *. rewrite Hh, length_app.
    now rewrite (Hlen eq_refl).
Qed.

(** ** On concrete worlds *)

Lemma mirror_keeps_magnitude_witness :
  ∃ v, AutoAugmentAffine_mirror (VRef 0%nat) (VNum (PyFloat Py.f0_3)) world_shear_x
       = (Ok (VNum v), advance world_shear_x)
       ∧ (v = PyFloat Py.f0_3 ∨ v = opposite (PyFloat Py.f0_3)).
Proof.
  refine (proj2 (mirror_keeps_magnitude 0%nat
                   (instance_of ShearX (Some (VNum (PyFloat Py.f0_3))) p1_0)
                   (VBool true) world_shear_x _ _) eq_refl (PyFloat Py.f0_3) _).
  - vm_compute. reflexivity.
  - vm_compute. reflexivity.
  - vm_compute. reflexivity.
Defined.

(** The first draw of [world0] mirrors: the sampled shear is -0.3, placed
    in the horizontal shear coefficient. *)
Lemma sample_record_fits_apply_img_witness :
  ∃ v call,
    ({["shear_x" := VNum (opposite (PyFloat Py.f0_3))]} : params) = record_of ShearX v
    ∧ pil_call_of ShearX v (VFilter NEAREST) = Some call
    ∧ _apply_img sym_pil (VRef 0%nat) []
        {["shear_x" := VNum (opposite (PyFloat Py.f0_3))]} (advance world_shear_x)
      = (sym_pil call [], advance world_shear_x).
Proof.
  refine (sample_record_fits_apply_img sym_pil 0%nat
            (instance_of ShearX (Some (VNum (PyFloat Py.f0_3))) p1_0)
            (VFilter NEAREST) [] world_shear_x
            {["shear_x" := VNum (opposite (PyFloat Py.f0_3))]} (advance world_shear_x)
            _ _ _).
  - vm_compute. reflexivity.
  - intros _. vm_compute. reflexivity.
  - vm_compute. reflexivity.
Defined.

Lemma policy_list_runnable : Forall (Forall runnable_triple) policy_list.
Proof.
  unfold policy_list.
  repeat (apply Forall_cons; split;
          [repeat (apply Forall_cons; split;
                   [split; [vm_compute; reflexivity
                           | split; [eexists; reflexivity | cbn; discriminate]] |]);
           apply Forall_nil; exact I |]).
  apply Forall_nil. exact I.
Defined.

(** The canonical policy runs. *)
Lemma built_policy_runs_witness :
  ∃ policy w1 self w2,
    autoaugment_policy world0 = (Ok policy, w1)
    ∧ AutoAugment_new policy w1 = (Ok self, w2)
    ∧ ∀ g, let w' := {| heap := heap w2; rng := g |} in
           pil_outcome sym_pil (AutoAugment_call sym_pil self [] w').1
           ∧ pil_outcome sym_pil
               (AutoAugment_check sym_pil None (λ c _ _ _, Some c) self [] w').1.
Proof.
  apply (built_policy_runs sym_pil None (λ c _ _ _, Some c) policy_list world0 []).
  - discriminate.
  - exact policy_list_runnable.
Defined.

Lemma world_translate_policy_has :
  has_policy world_translate_policy (VRef 1%nat) [VList []; VList [VRef 0%nat]].
Proof.
  eexists 1%nat, _. split; [reflexivity |].
  split; [vm_compute; reflexivity |]. vm_compute. reflexivity.
Defined.

(** The first draw of [world0] selects the sub-policy with the TranslateY
    step. *)
Lemma translate_y_aborts_entry_points_witness :
  (∀ out w', AutoAugment_call sym_pil (VRef 1%nat) [] world_translate_policy ≠ (Ok out, w'))
  ∧ (∀ out w', AutoAugment_check sym_pil None (λ c _ _ _, Some c) (VRef 1%nat) []
                 world_translate_policy ≠ (Ok out, w')).
Proof.
  apply (translate_y_aborts_entry_points sym_pil None (λ c _ _ _, Some c)
           (VRef 1%nat) [] world_translate_policy
           [VList []; VList [VRef 0%nat]] [VRef 0%nat] 0%nat
           (instance_of TranslateY (Some (VNum (PyInt 3))) p1_0)
           world_translate_policy_has).
  - vm_compute. reflexivity.
  - apply list_elem_of_here.
  - vm_compute. reflexivity.
  - reflexivity.
Defined.

Lemma world_translate_policy_advanced :
  has_policy (advance world_translate_policy) (VRef 1%nat) [VList []; VList [VRef 0%nat]].
Proof.
  eexists 1%nat, _. split; [reflexivity |].
  split; [vm_compute; reflexivity |]. vm_compute. reflexivity.
Defined.

(** The second draw selects the empty sub-policy. *)
Lemma empty_sub_policy_returns_input_witness :
  AutoAugment_call sym_pil (VRef 1%nat) [Transforms_invert] (advance world_translate_policy)
  = (Ok [Transforms_invert], advance (advance world_translate_policy))
  ∧ AutoAugment_check sym_pil None (λ c _ _ _, Some c) (VRef 1%nat) [Transforms_invert]
      (advance world_translate_policy)
    = (Ok ([Transforms_invert], []), advance (advance world_translate_policy)).
Proof.
  apply (empty_sub_policy_returns_input sym_pil None (λ c _ _ _, Some c)
           (VRef 1%nat) [Transforms_invert] (advance world_translate_policy)
           [VList []; VList [VRef 0%nat]] world_translate_policy_advanced).
  vm_compute. reflexivity.
Defined.

Lemma well_formed_table_builds_witness :
  ∃ subs insts,
    build_policy translate_table world0 = (Ok (VList subs), with_heap (heap world0 ++ insts) world0)
    ∧ Forall2 (λ row sub, ∃ steps, sub = VList steps ∧ length steps = length row)
              translate_table subs
    ∧ ∀ i j row t, translate_table !! i = Some row → row !! j = Some t →
        ∃ steps l o, subs !! i = Some (VList steps)
                     ∧ steps !! j = Some (VRef l)
                     ∧ (heap world0 ++ insts) !! l = Some o
                     ∧ built_from t o.
Proof.
  apply (well_formed_table_builds translate_table world0).
  - repeat constructor.
  - repeat constructor. eexists. reflexivity.
Defined.

Lemma constructed_sample_round_trip_witness :
  ∃ self w1 v w2,
    construct Rotate (Some (VNum (PyInt 27))) p0_6 world0 = (Ok self, w1)
    ∧ sample self w1 = (Ok {["rotate" := VNum v]}, w2)
    ∧ w2 = advance w1 ∧ (v = PyInt 27 ∨ v = PyInt (-27)).
Proof.
  refine (constructed_sample_round_trip Rotate "rotate" (PyInt 27) p0_6 world0
            eq_refl _ eq_refl _).
  - discriminate.
  - vm_compute. reflexivity.
Defined.

(** [TranslateY._apply_img] puts the offset in the last coefficient. *)
Lemma apply_img_passes_own_field_witness :
  ∃ call,
    pil_call_of TranslateY (VNum (PyInt 3)) (VFilter NEAREST) = Some call
    ∧ _apply_img sym_pil (VRef 0%nat) [] {["translate_y" := VNum (PyInt 3)]} world_translate_y
      = (sym_pil call [], world_translate_y).
Proof.
  refine (proj1 (apply_img_passes_own_field sym_pil 0%nat translate_y_3 "translate_y"
                   (VFilter NEAREST) [] world_translate_y _ _ _) (VNum (PyInt 3))).
  - vm_compute. reflexivity.
  - reflexivity.
  - intros _. vm_compute. reflexivity.
Defined.

(** The one step built from [translate_table] is the address 0. *)
Lemma built_steps_are_fresh_and_distinct_witness :
  ∃ subs, VList [VList []; VList [VRef 0%nat]] = VList subs
          ∧ length subs = length translate_table
          ∧ steps_of subs = VRef <$> seq (length (heap world0)) (length (concat translate_table))
          ∧ NoDup (steps_of subs)
          ∧ length (heap (build_policy translate_table world0).2)
            = (length (heap world0) + length (concat translate_table))%nat.
Proof.
  apply (built_steps_are_fresh_and_distinct translate_table world0
           (VList [VList []; VList [VRef 0%nat]]) (build_policy translate_table world0).2).
  vm_compute. reflexivity.
Defined.
